(** * Monte Carlo tree search with PUCT selection: a shallow embedding

    This development embeds [alphago/mcts_tree.py] and verifies the
    properties its specification states about it.

    Modelling conventions.
    - Python floats are modelled by the real numbers [R]: rounding, infinities
      and NaN are not represented.  The one observable partiality of float
      arithmetic that the code relies on, [ZeroDivisionError] on division by
      zero, is kept ([float_div]).
    - Python dictionaries are association lists in insertion order
      ([dict]); every dictionary the code builds is a comprehension over the
      keys of another dictionary, so key order is preserved.
    - [MCTSNode] objects live in a heap ([list MCTSNode], a reference is an
      index); [MCTSNode(...)] allocates at the end of the heap and attribute
      assignment rewrites the cell.  Functions that touch nodes or the random
      source run in the state-and-exception monad [M].
    - [np.random.dirichlet] is an operation of an abstract random source
      ([RandomSource]) whose state is threaded through [M].
    - Players are integer labels ([Z]); game states and actions are
      arbitrary types, actions with decidable equality.
    - The [while] loop of [select] takes a fuel argument that bounds the
      number of descents. *)

From Stdlib Require Import Reals Lra Lia ZArith.
From stdpp Require Import base tactics option list.

Local Open Scope R_scope.

(** ** Outcomes of a Python computation *)

(** The exceptions the modelled code can raise. *)
Inductive exn : Type :=
  | ZeroDivisionError
  | KeyError
  | ValueError
  | AssertionError
  | IndexError.

(** Ways in which the model, not Python, fails to produce a value. *)
Inductive wrong : Type :=
  | OutOfFuel      (* the fuel of a [while] loop is exhausted *)
  | DanglingRef    (* a reference that is not a cell of the heap *)
  | ComplexPower.  (* a negative float raised to a power: a complex number *)

Inductive result (A : Type) : Type :=
  | Ok (a : A)
  | Raise (e : exn)
  | Stuck (w : wrong).
Arguments Ok {A} a.
Arguments Raise {A} e.
Arguments Stuck {A} w.

#[global] Instance result_ret : MRet result := fun A a => Ok a.
#[global] Instance result_bind : MBind result := fun A B f r =>
  match r with
  | Ok a => f a
  | Raise e => Raise e
  | Stuck w => Stuck w
  end.

(** What an external collaborator (game, evaluator) hands back: a value or an
    exception of its own. *)
Definition of_external {A : Type} (x : exn + A) : result A :=
  match x with
  | inl e => Raise e
  | inr a => Ok a
  end.

(** ** Float arithmetic *)

(** [x / y] on Python floats. *)
Definition float_div (x y : R) : result R :=
  if Req_dec_T y 0 then Raise ZeroDivisionError else Ok (x / y).

(** [x ** y] on Python floats: a positive base gives [exp (y * ln x)]; base
    [0.0] gives [0.0], [1.0] or [ZeroDivisionError] according to the sign of
    the exponent; a negative base gives a complex number unless the exponent
    is integral, which the model leaves out ([extremise_distribution] asserts
    that no value is negative before it takes powers). *)
Definition float_pow (x y : R) : result R :=
  if Rlt_dec 0 x then Ok (Rpower x y)
  else if Req_dec_T x 0 then
    if Rlt_dec 0 y then Ok 0
    else if Req_dec_T y 0 then Ok 1
    else Raise ZeroDivisionError
  else Stuck ComplexPower.

(** [sum(l)]: the fold starts from [0] and adds from the left. *)
Definition py_sum (l : list R) : R := fold_left Rplus l 0.

(** [max(l)] and [min(l)]; both raise [ValueError] on an empty sequence. *)
Definition py_max (l : list R) : result R :=
  match l with
  | [] => Raise ValueError
  | x :: xs => Ok (fold_left Rmax xs x)
  end.

Definition py_min (l : list R) : result R :=
  match l with
  | [] => Raise ValueError
  | x :: xs => Ok (fold_left Rmin xs x)
  end.

(** ** Dictionaries *)

Definition dict (K V : Type) : Type := list (K * V).

Section Dict.
Context {K V : Type} `{EqDecision K}.

Definition dict_keys (d : dict K V) : list K := d.*1.
Definition dict_values (d : dict K V) : list V := d.*2.

Fixpoint dict_get (d : dict K V) (k : K) : option V :=
  match d with
  | [] => None
  | (k', v) :: d' => if decide (k' = k) then Some v else dict_get d' k
  end.

(** [d[k]], raising [KeyError] when the key is absent. *)
Definition dict_item (d : dict K V) (k : K) : result V :=
  match dict_get d k with
  | Some v => Ok v
  | None => Raise KeyError
  end.
End Dict.

(** [max(d, key=d.get)]: the first key, in iteration order, whose value is
    not exceeded by any other. *)
Fixpoint argmax_from {K : Type} (best : K) (best_v : R) (d : dict K R) : K :=
  match d with
  | [] => best
  | (k, v) :: d' =>
      if Rlt_dec best_v v then argmax_from k v d' else argmax_from best best_v d'
  end.

Definition dict_argmax {K : Type} (d : dict K R) : result K :=
  match d with
  | [] => Raise ValueError
  | (k, v) :: d' => Ok (argmax_from k v d')
  end.

(** ** Distribution utilities *)

Section Distributions.
Context {K : Type} `{EqDecision K}.

(** [normalise_distribution]; the assertion [total > 0] is commented out in
    the source, so the only failure is that of the division. *)
Definition normalise_distribution (distribution : dict K R) : result (dict K R) :=
  let total := py_sum (dict_values distribution) in
  mapM (fun '(k, v) => q ← float_div v total; mret (k, q)) distribution.

(** [extremise_distribution]: the two assertions, the rescaling by the
    maximum, the powers [v ** (1 / tau)] and their normalisation. *)
Definition extremise_distribution (distribution : dict K R) (tau : R)
  : result (dict K R) :=
  if Rlt_dec 0 tau then
    lowest ← py_min (dict_values distribution);
    if Rle_dec 0 lowest then
      max_value ← py_max (dict_values distribution);
      rescaled_distribution ←
        mapM (fun '(k, v) => q ← float_div v max_value; mret (k, q)) distribution;
      powers ←
        mapM (fun v => e ← float_div 1 tau; float_pow v e)
             (dict_values rescaled_distribution);
      let total := py_sum powers in
      mapM (fun '(k, v) =>
              e ← float_div 1 tau;
              p ← float_pow v e;
              q ← float_div p total;
              mret (k, q))
           rescaled_distribution
    else Raise AssertionError
  else Raise AssertionError.

(** [compute_ucb]: the PUCT score of every action.  ([np.sqrt] of a
    negative sum is NaN; the sum of visit counts is never negative.) *)
Definition compute_ucb (action_values prior_probs action_counts : dict K R)
    (c_puct : R) : result (dict K R) :=
  let num := sqrt (py_sum (dict_values action_counts)) in
  mapM (fun k =>
          q ← dict_item action_values k;
          p ← dict_item prior_probs k;
          n ← dict_item action_counts k;
          u ← float_div p (1 + n);
          mret (k, q + u * c_puct * num))
       (dict_keys action_values).
End Distributions.

(** ** External collaborators *)

(** The game: legal actions with their successor states, the player to move,
    terminal detection and the utility of a terminal state.  [legal_actions]
    and [utility] may raise (the noughts-and-crosses game raises [ValueError]
    on a terminal, respectively non-terminal, state). *)
Module Game.
Record t (Action State : Type) : Type := {
  legal_actions : State → exn + dict Action State;
  current_player : State → Z;
  is_terminal : State → bool;
  utility : State → exn + dict Z R
}.
Arguments legal_actions {Action State} _ _.
Arguments current_player {Action State} _ _.
Arguments is_terminal {Action State} _ _.
Arguments utility {Action State} _ _.
End Game.

(** The random source behind [np.random.dirichlet]: a draw takes the
    concentration parameters and the generator state and returns one sample,
    of the dimension of the parameters, and the next generator state. *)
Class RandomSource : Type := {
  RandomState : Type;
  dirichlet : list R → RandomState → list R * RandomState;
  dirichlet_length : ∀ alpha g, length (dirichlet alpha g).1 = length alpha
}.

(** ** Nodes, the heap and the monad *)

(** A reference to a node object: the index of its cell in the heap. *)
Abbreviation ref := nat.

Section MCTS.
Context {Action State : Type} `{EqDecision Action} {RS : RandomSource}.

Record MCTSNode : Type := {
  Q : R;
  W : R;
  N : R;
  is_terminal : bool;
  children : dict Action ref;
  prior_probs : dict Action R;
  game_state : State;
  player : Z
}.

(** [MCTSNode.__init__] *)
Definition MCTSNode_init (game_state : State) (player : Z) (is_terminal : bool)
  : MCTSNode :=
  {| Q := 0; W := 0; N := 0; is_terminal := is_terminal; player := player;
     children := []; prior_probs := []; game_state := game_state |}.

Definition set_Q (x : R) (n : MCTSNode) : MCTSNode :=
  {| Q := x; W := W n; N := N n; is_terminal := is_terminal n;
     children := children n; prior_probs := prior_probs n;
     game_state := game_state n; player := player n |}.
Definition set_W (x : R) (n : MCTSNode) : MCTSNode :=
  {| Q := Q n; W := x; N := N n; is_terminal := is_terminal n;
     children := children n; prior_probs := prior_probs n;
     game_state := game_state n; player := player n |}.
Definition set_N (x : R) (n : MCTSNode) : MCTSNode :=
  {| Q := Q n; W := W n; N := x; is_terminal := is_terminal n;
     children := children n; prior_probs := prior_probs n;
     game_state := game_state n; player := player n |}.
Definition set_children (x : dict Action ref) (n : MCTSNode) : MCTSNode :=
  {| Q := Q n; W := W n; N := N n; is_terminal := is_terminal n;
     children := x; prior_probs := prior_probs n;
     game_state := game_state n; player := player n |}.
Definition set_prior_probs (x : dict Action R) (n : MCTSNode) : MCTSNode :=
  {| Q := Q n; W := W n; N := N n; is_terminal := is_terminal n;
     children := children n; prior_probs := x;
     game_state := game_state n; player := player n |}.

(** [MCTSNode.is_leaf] *)
Definition is_leaf (n : MCTSNode) : bool :=
  bool_decide (length (children n) = 0%nat).

Record store : Type := {
  heap : list MCTSNode;
  rng : RandomState
}.

Definition M (A : Type) : Type := store → result (A * store).

#[global] Instance M_ret : MRet M := fun A a s => Ok (a, s).
#[global] Instance M_bind : MBind M := fun A B f m s =>
  match m s with
  | Ok (a, s') => f a s'
  | Raise e => Raise e
  | Stuck w => Stuck w
  end.

Definition lift {A : Type} (r : result A) : M A := fun s =>
  match r with
  | Ok a => Ok (a, s)
  | Raise e => Raise e
  | Stuck w => Stuck w
  end.

Definition raise {A : Type} (e : exn) : M A := fun _ => Raise e.
Definition stuck {A : Type} (w : wrong) : M A := fun _ => Stuck w.

(** Reading the object behind a reference. *)
Definition load (r : ref) : M MCTSNode := fun s =>
  match heap s !! r with
  | Some n => Ok (n, s)
  | None => Stuck DanglingRef
  end.

(** Assigning to an attribute of the object behind a reference. *)
Definition update (r : ref) (f : MCTSNode → MCTSNode) : M unit := fun s =>
  match heap s !! r with
  | Some n => Ok (tt, {| heap := <[r := f n]> (heap s); rng := rng s |})
  | None => Stuck DanglingRef
  end.

(** Creating an object. *)
Definition new_node (n : MCTSNode) : M ref := fun s =>
  Ok (length (heap s), {| heap := heap s ++ [n]; rng := rng s |}).

(** [np.random.dirichlet(alpha)] *)
Definition np_random_dirichlet (alpha : list R) : M (list R) := fun s =>
  Ok ((dirichlet alpha (rng s)).1,
      {| heap := heap s; rng := (dirichlet alpha (rng s)).2 |}).

(** ** The search *)

(** [MCTSNode.expand] *)
Definition expand (self : ref) (prior_probs : dict Action R)
    (child_states : dict Action State) (child_players : dict Action Z)
    (child_terminals : dict Action bool) : M unit :=
  n ← load self;
  if is_leaf n then
    update self (set_prior_probs prior_probs);;
    new_children ←
      mapM (fun action =>
              st ← lift (dict_item child_states action);
              pl ← lift (dict_item child_players action);
              tm ← lift (dict_item child_terminals action);
              child ← new_node (MCTSNode_init st pl tm);
              mret (action, child))
           (dict_keys child_states);
    update self (set_children new_children)
  else raise AssertionError.

(** [mix_dirichlet_noise]: one draw of the dimension of the distribution,
    paired with its items in iteration order. *)
Definition mix_dirichlet_noise {K : Type} (distribution : dict K R)
    (epsilon alpha : R) : M (dict K R) :=
  noise ← np_random_dirichlet (replicate (length distribution) alpha);
  mret (zip_with (fun kv z => (kv.1, (1 - epsilon) * kv.2 + epsilon * z))
                 distribution noise).

(** [{action: child.<attr> for action, child in node.children.items()}] *)
Definition children_attr (attr : MCTSNode → R) (node : MCTSNode)
  : M (dict Action R) :=
  mapM (fun '(action, child) => c ← load child; mret (action, attr c))
       (children node).

(** The [while not node.is_leaf()] loop of [select]; a unit of fuel is spent
    on every descent. *)
Fixpoint select_loop (fuel : nat) (c_puct dirichlet_epsilon dirichlet_alpha : R)
    (node : ref) (nodes : list ref) (actions : list Action)
  : M (list ref * list Action) :=
  n ← load node;
  if is_leaf n then mret (nodes, actions)
  else
    match fuel with
    | O => stuck OutOfFuel
    | S fuel' =>
        action_values ← children_attr Q n;
        action_counts ← children_attr N n;
        prior_probs ← mix_dirichlet_noise (prior_probs n)
                        dirichlet_epsilon dirichlet_alpha;
        upper_confidence_bounds ←
          lift (compute_ucb action_values prior_probs action_counts c_puct);
        action ← lift (dict_argmax upper_confidence_bounds);
        child ← lift (dict_item (children n) action);
        select_loop fuel' c_puct dirichlet_epsilon dirichlet_alpha
                    child (nodes ++ [child]) (actions ++ [action])
    end.

(** [select] *)
Definition select (fuel : nat) (starting_node : ref)
    (c_puct dirichlet_epsilon dirichlet_alpha : R)
  : M (list ref * list Action) :=
  select_loop fuel c_puct dirichlet_epsilon dirichlet_alpha
              starting_node [starting_node] [].

(** The loop of [backup]; [parent_player] is [None] before the first node.
    The test [if parent_player:] is Python truthiness: it fails for [None]
    and also for the integer [0]. *)
Fixpoint backup_from (parent_player : option Z) (nodes : list ref)
    (values : dict Z R) : M unit :=
  match nodes with
  | [] => mret tt
  | node :: rest =>
      update node (fun n => set_N (N n + 1) n);;
      match parent_player with
      | Some p =>
          if negb (p =? 0)%Z then
            v ← lift (dict_item values p);
            update node (fun n => set_W (W n + v) n);;
            n ← load node;
            q ← lift (float_div (W n) (N n));
            update node (set_Q q)
          else mret tt
      | None => mret tt
      end;;
      n ← load node;
      backup_from (Some (player n)) rest values
  end.

(** [backup] *)
Definition backup (nodes : list ref) (values : dict Z R) : M unit :=
  backup_from None nodes values.

(** [nodes[-1]] *)
Definition last_item (nodes : list ref) : result ref :=
  match last nodes with
  | Some r => Ok r
  | None => Raise IndexError
  end.

(** One pass of the [for] loop of [mcts]. *)
Definition mcts_iteration (fuel : nat) (starting_node : ref)
    (game : Game.t Action State)
    (estimator : State → exn + (dict Action R * R))
    (c_puct dirichlet_epsilon dirichlet_alpha : R) : M unit :=
  '(nodes, actions) ← select fuel starting_node c_puct
                         dirichlet_epsilon dirichlet_alpha;
  leaf_ref ← lift (last_item nodes);
  leaf ← load leaf_ref;
  values ←
    (if negb (is_terminal leaf) then
       '(prior_probs, value) ← lift (of_external (estimator (game_state leaf)));
       let player := Game.current_player game (game_state leaf) in
       let other_player := if (player =? 2)%Z then 1%Z else 2%Z in
       let values := [(player, value); (other_player, - value)] in
       child_states ←
         lift (of_external (Game.legal_actions game (game_state leaf)));
       prior_probs ← lift (normalise_distribution prior_probs);
       let child_players :=
         (fun '(action, child_state) =>
            (action, Game.current_player game child_state)) <$> child_states in
       let child_terminals :=
         (fun '(action, child_state) =>
            (action, Game.is_terminal game child_state)) <$> child_states in
       expand leaf_ref prior_probs child_states child_players child_terminals;;
       mret values
     else lift (of_external (Game.utility game (game_state leaf))));
  backup nodes values.

(** [for i in range(mcts_iters)] *)
Fixpoint mcts_loop (iterations : nat) (body : M unit) : M unit :=
  match iterations with
  | O => mret tt
  | S i => body;; mcts_loop i body
  end.

(** [mcts]; [range(mcts_iters)] is empty for a non-positive [mcts_iters]. *)
Definition mcts (fuel : nat) (starting_node : ref)
    (game : Game.t Action State)
    (estimator : State → exn + (dict Action R * R))
    (mcts_iters : Z) (c_puct tau dirichlet_epsilon dirichlet_alpha : R)
  : M (dict Action R) :=
  mcts_loop (Z.to_nat mcts_iters)
    (mcts_iteration fuel starting_node game estimator c_puct
                    dirichlet_epsilon dirichlet_alpha);;
  root ← load starting_node;
  action_counts ← children_attr N root;
  lift (extremise_distribution action_counts tau).

(** [print_tree]: the loop [while i < len(queue)] over the growing queue.
    What is printed is recorded as the list of the nodes printed, in order;
    a unit of fuel is spent on every node. *)
Fixpoint print_tree_loop (fuel : nat) (queue : list ref) (i : nat)
    (printed : list ref) : M (list ref) :=
  match queue !! i with
  | None => mret printed
  | Some node =>
      match fuel with
      | O => stuck OutOfFuel
      | S fuel' =>
          n ← load node;
          print_tree_loop fuel' (queue ++ (children n).*2) (S i)
                          (printed ++ [node])
      end
  end.

Definition print_tree (fuel : nat) (root : ref) : M (list ref) :=
  print_tree_loop fuel [root] 0 [].
End MCTS.

Arguments MCTSNode : clear implicits.
Arguments store Action State {RS}.
Arguments M Action State {RS} A%_type.

(** ** Notions used to state the properties *)

Section Specification.
Context {Action State : Type} `{EqDecision Action} {RS : RandomSource}.
Local Abbreviation node := (MCTSNode Action State).
Local Abbreviation store := (store Action State).
Local Abbreviation M := (M Action State).

(** A computation that leaves every node as it found it. *)
Definition read_only {A : Type} (m : M A) : Prop :=
  ∀ s a s', m s = Ok (a, s') → heap s' = heap s.

(** The dictionary [{action: child.attr}] of a node, read off a heap. *)
Definition children_view (h : list node) (attr : node → R) (n : node)
  : option (dict Action R) :=
  mapM (fun '(action, child) => c ← h !! child; Some (action, attr c))
       (children n).

(** The prior of node [n] mixed with the sample that generator state [g]
    yields for it. *)
Definition noisy_prior (n : node) (epsilon alpha : R) (g : RandomState)
  : dict Action R :=
  zip_with (fun kv z => (kv.1, (1 - epsilon) * kv.2 + epsilon * z))
           (prior_probs n)
           (dirichlet (replicate (length (prior_probs n)) alpha) g).1.

(** The generator state after the draw made for node [n]. *)
Definition after_draw (n : node) (alpha : R) (g : RandomState) : RandomState :=
  (dirichlet (replicate (length (prior_probs n)) alpha) g).2.

(** Selection as the specification words it: starting at a node, repeat
    until a leaf is reached: take [Q] and [N] per child action, mix the
    node's own prior with a fresh Dirichlet sample (the caller's epsilon and
    alpha), score the actions, pick the one with the highest score and
    descend into that child.  [selection h c e a g r nodes actions g'] says
    that, on heap [h] and from generator state [g], this walk from [r]
    visits [nodes], takes [actions] and leaves the generator in [g']. *)
Inductive selection (h : list node) (c_puct epsilon alpha : R)
  : RandomState → ref → list ref → list Action → RandomState → Prop :=
  | selection_leaf g r n :
      h !! r = Some n →
      is_leaf n = true →
      selection h c_puct epsilon alpha g r [r] [] g
  | selection_descend g r n action_values action_counts ucb action child
        nodes actions g' :
      h !! r = Some n →
      is_leaf n = false →
      children_view h Q n = Some action_values →
      children_view h N n = Some action_counts →
      compute_ucb action_values (noisy_prior n epsilon alpha g)
                  action_counts c_puct = Ok ucb →
      dict_argmax ucb = Ok action →
      dict_get (children n) action = Some child →
      selection h c_puct epsilon alpha (after_draw n alpha g)
                child nodes actions g' →
      selection h c_puct epsilon alpha g r (r :: nodes) (action :: actions) g'.

(** The generator state after one draw for each of the nodes [path], in
    order, each draw of the dimension of that node's own prior. *)
Fixpoint draws_along (h : list node) (alpha : R) (path : list ref)
    (g : RandomState) : RandomState :=
  match path with
  | [] => g
  | r :: path' =>
      match h !! r with
      | Some n => draws_along h alpha path' (after_draw n alpha g)
      | None => g
      end
  end.

(** What one pass of the loop of [backup] makes of the node it visits. *)
Definition backed_up (parent_player : option Z) (values : dict Z R) (n : node)
  : result node :=
  let n1 := set_N (N n + 1) n in
  match parent_player with
  | Some p =>
      if negb (p =? 0)%Z then
        v ← dict_item values p;
        let n2 := set_W (W n1 + v) n1 in
        q ← float_div (W n2) (N n2);
        Ok (set_Q q n2)
      else Ok n1
  | None => Ok n1
  end.

(** Two nodes that differ at most in their statistics [Q], [W], [N]. *)
Definition same_position (n n' : node) : Prop :=
  children n' = children n ∧ prior_probs n' = prior_probs n ∧
  is_terminal n' = is_terminal n ∧ game_state n' = game_state n ∧
  player n' = player n.

(** The references held in the [children] dictionary of a node. *)
Definition child_refs (n : node) : list ref := (children n).*2.

(** The visit count of the node behind a reference. *)
Definition visit_count (h : list node) (r : ref) : R :=
  match h !! r with
  | Some n => N n
  | None => 0
  end.

(** The sum of the visit counts of the nodes behind [refs]. *)
Definition sum_visits (h : list node) (refs : list ref) : R :=
  py_sum (visit_count h <$> refs).

(** The invariant [mean_value = cumulative_value / visit_count whenever
    visit_count > 0], for one node and for every node of a heap. *)
Definition mean_value_ok (n : node) : Prop := 0 < N n → Q n = W n / N n.
Definition heap_mean_values_ok (h : list node) : Prop :=
  ∀ r n, h !! r = Some n → mean_value_ok n.

(** The part of a heap that a search from root [root] has built: the cells
    from index [base] on.  The children of the root lie there and are
    pairwise distinct, and every node there refers only to later cells, none
    of which is a child of the root. *)
Record search_tree (base : nat) (root : ref) (h : list node) : Prop := {
  st_root : (root < base ≤ length h)%nat;
  st_root_children :
    ∀ n, h !! root = Some n →
         NoDup (child_refs n) ∧
         Forall (fun c => (base ≤ c < length h)%nat) (child_refs n);
  st_below :
    ∀ i n m, (base ≤ i)%nat → h !! i = Some n → h !! root = Some m →
             Forall (fun c => (i < c < length h)%nat ∧ c ∉ child_refs m)
                    (child_refs n)
}.

(** A node as [MCTSNode.__init__] leaves it. *)
Definition fresh_node (m : node) : Prop :=
  Q m = 0 ∧ W m = 0 ∧ N m = 0 ∧ children m = [] ∧ prior_probs m = [].

(** The state of a heap after [k] iterations of a search that started at a
    fresh root stored below index [base] and whose first iteration gave the
    root children. *)
Definition searched (base : nat) (root : ref) (k : nat) (h : list node) : Prop :=
  search_tree base root h ∧
  ∃ n, h !! root = Some n ∧ is_leaf n = false ∧ N n = INR k ∧
       sum_visits h (child_refs n) = INR k - 1.

(** A root that every iteration finds childless: a leaf whose position is
    not terminal and has no legal action. *)
Definition barren (game : Game.t Action State) (root : ref) (h : list node)
  : Prop :=
  ∃ n, h !! root = Some n ∧ is_leaf n = true ∧ is_terminal n = false ∧
       Game.legal_actions game (game_state n) = inr [].

(** The value of [parent_player] when the loop of [backup] reaches position
    [i] of [path]: [start] at the first node, afterwards the player recorded
    at the node before. *)
Definition parent_player_at (h : list node) (start : option Z)
    (path : list ref) (i : nat) : option Z :=
  match i with
  | O => start
  | S j => player <$> (path !! j ≫= fun y => h !! y)
  end.

(** A heap on which selection cannot fail: no visit count is negative, and
    every child of a node lies later in the heap than the node and has, for
    its action, a prior at the node. *)
Definition selectable (h : list node) : Prop :=
  ∀ r n, h !! r = Some n →
    0 <= N n ∧
    Forall (fun ac => (r < ac.2 < length h)%nat ∧
                      ac.1 ∈ dict_keys (prior_probs n)) (children n).

(** Nodes that record the player and the terminal flag the game gives for
    their state. *)
Definition follows_game (game : Game.t Action State) (h : list node) : Prop :=
  ∀ r n, h !! r = Some n →
    player n = Game.current_player game (game_state n) ∧
    is_terminal n = Game.is_terminal game (game_state n).

(** A heap in which the children of every node lie later than the node. *)
Definition children_later (h : list node) : Prop :=
  ∀ r n, h !! r = Some n →
    Forall (fun c => (r < c < length h)%nat) (child_refs n).

(** The references a node of the heap holds in [children], none for a
    reference that is not in the heap. *)
Definition children_of (h : list node) (r : ref) : list ref :=
  match h !! r with
  | Some n => child_refs n
  | None => []
  end.

(** The number of nodes of the tree below a reference, the node itself
    included, counted down to the given depth. *)
Fixpoint tree_size (depth : nat) (h : list node) (r : ref) : nat :=
  match depth with
  | O => 1
  | S d => S (sum_list (tree_size d h <$> children_of h r))
  end.

(** What a search may make of a heap: the nodes stay where they are and
    new ones come after them; a node keeps its state, its player and its
    terminal flag; its visit count does not fall; and once it has children
    it keeps them and its prior. *)
Definition search_extends (h h' : list node) : Prop :=
  (length h ≤ length h')%nat ∧
  ∀ x n, h !! x = Some n →
    ∃ n', h' !! x = Some n' ∧
          game_state n' = game_state n ∧ player n' = player n ∧
          is_terminal n' = is_terminal n ∧ N n <= N n' ∧
          (children n ≠ [] →
           children n' = children n ∧ prior_probs n' = prior_probs n).

(** A game and an evaluator that [mcts] can play: the players are [1] and
    [2]; a state that is not terminal has legal actions (possibly none) and
    an estimate whose prior covers them and, unless empty, does not sum to
    zero; a terminal state has a utility for both players. *)
Record playable (game : Game.t Action State)
    (estimator : State → exn + (dict Action R * R)) : Prop := {
  playable_players :
    ∀ st, Game.current_player game st = 1%Z ∨
          Game.current_player game st = 2%Z;
  playable_estimate :
    ∀ st, Game.is_terminal game st = false →
      ∃ child_states prior value,
        Game.legal_actions game st = inr child_states ∧
        estimator st = inr (prior, value) ∧
        (∀ a, a ∈ dict_keys child_states → a ∈ dict_keys prior) ∧
        (prior ≠ [] → py_sum (dict_values prior) ≠ 0);
  playable_utility :
    ∀ st, Game.is_terminal game st = true →
      ∃ values, Game.utility game st = inr values ∧
                1%Z ∈ dict_keys values ∧ 2%Z ∈ dict_keys values
}.
End Specification.

(** ** A concrete setting: a game of one move *)

(** A random source that returns the uniform sample; its state counts the
    draws made. *)
#[global] Instance uniform_source : RandomSource := {|
  RandomState := nat;
  dirichlet := fun alpha g => ((fun _ => / INR (length alpha)) <$> alpha, S g);
  dirichlet_length := fun alpha g => length_fmap _ alpha
|}.

(** Positions are numbered; position [0] has the single move [0], which leads
    to the terminal position [1], won by player [1].  Player [1] moves at even
    positions, player [2] at odd ones. *)
Definition one_move_game : Game.t nat nat := {|
  Game.legal_actions := fun st =>
    match st with
    | O => inr [(0%nat, 1%nat)]
    | S _ => inl ValueError
    end;
  Game.current_player := fun st => if Nat.even st then 1%Z else 2%Z;
  Game.is_terminal := fun st => negb (st =? 0)%nat;
  Game.utility := fun st =>
    match st with
    | O => inl ValueError
    | S _ => inr [(1%Z, 1); (2%Z, -1)]
    end
|}.

(** An evaluator that gives the single move weight [1] and every position
    the value [0]. *)
Definition one_move_estimator (st : nat) : exn + (dict nat R * R) :=
  inr ([(0%nat, 1)], 0).

(** A heap that holds a fresh root for position [0]. *)
Definition fresh_store : store nat nat :=
  {| heap := [MCTSNode_init 0%nat 1%Z false]; rng := 0%nat |}.

(** The tree two iterations build from [fresh_store]: the root, visited
    twice, and its terminal child, visited once with value [1]. *)
Definition searched_store : store nat nat :=
  {| heap := [ {| Q := 0; W := 0; N := 2; is_terminal := false;
                  children := [(0%nat, 1%nat)]; prior_probs := [(0%nat, 1)];
                  game_state := 0%nat; player := 1%Z |};
               {| Q := 1; W := 1; N := 1; is_terminal := true;
                  children := []; prior_probs := [];
                  game_state := 1%nat; player := 2%Z |} ];
     rng := 1%nat |}.

(** Two fresh nodes of a game whose players are labelled [0] and [1], and
    the values of a position won by player [0]. *)
Definition zero_player_store : store nat nat :=
  {| heap := [MCTSNode_init 0%nat 0%Z false; MCTSNode_init 1%nat 1%Z false];
     rng := 0%nat |}.

Definition zero_player_values : dict Z R := [(0%Z, 1); (1%Z, -1)].

(** ** The noughts-and-crosses game ([alphago/noughts_and_crosses.py]) *)

(** A state is a tuple of nine numbers: [1] for a cross, [-1] for a nought
    and [nan] for an empty square.  A square is modelled by [option Z], [None]
    being [nan]. *)
Module NoughtsAndCrosses.
Definition State : Type := list (option Z).

Definition INITIAL_STATE : State := replicate 9 None.

Record Outcome : Type := {
  player1_score : Z;
  player2_score : Z
}.

(** [np.isnan] on one entry, and [np.any(np.isnan(state))]. *)
Definition isnan (c : option Z) : bool :=
  match c with
  | None => true
  | Some _ => false
  end.

Definition any_isnan (state : State) : bool := existsb isnan state.

(** [np.nansum]: the sum with [nan] counted as zero. *)
Definition nansum (l : list (option Z)) : Z :=
  foldr (fun c acc => (default 0 c + acc)%Z) 0%Z l.

(** [np.array(state).reshape(3, 3)]; it raises [ValueError] unless the state
    has nine entries. *)
Definition reshape_3_3 (state : State) : result (list (list (option Z))) :=
  if decide (length state = 9%nat)
  then Ok [take 3 state; take 3 (drop 3 state); drop 6 state]
  else Raise ValueError.

Definition column (board : list (list (option Z))) (c : nat) : list (option Z) :=
  (fun row => default None (row !! c)) <$> board.

(** [board.diagonal()] and [np.fliplr(board)]. *)
Definition diagonal (board : list (list (option Z))) : list (option Z) :=
  imap (fun i row => default None (row !! i)) board.

Definition fliplr (board : list (list (option Z))) : list (list (option Z)) :=
  reverse <$> board.

(** [_calculate_line_sums]: the sums of the three rows, the three columns,
    the major and the minor diagonal, in this order. *)
Definition _calculate_line_sums (state : State) : result (list Z) :=
  board ← reshape_3_3 state;
  let horizontals := nansum <$> board in
  let verticals := (fun c => nansum (column board c)) <$> [0; 1; 2]%nat in
  let major_diagonal := [nansum (diagonal board)] in
  let minor_diagonal := [nansum (diagonal (fliplr board))] in
  Ok (horizontals ++ verticals ++ major_diagonal ++ minor_diagonal).

Definition is_terminal (state : State) : result bool :=
  if negb (any_isnan state) then Ok true
  else
    line_sums ← _calculate_line_sums state;
    if existsb (fun x => (Z.abs x =? 3)%Z) line_sums then Ok true
    else Ok false.

Definition utility (state : State) : result Outcome :=
  line_sums ← _calculate_line_sums state;
  if existsb (fun x => (x =? 3)%Z) line_sums
  then Ok {| player1_score := 1; player2_score := -1 |}
  else if existsb (fun x => (x =? -3)%Z) line_sums
  then Ok {| player1_score := -1; player2_score := 1 |}
  else if negb (any_isnan state)
  then Ok {| player1_score := 0; player2_score := 0 |}
  else Raise ValueError.

(** The [available_squares] of [next_states], from [np.where] on
    [np.isnan(board)]: the empty squares as (row, column) pairs, row by
    row. *)
Definition where_isnan (board : list (list (option Z))) : list (nat * nat) :=
  concat (imap (fun r row =>
                  omap (fun p => p) (imap (fun c x => if isnan x then Some (r, c) else None)
                                row))
               board).

(** [next_states]; every successor gets a [1], a cross, in the chosen
    square. *)
Definition next_states (state : State) : result (dict (nat * nat) State) :=
  is_terminal state ≫= fun terminal : bool =>
  if terminal then Raise ValueError
  else
    board ← reshape_3_3 state;
    let available_squares := where_isnan board in
    let next_states_ :=
      (fun '(row_i, col_i) =>
         let flattened_index := (3 * row_i + col_i)%nat in
         <[flattened_index := Some 1%Z]> state) <$> available_squares in
    Ok (zip available_squares next_states_).

(** The index triples of the eight lines, in the order of the line sums. *)
Definition lines : list (list nat) :=
  [[0; 1; 2]; [3; 4; 5]; [6; 7; 8];
   [0; 3; 6]; [1; 4; 7]; [2; 5; 8];
   [0; 4; 8]; [2; 4; 6]]%nat.

(** Square [i] of [state] holds the number [z]. *)
Definition holds (state : State) (z : Z) (i : nat) : Prop :=
  state !! i = Some (Some z).

(** Some line of the board holds [z] three times. *)
Definition three_in_line (state : State) (z : Z) : Prop :=
  ∃ line, line ∈ lines ∧ Forall (holds state z) line.

(** A board as the game builds it: nine squares, each a cross, a nought or
    empty. *)
Definition well_formed (state : State) : Prop :=
  length state = 9%nat ∧
  Forall (fun c => c = None ∨ c = Some 1%Z ∨ c = Some (-1)%Z) state.

(** A board that the crosses have won along the top row. *)
Definition crosses_won : State :=
  [Some 1%Z; Some 1%Z; Some 1%Z; Some (-1)%Z; Some (-1)%Z;
   None; None; None; None].
End NoughtsAndCrosses.

(** ** The trivial evaluator ([alphago/evaluator.py]) *)

(** [create_trivial_evaluator]: the uniform distribution over the next
    states and the value [0]. *)
Definition create_trivial_evaluator {Action State : Type}
    (next_states_function : State → exn + dict Action State)
  : State → exn + (dict Action R * R) :=
  fun state =>
    match next_states_function state with
    | inl e => inl e
    | inr next_states =>
        inr ((fun '(action, _) => (action, 1 / INR (length next_states)))
               <$> next_states, 0)
    end.

(** * Properties *)

(** ** The exception monad and lists *)

Lemma result_bind_Ok {A B : Type} (r : result A) (f : A → result B) b :
  r ≫= f = Ok b → ∃ a, r = Ok a ∧ f a = Ok b.
Proof. destruct r; simpl; intros; [eauto | discriminate..]. Qed.

Lemma result_left_id {A B : Type} (a : A) (f : A → result B) :
  Ok a ≫= f = f a.
Proof. reflexivity. Qed.

Section ResultFacts.
Context {A B : Type}.

Lemma mapM_result_Ok (f : A → result B) (g : A → B) l :
  Forall (fun x => f x = Ok (g x)) l → mapM f l = Ok (g <$> l).
Proof.
  induction 1 as [|x l Hx _ IH]; [reflexivity|].
  cbn [mapM]. rewrite Hx. simpl. rewrite IH. reflexivity.
Qed.

Lemma mapM_result_Raise (f : A → result B) e l :
  l ≠ [] → Forall (fun x => f x = Raise e) l → mapM f l = Raise e.
Proof.
  intros Hne Hall. destruct l as [|x l]; [done|].
  inversion_clear Hall as [|? ? Hx _]. cbn [mapM]. rewrite Hx. reflexivity.
Qed.

End ResultFacts.

(** ** Sums, maxima and minima of floats *)

Lemma fold_left_Rplus l a : fold_left Rplus l a = a + foldr Rplus 0 l.
Proof.
  revert a. induction l as [|x l IH]; intros a; simpl; [lra|].
  rewrite IH. lra.
Qed.

Lemma py_sum_cons x l : py_sum (x :: l) = x + py_sum l.
Proof. unfold py_sum. simpl. rewrite !fold_left_Rplus. lra. Qed.

Lemma py_sum_nil : py_sum [] = 0.
Proof. reflexivity. Qed.

Lemma py_sum_scale c l : py_sum ((fun v => v / c) <$> l) = py_sum l / c.
Proof.
  induction l as [|x l IH]; [rewrite fmap_nil, py_sum_nil; lra|].
  rewrite fmap_cons, !py_sum_cons, IH. lra.
Qed.

Lemma py_sum_zero l : Forall (fun v => v = 0) l → py_sum l = 0.
Proof.
  induction 1 as [|x l Hx _ IH]; [reflexivity|].
  rewrite py_sum_cons, Hx, IH. lra.
Qed.

Lemma py_sum_pos l : l ≠ [] → Forall (fun v => 0 < v) l → 0 < py_sum l.
Proof.
  intros Hne Hall. destruct l as [|x l]; [done|]. clear Hne.
  inversion_clear Hall as [|? ? Hx Hl]. rewrite py_sum_cons.
  assert (0 <= py_sum l); [|lra].
  induction Hl as [|y l Hy _ IH]; [rewrite py_sum_nil; lra|].
  rewrite py_sum_cons. lra.
Qed.

Lemma fold_left_Rmax_pos l x : 0 < x → 0 < fold_left Rmax l x.
Proof.
  revert x. induction l as [|y l IH]; intros x Hx; simpl; [done|].
  apply IH. unfold Rmax. destruct (Rle_dec x y); lra.
Qed.

Lemma fold_left_Rmin_pos l x :
  0 < x → Forall (fun v => 0 < v) l → 0 < fold_left Rmin l x.
Proof.
  revert x. induction l as [|y l IH]; intros x Hx Hl; simpl; [done|].
  inversion_clear Hl. apply IH; [|done].
  unfold Rmin. destruct (Rle_dec x y); lra.
Qed.

Lemma fold_left_Rmax_zero l x :
  x = 0 → Forall (fun v => v = 0) l → fold_left Rmax l x = 0.
Proof.
  revert x. induction l as [|y l IH]; intros x Hx Hl; simpl; [done|].
  inversion_clear Hl. apply IH; [|done].
  unfold Rmax. destruct (Rle_dec x y); lra.
Qed.

Lemma fold_left_Rmin_zero l x :
  x = 0 → Forall (fun v => v = 0) l → fold_left Rmin l x = 0.
Proof.
  revert x. induction l as [|y l IH]; intros x Hx Hl; simpl; [done|].
  inversion_clear Hl. apply IH; [|done].
  unfold Rmin. destruct (Rle_dec x y); lra.
Qed.

Lemma py_min_pos l :
  l ≠ [] → Forall (fun v => 0 < v) l → ∃ m, py_min l = Ok m ∧ 0 < m.
Proof.
  intros Hne Hl. destruct l as [|x l]; [done|]. inversion_clear Hl.
  eexists. split; [reflexivity|]. by apply fold_left_Rmin_pos.
Qed.

Lemma py_max_pos l :
  l ≠ [] → Forall (fun v => 0 < v) l → ∃ m, py_max l = Ok m ∧ 0 < m.
Proof.
  intros Hne Hl. destruct l as [|x l]; [done|]. inversion_clear Hl.
  eexists. split; [reflexivity|]. by apply fold_left_Rmax_pos.
Qed.

(** ** Float operations that succeed *)

Lemma float_div_Ok x y : y ≠ 0 → float_div x y = Ok (x / y).
Proof. intros Hy. unfold float_div. by destruct (Req_dec_T y 0). Qed.

Lemma float_div_zero x : float_div x 0 = Raise ZeroDivisionError.
Proof. unfold float_div. by destruct (Req_dec_T 0 0). Qed.

Lemma float_pow_one x : 0 < x → float_pow x (1 / 1) = Ok x.
Proof.
  intros Hx. unfold float_pow. destruct (Rlt_dec 0 x); [|done].
  replace (1 / 1) with 1 by lra. by rewrite Rpower_1.
Qed.

(** ** Dictionaries *)

Section DictFacts.
Context {K V : Type} `{EqDecision K}.

Lemma dict_get_is_Some (d : dict K V) k :
  k ∈ dict_keys d ↔ is_Some (dict_get d k).
Proof.
  unfold dict_keys. induction d as [|[k' v] d IH]; simpl.
  - split; [by intros ?%elem_of_nil | by intros [? ?]].
  - rewrite elem_of_cons, IH. destruct (decide (k' = k)) as [->|Hne].
    + split; eauto.
    + split; [intros [->|?]; done | eauto].
Qed.

Lemma dict_get_value (d : dict K V) k v :
  dict_get d k = Some v → v ∈ dict_values d.
Proof.
  unfold dict_values. induction d as [|[k' v'] d IH]; simpl; [done|].
  destruct (decide (k' = k)); rewrite elem_of_cons.
  - intros [= ->]. by left.
  - intros ?. right. by apply IH.
Qed.

Lemma dict_get_tabulate (h : K → V) (l : list K) k :
  k ∈ l → dict_get ((fun k => (k, h k)) <$> l) k = Some (h k).
Proof.
  induction l as [|k' l IH]; [by intros ?%elem_of_nil|].
  rewrite elem_of_cons, fmap_cons. simpl.
  destruct (decide (k' = k)) as [->|Hne]; [done|].
  intros [->|Hin]; [done | by apply IH].
Qed.

Lemma dict_item_Some (d : dict K V) k v :
  dict_get d k = Some v → dict_item d k = Ok v.
Proof. unfold dict_item. by intros ->. Qed.
End DictFacts.

(** ** The PUCT scorer and the distribution utilities *)

Section DistributionFacts.
Context {K : Type} `{EqDecision K}.

(** C1.  When the three dictionaries have the same keys (and the counts are
    visit counts, hence not negative), [compute_ucb] returns, for every
    action [a], the score [Q(a) + c_puct * P(a) * sqrt (sum N) / (1 + N(a))];
    when all counts are zero that score is [Q(a)] whatever [P(a)] is. *)
Theorem compute_ucb_formula
    (action_values prior_probs action_counts : dict K R) (c_puct : R) :
  (∀ k, k ∈ dict_keys action_values ↔ k ∈ dict_keys prior_probs) →
  (∀ k, k ∈ dict_keys action_values ↔ k ∈ dict_keys action_counts) →
  Forall (fun n => 0 <= n) (dict_values action_counts) →
  ∃ ucb,
    compute_ucb action_values prior_probs action_counts c_puct = Ok ucb ∧
    dict_keys ucb = dict_keys action_values ∧
    ∀ a q p n,
      dict_get action_values a = Some q →
      dict_get prior_probs a = Some p →
      dict_get action_counts a = Some n →
      dict_get ucb a =
        Some (q + c_puct * p * sqrt (py_sum (dict_values action_counts)) / (1 + n)) ∧
      (Forall (fun m => m = 0) (dict_values action_counts) →
       dict_get ucb a = Some q).
Proof.
  intros HP HN Hpos.
  set (num := sqrt (py_sum (dict_values action_counts))).
  set (score := fun k =>
         default 0 (dict_get action_values k) +
         default 0 (dict_get prior_probs k) /
           (1 + default 0 (dict_get action_counts k)) * c_puct * num).
  assert (Hrun : compute_ucb action_values prior_probs action_counts c_puct
                 = Ok ((fun k => (k, score k)) <$> dict_keys action_values)).
  { unfold compute_ucb. apply mapM_result_Ok, Forall_forall. intros k Hk.
    destruct (proj1 (dict_get_is_Some _ _) Hk) as [q Hq].
    destruct (proj1 (dict_get_is_Some _ _) (proj1 (HP k) Hk)) as [p Hp].
    destruct (proj1 (dict_get_is_Some _ _) (proj1 (HN k) Hk)) as [n Hn].
    assert (0 <= n) as Hn0.
    { eapply (proj1 (Forall_forall _ _) Hpos), dict_get_value, Hn. }
    rewrite (dict_item_Some _ _ _ Hq), (dict_item_Some _ _ _ Hp),
      (dict_item_Some _ _ _ Hn). simpl.
    rewrite float_div_Ok by lra. simpl. unfold mret, result_ret, score.
    by rewrite Hq, Hp, Hn. }
  eexists. split; [exact Hrun|]. split.
  { unfold dict_keys at 1. rewrite <- list_fmap_compose.
    apply list_fmap_id. }
  intros a q p n Hq Hp Hn.
  assert (a ∈ dict_keys action_values) as Ha
    by (apply dict_get_is_Some; eauto).
  assert (0 <= n) as Hn0.
  { eapply (proj1 (Forall_forall _ _) Hpos), dict_get_value, Hn. }
  rewrite (dict_get_tabulate score) by done.
  unfold score. rewrite Hq, Hp, Hn. simpl. split.
  - f_equal. field. lra.
  - intros Hzero. f_equal. unfold num.
    rewrite (py_sum_zero _ Hzero), sqrt_0. lra.
Qed.

Lemma normalise_distribution_Ok (d : dict K R) :
  py_sum (dict_values d) ≠ 0 →
  normalise_distribution d
  = Ok ((fun kv => (kv.1, kv.2 / py_sum (dict_values d))) <$> d).
Proof.
  intros Hsum. unfold normalise_distribution.
  apply mapM_result_Ok, Forall_forall. intros [k v] _.
  by rewrite float_div_Ok.
Qed.

Lemma normalise_distribution_nil :
  normalise_distribution ([] : dict K R) = Ok [].
Proof. reflexivity. Qed.

Lemma normalise_distribution_zero_sum (d : dict K R) :
  d ≠ [] → py_sum (dict_values d) = 0 →
  normalise_distribution d = Raise ZeroDivisionError.
Proof.
  intros Hne Hsum. unfold normalise_distribution. rewrite Hsum.
  apply mapM_result_Raise; [done|]. apply Forall_forall. intros [k v] _.
  by rewrite float_div_zero.
Qed.

Lemma extremise_distribution_nil tau :
  ∃ e, extremise_distribution ([] : dict K R) tau = Raise e.
Proof.
  unfold extremise_distribution. destruct (Rlt_dec 0 tau); simpl; eauto.
Qed.

Lemma extremise_distribution_zero (d : dict K R) tau :
  Forall (fun v => v = 0) (dict_values d) →
  ∃ e, extremise_distribution d tau = Raise e.
Proof.
  intros Hzero. destruct d as [|[k v] d]; [apply extremise_distribution_nil|].
  unfold extremise_distribution. destruct (Rlt_dec 0 tau); [|eauto].
  unfold dict_values in *. rewrite fmap_cons in *. simpl in *.
  inversion_clear Hzero as [|? ? Hv Hd]. subst v.
  rewrite (fold_left_Rmin_zero _ 0), (fold_left_Rmax_zero _ 0) by done.
  destruct (Rle_dec 0 0); [|eauto].
  rewrite float_div_zero. simpl. eauto.
Qed.

(** C5 (as amended).  [normalise] raises [ZeroDivisionError] on a non-empty
    distribution whose values sum to zero, but returns the empty
    distribution, without any error, on the empty one; [extremise] raises on
    the empty distribution and on every all-zero one. *)
Theorem normalise_extremise_domain (d : dict K R) (tau : R) :
  (d = [] → normalise_distribution d = Ok []) ∧
  (d ≠ [] → py_sum (dict_values d) = 0 →
   normalise_distribution d = Raise ZeroDivisionError) ∧
  (d = [] ∨ Forall (fun v => v = 0) (dict_values d) →
   ∃ e, extremise_distribution d tau = Raise e).
Proof.
  split; [|split].
  - intros ->. apply normalise_distribution_nil.
  - apply normalise_distribution_zero_sum.
  - intros [->|Hzero];
      [apply extremise_distribution_nil | by apply extremise_distribution_zero].
Qed.

Lemma extremise_distribution_single (k : K) (v : R) :
  0 < v → extremise_distribution [(k, v)] 1 = Ok [(k, 1)].
Proof.
  intros Hv. assert (0 < v / v) as Hvv by (by apply Rdiv_lt_0_compat).
  unfold extremise_distribution, dict_values, py_sum.
  destruct (Rlt_dec 0 1); [|lra]. cbn.
  destruct (Rle_dec 0 v); [|lra].
  rewrite !float_div_Ok by lra. cbn.
  rewrite float_pow_one by done. cbn.
  rewrite float_div_Ok by lra. cbn.
  do 3 f_equal. field; repeat split; lra.
Qed.

(** C6.  On a non-empty distribution with positive values, [extremise] with
    [tau = 1] returns what [normalise] returns: the values [v / sum d], key
    for key. *)
Theorem extremise_one_is_normalise (d : dict K R) :
  d ≠ [] →
  Forall (fun v => 0 < v) (dict_values d) →
  extremise_distribution d 1 = normalise_distribution d ∧
  normalise_distribution d
  = Ok ((fun kv => (kv.1, kv.2 / py_sum (dict_values d))) <$> d).
Proof.
  intros Hne Hpos.
  assert (dict_values d ≠ []) as Hvals by (by destruct d).
  pose proof (py_sum_pos _ Hvals Hpos) as Hsum.
  assert (Hnorm := normalise_distribution_Ok d ltac:(lra)).
  split; [|exact Hnorm]. rewrite Hnorm.
  unfold extremise_distribution. destruct (Rlt_dec 0 1) as [_|]; [|lra].
  destruct (py_min_pos _ Hvals Hpos) as (lowest & -> & Hlow).
  destruct (py_max_pos _ Hvals Hpos) as (mx & -> & Hmx).
  rewrite result_left_id. destruct (Rle_dec 0 lowest); [|lra].
  rewrite result_left_id.
  rewrite (mapM_result_Ok _ (fun kv => (kv.1, kv.2 / mx))); cycle 1.
  { apply Forall_forall. intros [k v] _. by rewrite float_div_Ok by lra. }
  rewrite result_left_id.
  assert (Hresc : dict_values ((fun kv : K * R => (kv.1, kv.2 / mx)) <$> d)
                  = (fun v => v / mx) <$> dict_values d).
  { unfold dict_values. rewrite <- !list_fmap_compose. done. }
  rewrite Hresc.
  rewrite (mapM_result_Ok _ id); cycle 1.
  { apply Forall_forall. intros x (v & -> & Hv)%list_elem_of_fmap.
    rewrite float_div_Ok, result_left_id by lra. apply float_pow_one.
    apply Rdiv_lt_0_compat; [|done].
    by apply (proj1 (Forall_forall _ _) Hpos). }
  rewrite result_left_id, list_fmap_id, py_sum_scale.
  rewrite (mapM_result_Ok _
             (fun kv => (kv.1, kv.2 / (py_sum (dict_values d) / mx)))); cycle 1.
  { apply Forall_forall. intros [k x] Hx.
    apply list_elem_of_fmap in Hx as ([k' v] & [= -> ->] & Hv).
    assert (0 < v).
    { apply (proj1 (Forall_forall _ _) Hpos), list_elem_of_fmap.
      by exists (k', v). }
    rewrite float_div_Ok, result_left_id by lra.
    rewrite float_pow_one, result_left_id by (by apply Rdiv_lt_0_compat).
    rewrite float_div_Ok; [done|].
    apply Rgt_not_eq, Rdiv_lt_0_compat; lra. }
  f_equal. rewrite <- list_fmap_compose. apply list_fmap_ext.
  intros i [k v] _. simpl. f_equal. field. lra.
Qed.
End DistributionFacts.

(** ** The state-and-exception monad *)

Section SearchFacts.
Context {Action State : Type} `{EqDecision Action} {RS : RandomSource}.
Local Abbreviation node := (MCTSNode Action State).
Local Abbreviation store := (store Action State).
Local Abbreviation M := (M Action State).

Lemma M_bind_Ok {A B : Type} (m : M A) (f : A → M B) (s : store) b s' :
  (m ≫= f) s = Ok (b, s') → ∃ a s1, m s = Ok (a, s1) ∧ f a s1 = Ok (b, s').
Proof.
  unfold mbind, M_bind. destruct (m s) as [[a s1]| |]; [eauto | done..].
Qed.

Lemma M_bind_run {A B : Type} (m : M A) (f : A → M B) (s : store) a s1 :
  m s = Ok (a, s1) → (m ≫= f) s = f a s1.
Proof. unfold mbind, M_bind. by intros ->. Qed.

Lemma M_ret_Ok {A : Type} (a b : A) (s s' : store) :
  (mret a : M A) s = Ok (b, s') → b = a ∧ s' = s.
Proof. by intros [= -> ->]. Qed.

Lemma lift_Ok {A : Type} (r : result A) (s : store) a s' :
  lift r s = Ok (a, s') → r = Ok a ∧ s' = s.
Proof. destruct r; simpl; [by intros [= -> ->] | done..]. Qed.

Lemma lift_run {A : Type} (r : result A) (s : store) a :
  r = Ok a → lift r s = Ok (a, s).
Proof. by intros ->. Qed.

Lemma load_Ok (r : ref) (s : store) n s' :
  load r s = Ok (n, s') → heap s !! r = Some n ∧ s' = s.
Proof. unfold load. destruct (heap s !! r); [by intros [= -> ->] | done]. Qed.

Lemma load_run (r : ref) (s : store) n :
  heap s !! r = Some n → load r s = Ok (n, s).
Proof. unfold load. by intros ->. Qed.

Lemma update_Ok (r : ref) (f : node → node) (s : store) u s' :
  update r f s = Ok (u, s') →
  ∃ n, heap s !! r = Some n ∧
       s' = {| heap := <[r := f n]> (heap s); rng := rng s |}.
Proof.
  unfold update. destruct (heap s !! r) as [n|]; [|done].
  intros [= _ <-]. eauto.
Qed.

Lemma update_run (r : ref) (f : node → node) (s : store) n :
  heap s !! r = Some n →
  update r f s = Ok (tt, {| heap := <[r := f n]> (heap s); rng := rng s |}).
Proof. unfold update. by intros ->. Qed.

Lemma read_only_bind {A B : Type} (m : M A) (f : A → M B) :
  read_only m → (∀ a, read_only (f a)) → read_only (m ≫= f).
Proof.
  intros Hm Hf s b s' (a & s1 & H1 & H2)%M_bind_Ok.
  rewrite (Hf _ _ _ _ H2). eauto.
Qed.

Lemma read_only_ret {A : Type} (a : A) : read_only (mret a : M A).
Proof. by intros s b s' [_ ->]%M_ret_Ok. Qed.

Lemma read_only_lift {A : Type} (r : result A) : read_only (lift r : M A).
Proof. by intros s b s' [_ ->]%lift_Ok. Qed.

Lemma read_only_load r : read_only (load r : M node).
Proof. by intros s b s' [_ ->]%load_Ok. Qed.

Lemma read_only_dirichlet alpha : read_only (np_random_dirichlet alpha : M _).
Proof. unfold np_random_dirichlet. by intros s b s' [= _ <-]. Qed.

Lemma read_only_mapM {A B : Type} (f : A → M B) (l : list A) :
  (∀ a, read_only (f a)) → read_only (mapM f l).
Proof.
  intros Hf. induction l as [|x l IH]; cbn [mapM].
  - apply read_only_ret.
  - apply read_only_bind; [done|]. intros y.
    apply read_only_bind; [done|]. intros k. apply read_only_ret.
Qed.

Lemma read_only_mix_dirichlet_noise {K : Type} (d : dict K R) epsilon alpha :
  read_only (mix_dirichlet_noise d epsilon alpha : M _).
Proof.
  apply read_only_bind; [apply read_only_dirichlet|].
  intros noise. apply read_only_ret.
Qed.

Lemma read_only_children_attr attr (n : node) :
  read_only (children_attr attr n).
Proof.
  apply read_only_mapM. intros [a c].
  apply read_only_bind; [apply read_only_load|].
  intros. apply read_only_ret.
Qed.

Lemma read_only_select_loop fuel c_puct epsilon alpha r nodes
    (actions : list Action) :
  read_only (select_loop fuel c_puct epsilon alpha r nodes actions : M _).
Proof.
  revert r nodes actions.
  induction fuel as [|fuel IH]; intros r nodes actions; cbn [select_loop];
    (apply read_only_bind; [apply read_only_load|]); intros n;
    (destruct (is_leaf n); [apply read_only_ret|]).
  - by intros s a s'.
  - repeat first
      [ apply read_only_children_attr
      | apply read_only_mix_dirichlet_noise
      | apply read_only_lift
      | apply IH
      | apply read_only_bind; [|intros ?] ].
Qed.

(** C7.  With [epsilon = 0] the mixed distribution is the given one, key for
    key and value for value, whatever sample the random source returns; the
    draw is made all the same: the generator moves on by one sample of the
    dimension of the distribution. *)
Theorem mix_dirichlet_noise_zero_epsilon {K : Type} (d : dict K R) (alpha : R)
    (s : store) :
  mix_dirichlet_noise d 0 alpha s
  = Ok (d, {| heap := heap s;
              rng := (dirichlet (replicate (length d) alpha) (rng s)).2 |}).
Proof.
  unfold mix_dirichlet_noise, np_random_dirichlet, mbind, M_bind, mret, M_ret.
  do 2 f_equal.
  pose proof (dirichlet_length (replicate (length d) alpha) (rng s)) as Hlen.
  rewrite length_replicate in Hlen.
  revert Hlen. generalize ((dirichlet (replicate (length d) alpha) (rng s)).1).
  induction d as [|[k v] d IH]; intros [|z noise] Hlen; try done.
  simpl. f_equal; [f_equal; lra|]. apply IH. by injection Hlen.
Qed.

(** C10.  Selection reads the tree and writes nothing: after [select], and
    after the noise mixing it performs, the heap is the heap it started from
    (so every field of every node, [prior_probs] included, is unchanged).
    [compute_ucb] is a function of its arguments and has no access to the
    heap at all. *)
Theorem select_read_only (fuel : nat) (starting_node : ref)
    (c_puct epsilon alpha : R) (s : store) path s' :
  select fuel starting_node c_puct epsilon alpha s = Ok (path, s') →
  heap s' = heap s ∧
  ∀ r n mixed s1,
    heap s !! r = Some n →
    mix_dirichlet_noise (prior_probs n) epsilon alpha s = Ok (mixed, s1) →
    heap s1 = heap s.
Proof.
  intros Hrun. split.
  - eapply read_only_select_loop, Hrun.
  - intros r n mixed s1 _ Hmix.
    eapply read_only_mix_dirichlet_noise, Hmix.
Qed.

(** ** Selection *)

Lemma children_attr_Ok attr (n : node) (s : store) d s' :
  children_attr attr n s = Ok (d, s') →
  children_view (heap s) attr n = Some d ∧ s' = s.
Proof.
  unfold children_attr, children_view. revert d.
  induction (children n) as [|[a c] l IH]; intros d; cbn [mapM].
  - by intros [-> ->]%M_ret_Ok.
  - intros (y & s1 & Hy & Hrest)%M_bind_Ok.
    apply M_bind_Ok in Hy as (cn & s2 & [Hc ->]%load_Ok & [-> ->]%M_ret_Ok).
    apply M_bind_Ok in Hrest as (k & s3 & Hk & [-> ->]%M_ret_Ok).
    apply IH in Hk as [Hk ->]. rewrite Hc. simpl. by rewrite Hk.
Qed.

Lemma children_attr_run attr (n : node) (s : store) d :
  children_view (heap s) attr n = Some d →
  children_attr attr n s = Ok (d, s).
Proof.
  unfold children_attr, children_view. revert d.
  induction (children n) as [|[a c] l IH]; intros d; cbn [mapM].
  - by intros [= <-].
  - destruct (heap s !! c) as [cn|] eqn:Hc; [|done]. simpl.
    destruct (mapM _ l) as [k|] eqn:Hk; [|done]. intros [= <-].
    erewrite M_bind_run; cycle 1.
    { erewrite M_bind_run by (by apply load_run). reflexivity. }
    erewrite M_bind_run by (by apply IH). reflexivity.
Qed.

Lemma mix_dirichlet_noise_Ok (n : node) epsilon alpha (s : store) d s' :
  mix_dirichlet_noise (prior_probs n) epsilon alpha s = Ok (d, s') →
  d = noisy_prior n epsilon alpha (rng s) ∧
  s' = {| heap := heap s; rng := after_draw n alpha (rng s) |}.
Proof.
  unfold mix_dirichlet_noise, np_random_dirichlet, mbind, M_bind, mret, M_ret.
  by intros [= <- <-].
Qed.

Lemma select_loop_selection fuel c_puct epsilon alpha r acc_nodes
    (acc_actions : list Action) (s : store) nodes actions s' :
  select_loop fuel c_puct epsilon alpha r acc_nodes acc_actions s
  = Ok ((nodes, actions), s') →
  ∃ path taken,
    nodes = acc_nodes ++ path ∧ actions = acc_actions ++ taken ∧
    selection (heap s) c_puct epsilon alpha (rng s) r (r :: path) taken (rng s').
Proof.
  revert r acc_nodes acc_actions s.
  induction fuel as [|fuel IH]; intros r acc_nodes acc_actions s;
    cbn [select_loop];
    intros (n & s1 & [Hn ->]%load_Ok & Hrun)%M_bind_Ok;
    destruct (is_leaf n) eqn:Hleaf.
  - apply M_ret_Ok in Hrun as [[= -> ->] ->].
    exists [], []. rewrite !app_nil_r. eauto using selection_leaf.
  - done.
  - apply M_ret_Ok in Hrun as [[= -> ->] ->].
    exists [], []. rewrite !app_nil_r. eauto using selection_leaf.
  - apply M_bind_Ok in Hrun as (qs & s1 & [Hqs ->]%children_attr_Ok & Hrun).
    apply M_bind_Ok in Hrun as (ns & s1 & [Hns ->]%children_attr_Ok & Hrun).
    apply M_bind_Ok in Hrun as (pr & s1 & [-> ->]%mix_dirichlet_noise_Ok & Hrun).
    apply M_bind_Ok in Hrun as (ucb & s1 & [Hucb ->]%lift_Ok & Hrun).
    apply M_bind_Ok in Hrun as (a & s1 & [Ha ->]%lift_Ok & Hrun).
    apply M_bind_Ok in Hrun as (c & s1 & [Hc ->]%lift_Ok & Hrun).
    apply IH in Hrun as (path & taken & -> & -> & Hsel). simpl in Hsel.
    exists (c :: path), (a :: taken).
    rewrite <- !app_assoc. split; [done|]. split; [done|].
    eapply selection_descend; try eassumption.
    unfold dict_item in Hc. by destruct (dict_get (children n) a) as [?|]; simplify_eq.
Qed.

Lemma selection_shape (h : list node) c_puct epsilon alpha g r nodes actions g' :
  selection h c_puct epsilon alpha g r nodes actions g' →
  length nodes = S (length actions) ∧
  g' = draws_along h alpha (removelast nodes) g.
Proof.
  induction 1 as [g r n Hn Hleaf
                 |g r n qs ns ucb a c nodes actions g' Hn Hleaf _ _ _ _ _ Hsel IH].
  - done.
  - destruct IH as [Hlen ->]. split; [simpl; by rewrite Hlen|].
    destruct nodes as [|r' nodes]; [done|].
    cbn [removelast draws_along]. by rewrite Hn.
Qed.

(** C8.  A successful [select] is a selection in the sense of the
    specification: at every node of the path that is not a leaf, the root or
    not, the prior that enters the PUCT scores is that node's own
    [prior_probs] mixed, with the caller's epsilon and alpha, with a sample
    drawn for that node from the generator state the previous draw left.  So
    one draw is made per action taken, and the generator ends in the state
    reached by drawing once for each node of the path but the last. *)
Theorem select_mixes_noise_at_every_node (fuel : nat) (starting_node : ref)
    (c_puct epsilon alpha : R) (s : store) nodes actions s' :
  select fuel starting_node c_puct epsilon alpha s = Ok ((nodes, actions), s') →
  selection (heap s) c_puct epsilon alpha (rng s) starting_node nodes actions
            (rng s') ∧
  length nodes = S (length actions) ∧
  rng s' = draws_along (heap s) alpha (removelast nodes) (rng s).
Proof.
  intros (path & taken & -> & -> & Hsel)%select_loop_selection.
  split; [done|]. by apply selection_shape in Hsel.
Qed.

(** ** Backup *)

Lemma backup_from_cons pp x rest values (s : store) :
  backup_from pp (x :: rest) values s =
  match heap s !! x with
  | Some n =>
      match backed_up pp values n with
      | Ok n' =>
          backup_from (Some (player n)) rest values
                      {| heap := <[x := n']> (heap s); rng := rng s |}
      | Raise e => Raise e
      | Stuck w => Stuck w
      end
  | None => Stuck DanglingRef
  end.
Proof.
  cbn [backup_from]. unfold mbind, M_bind, update, load, lift, backed_up.
  destruct (heap s !! x) as [n|] eqn:Hn; [|done].
  pose proof (lookup_lt_Some _ _ _ Hn) as Hlt.
  destruct pp as [p|]; cbn [heap rng];
    [destruct (negb (p =? 0)%Z);
     [destruct (dict_item values p) as [v| |]; [|done..]|]|].
  - cbn [heap rng mret M_ret].
    rewrite list_lookup_insert_eq by done.
    cbn [heap rng]. rewrite list_insert_insert_eq.
    rewrite list_lookup_insert_eq by done. cbn [mbind result_bind].
    destruct (float_div _ _) as [q| |]; [|done..].
    cbn [heap rng]. rewrite list_lookup_insert_eq by done.
    cbn [heap rng]. rewrite list_insert_insert_eq.
    by rewrite list_lookup_insert_eq by done.
  - cbn [heap rng mret M_ret]. by rewrite list_lookup_insert_eq by done.
  - cbn [heap rng mret M_ret]. by rewrite list_lookup_insert_eq by done.
Qed.

Lemma backed_up_same_position pp values (n n' : node) :
  backed_up pp values n = Ok n' → same_position n n' ∧ N n' = N n + 1.
Proof.
  unfold backed_up, same_position.
  destruct pp as [p|]; [destruct (negb (p =? 0)%Z)|];
    [|by intros [= <-]..].
  destruct (dict_item values p) as [v| |]; [|done..]. cbn [mbind result_bind].
  destruct (float_div _ _) as [q| |]; [|done..]. by intros [= <-].
Qed.

Lemma same_position_refl (n : node) : same_position n n.
Proof. by unfold same_position. Qed.

Lemma same_position_trans (n1 n2 n3 : node) :
  same_position n1 n2 → same_position n2 n3 → same_position n1 n3.
Proof. unfold same_position. intuition congruence. Qed.

(** [backup] touches the statistics of the nodes of the path and nothing
    else. *)
Lemma backup_from_frame pp path values (s : store) u s' :
  backup_from pp path values s = Ok (u, s') →
  rng s' = rng s ∧ length (heap s') = length (heap s) ∧
  (∀ x, x ∉ path → heap s' !! x = heap s !! x) ∧
  (∀ x n, heap s !! x = Some n →
          ∃ n', heap s' !! x = Some n' ∧ same_position n n').
Proof.
  revert pp s. induction path as [|y path IH]; intros pp s.
  - intros [_ ->]%M_ret_Ok. eauto 10 using same_position_refl.
  - rewrite backup_from_cons.
    destruct (heap s !! y) as [ny|] eqn:Hy; [|done].
    destruct (backed_up pp values ny) as [ny'| |] eqn:Hup; [|done..].
    intros (Hrng & Hlen & Hout & Hpos)%IH. cbn [heap rng] in *.
    rewrite length_insert in Hlen.
    apply backed_up_same_position in Hup as [Hsame _].
    split; [done|]. split; [done|]. split.
    + intros x [Hxy Hx]%not_elem_of_cons.
      rewrite Hout by done. by rewrite list_lookup_insert_ne.
    + intros x n Hx. destruct (decide (x = y)) as [->|Hne].
      * destruct (Hpos y ny') as (n' & Hn' & Hsame').
        { apply list_lookup_insert_eq. eauto using lookup_lt_Some. }
        exists n'. split; [done|]. simplify_eq.
        eauto using same_position_trans.
      * apply Hpos. by rewrite list_lookup_insert_ne.
Qed.

(** Along a path without repetition, every node on it is visited once. *)
Lemma backup_from_visits pp path values (s : store) u s' :
  NoDup path →
  backup_from pp path values s = Ok (u, s') →
  ∀ x, x ∈ path → visit_count (heap s') x = visit_count (heap s) x + 1.
Proof.
  revert pp s. induction path as [|y path IH]; intros pp s Hnd;
    [by intros _ x ?%elem_of_nil|].
  apply NoDup_cons in Hnd as [Hy Hnd]. rewrite backup_from_cons.
  destruct (heap s !! y) as [ny|] eqn:Hny; [|done].
  destruct (backed_up pp values ny) as [ny'| |] eqn:Hup; [|done..].
  intros Hrun x Hx. unfold visit_count.
  apply backed_up_same_position in Hup as [_ HN].
  pose proof (lookup_lt_Some _ _ _ Hny) as Hlt.
  destruct (decide (x = y)) as [->|Hne].
  - apply backup_from_frame in Hrun as (_ & _ & Hout & _).
    rewrite Hout by done. cbn [heap].
    by rewrite list_lookup_insert_eq, Hny.
  - apply elem_of_cons in Hx as [?|Hx]; [done|].
    pose proof (IH _ _ Hnd Hrun x Hx) as Hvis. unfold visit_count in Hvis.
    cbn [heap] in Hvis. by rewrite list_lookup_insert_ne in Hvis.
Qed.

(** ** Expansion *)

Ltac invert_run :=
  repeat match goal with
  | H : (_ ≫= _) _ = Ok _ |- _ => apply M_bind_Ok in H as (? & ? & ? & ?)
  | H : mret _ _ = Ok _ |- _ => apply M_ret_Ok in H as [? ?]
  | H : lift _ _ = Ok _ |- _ => apply lift_Ok in H as [? ?]
  | H : load _ _ = Ok _ |- _ => apply load_Ok in H as [? ?]
  | H : update _ _ _ = Ok _ |- _ => apply update_Ok in H as (? & ? & ?)
  | H : _ ∧ _ |- _ => destruct H
  end.

Lemma new_children_Ok (child_states : dict Action State)
    (child_players : dict Action Z) (child_terminals : dict Action bool)
    keys (s : store) kids s' :
  mapM (fun action =>
          st ← lift (dict_item child_states action);
          pl ← lift (dict_item child_players action);
          tm ← lift (dict_item child_terminals action);
          child ← new_node (MCTSNode_init st pl tm);
          mret (action, child)) keys s = Ok (kids, s') →
  ∃ fresh,
    heap s' = heap s ++ fresh ∧ rng s' = rng s ∧
    kids.*1 = keys ∧ kids.*2 = seq (length (heap s)) (length keys) ∧
    length fresh = length keys ∧ Forall fresh_node fresh.
Proof.
  revert s kids. induction keys as [|k keys IH]; intros s kids; cbn [mapM].
  - intros [-> ->]%M_ret_Ok. exists []. by rewrite app_nil_r.
  - intros Hrun. invert_run. subst.
    match goal with
    | H : new_node _ _ = Ok _ |- _ => unfold new_node in H; injection H as <- <-
    end.
    match goal with
    | H : mapM _ _ _ = Ok _ |- _ =>
        apply IH in H as (fresh & Hheap & Hrng & Hk1 & Hk2 & Hlen & Hfresh)
    end.
    cbn [heap rng] in *. eexists (_ :: fresh).
    rewrite Hheap, <- app_assoc. split; [reflexivity|]. split; [done|].
    rewrite !fmap_cons, Hk1, Hk2, length_app. cbn [fst snd length seq].
    replace (length (heap s) + 1)%nat with (S (length (heap s))) by lia.
    split; [done|]. split; [done|]. split; [by rewrite Hlen|].
    constructor; [|done]. by unfold fresh_node.
Qed.

Lemma expand_Ok self prior (child_states : dict Action State) child_players
    child_terminals (s : store) u s' :
  expand self prior child_states child_players child_terminals s = Ok (u, s') →
  ∃ n kids fresh,
    heap s !! self = Some n ∧ is_leaf n = true ∧
    heap s' = <[self := set_children kids (set_prior_probs prior n)]> (heap s)
              ++ fresh ∧
    rng s' = rng s ∧
    kids.*1 = dict_keys child_states ∧
    kids.*2 = seq (length (heap s)) (length child_states) ∧
    length fresh = length child_states ∧ Forall fresh_node fresh.
Proof.
  unfold expand. intros (n & s1 & [Hn ->]%load_Ok & Hrun)%M_bind_Ok.
  destruct (is_leaf n) eqn:Hleaf; [|done].
  apply M_bind_Ok in Hrun as (? & s1 & (n1 & Hn1 & ->)%update_Ok & Hrun).
  apply M_bind_Ok in Hrun as (kids & s2 & Hkids & (n2 & Hn2 & ->)%update_Ok).
  apply new_children_Ok in Hkids
    as (fresh & Hheap & Hrng & Hk1 & Hk2 & Hlen & Hfresh).
  cbn [heap rng] in *. assert (n1 = n) as -> by congruence.
  pose proof (lookup_lt_Some _ _ _ Hn) as Hlt.
  rewrite length_insert in Hk2. unfold dict_keys in *.
  rewrite length_fmap in Hk2, Hlen.
  rewrite Hheap in Hn2 |- *.
  rewrite lookup_app_l, list_lookup_insert_eq in Hn2
    by (rewrite ?length_insert; done).
  injection Hn2 as <-.
  rewrite insert_app_l, list_insert_insert_eq by (by rewrite length_insert).
  eauto 12.
Qed.

(** ** The shape of a selected path *)

Lemma dict_get_child_ref (n : node) a c :
  dict_get (children n) a = Some c → c ∈ child_refs n.
Proof. apply dict_get_value. Qed.

Lemma selection_last (h : list node) c_puct epsilon alpha g r nodes actions g' :
  selection h c_puct epsilon alpha g r nodes actions g' →
  ∃ rest leaf n,
    nodes = r :: rest ∧ last nodes = Some leaf ∧
    h !! leaf = Some n ∧ is_leaf n = true.
Proof.
  induction 1 as [g r n Hn Hleaf
                 |g r n qs ns ucb a c nodes actions g' Hn Hleaf _ _ _ _ _ _ IH].
  - exists [], r, n. done.
  - destruct IH as (rest & leaf & m & -> & Hlast & Hm & Hl).
    exists (c :: rest), leaf, m. done.
Qed.

Lemma selection_below base root (h : list node) m c_puct epsilon alpha
    g i nodes actions g' :
  search_tree base root h →
  h !! root = Some m →
  selection h c_puct epsilon alpha g i nodes actions g' →
  (base ≤ i)%nat →
  ∃ rest,
    nodes = i :: rest ∧
    Forall (fun x => (i < x < length h)%nat ∧ x ∉ child_refs m) rest ∧
    NoDup nodes.
Proof.
  intros Htree Hm.
  induction 1 as [g r n Hn Hleaf
                 |g r n qs ns ucb a c nodes actions g' Hn Hleaf _ _ _ _ Hc _ IH];
    intros Hbase.
  - exists []. split; [done|]. split; [done|]. apply NoDup_singleton.
  - pose proof (st_below _ _ _ Htree r n m Hbase Hn Hm) as Hkids.
    apply dict_get_child_ref in Hc.
    pose proof (proj1 (Forall_forall _ _) Hkids c Hc) as [Hrc Hcm].
    destruct IH as (rest & -> & Hrest & Hnd); [lia|].
    exists (c :: rest). split; [done|].
    assert (Forall (fun x => (r < x < length h)%nat ∧ x ∉ child_refs m)
                   (c :: rest)) as Hall.
    { constructor; [done|]. eapply Forall_impl; [exact Hrest|].
      simpl. intros x [? ?]. split; [lia|done]. }
    split; [done|]. apply NoDup_cons. split; [|done].
    intros Hin. apply (proj1 (Forall_forall _ _) Hall) in Hin. lia.
Qed.

Lemma selection_descend_inv (h : list node) c_puct epsilon alpha g r n
    nodes actions g' :
  selection h c_puct epsilon alpha g r nodes actions g' →
  h !! r = Some n →
  is_leaf n = false →
  ∃ a c nodes' actions',
    nodes = r :: nodes' ∧ dict_get (children n) a = Some c ∧
    selection h c_puct epsilon alpha (after_draw n alpha g) c nodes' actions' g'.
Proof.
  destruct 1; intros; simplify_eq; [congruence|]. eauto 10.
Qed.

Lemma selection_from_root base root (h : list node) m c_puct epsilon alpha
    g nodes actions g' :
  search_tree base root h →
  h !! root = Some m →
  is_leaf m = false →
  selection h c_puct epsilon alpha g root nodes actions g' →
  ∃ c rest,
    nodes = root :: c :: rest ∧ c ∈ child_refs m ∧
    Forall (fun x => (base ≤ x < length h)%nat ∧ x ∉ child_refs m) rest ∧
    NoDup nodes.
Proof.
  intros Htree Hm Hleaf Hsel.
  destruct (selection_descend_inv _ _ _ _ _ _ _ _ _ _ Hsel Hm Hleaf)
    as (a & c & nodes' & actions' & -> & Hc & Hrest).
  apply dict_get_child_ref in Hc.
  destruct (st_root_children _ _ _ Htree m Hm) as [_ Hrange].
  pose proof (proj1 (Forall_forall _ _) Hrange c Hc) as Hcr. simpl in Hcr.
  pose proof (st_root _ _ _ Htree) as Hroot.
  destruct (selection_below _ _ _ _ _ _ _ _ _ _ _ _ Htree Hm Hrest)
    as (rest & -> & Hall & Hnd); [lia|].
  exists c, rest. split; [done|]. split; [done|]. split.
  - eapply Forall_impl; [exact Hall|]. simpl. intros x [? ?]. split; [lia|done].
  - apply NoDup_cons. split; [|done].
    intros [->|Hin]%elem_of_cons; [lia|].
    apply (proj1 (Forall_forall _ _) Hall) in Hin. lia.
Qed.

(** ** One iteration of the search *)

Lemma mcts_iteration_Ok fuel root (game : Game.t Action State) estimator
    c_puct epsilon alpha (s : store) u s' :
  mcts_iteration fuel root game estimator c_puct epsilon alpha s = Ok (u, s') →
  ∃ nodes actions g1 leaf_ref leaf values s2,
    selection (heap s) c_puct epsilon alpha (rng s) root nodes actions g1 ∧
    last nodes = Some leaf_ref ∧ heap s !! leaf_ref = Some leaf ∧
    is_leaf leaf = true ∧
    ((is_terminal leaf = true ∧ heap s2 = heap s) ∨
     (is_terminal leaf = false ∧
      ∃ prior child_states kids fresh,
        Game.legal_actions game (game_state leaf) = inr child_states ∧
        heap s2 = <[leaf_ref := set_children kids (set_prior_probs prior leaf)]>
                    (heap s) ++ fresh ∧
        kids.*1 = dict_keys child_states ∧
        kids.*2 = seq (length (heap s)) (length child_states) ∧
        length fresh = length child_states ∧ Forall fresh_node fresh)) ∧
    backup nodes values s2 = Ok (u, s').
Proof.
  unfold mcts_iteration.
  intros ([nodes actions] & s1 & Hsel & Hrun)%M_bind_Ok.
  pose proof (read_only_select_loop _ _ _ _ _ _ _ _ _ _ Hsel) as Hheap.
  apply select_loop_selection in Hsel
    as (path & taken & Hnodes & Hactions & Hsel).
  simpl in Hnodes, Hactions. subst nodes actions.
  apply M_bind_Ok in Hrun as (leaf_ref & ? & [Hlast ->]%lift_Ok & Hrun).
  apply M_bind_Ok in Hrun as (leaf & ? & [Hleaf ->]%load_Ok & Hrun).
  apply M_bind_Ok in Hrun as (values & s2 & Hvalues & Hrun).
  unfold last_item in Hlast.
  destruct (last (root :: path)) as [l|] eqn:Hl; [|done].
  injection Hlast as ->. rewrite Hheap in Hleaf.
  destruct (selection_last _ _ _ _ _ _ _ _ _ Hsel)
    as (rest & leaf' & n' & _ & Hlast' & Hn' & Hleaf').
  assert (leaf' = leaf_ref) as -> by congruence.
  assert (n' = leaf) as -> by congruence.
  exists (root :: path), taken, (rng s1), leaf_ref, leaf, values, s2.
  do 4 (split; [done|]). split; [|done].
  destruct (is_terminal leaf); cbn [negb] in Hvalues.
  - left. apply lift_Ok in Hvalues as [_ ->]. done.
  - right. split; [done|].
    apply M_bind_Ok in Hvalues as ([prior value] & ? & [_ ->]%lift_Ok & Hvalues).
    apply M_bind_Ok in Hvalues as (child_states & ? & [Hcs ->]%lift_Ok & Hvalues).
    apply M_bind_Ok in Hvalues as (prior' & ? & [_ ->]%lift_Ok & Hvalues).
    apply M_bind_Ok in Hvalues as (? & s3 & Hexp & [_ ->]%M_ret_Ok).
    apply expand_Ok in Hexp
      as (n & kids & fresh & Hn & _ & Hh & _ & Hk1 & Hk2 & Hlen & Hfresh).
    rewrite Hheap in Hn, Hh, Hk2. assert (n = leaf) as -> by congruence.
    exists prior', child_states, kids, fresh.
    split; [|done].
    by destruct (Game.legal_actions game (game_state leaf)); simplify_eq/=.
Qed.

(** ** Visit counts *)

Lemma sum_visits_ext (h h' : list node) refs :
  (∀ x, x ∈ refs → visit_count h' x = visit_count h x) →
  sum_visits h' refs = sum_visits h refs.
Proof.
  intros Hext. unfold sum_visits. f_equal.
  apply list_fmap_ext. intros i x Hx. apply Hext.
  by eapply list_elem_of_lookup_2.
Qed.

Lemma sum_visits_cons (h : list node) x refs :
  sum_visits h (x :: refs) = visit_count h x + sum_visits h refs.
Proof. unfold sum_visits. by rewrite fmap_cons, py_sum_cons. Qed.

Lemma sum_visits_bump (h h' : list node) refs c :
  NoDup refs → c ∈ refs →
  visit_count h' c = visit_count h c + 1 →
  (∀ x, x ∈ refs → x ≠ c → visit_count h' x = visit_count h x) →
  sum_visits h' refs = sum_visits h refs + 1.
Proof.
  intros Hnd Hc Hbump Hrest.
  induction refs as [|y refs IH]; [by apply elem_of_nil in Hc|].
  apply NoDup_cons in Hnd as [Hy Hnd]. rewrite !sum_visits_cons.
  destruct (decide (y = c)) as [->|Hne].
  - rewrite Hbump.
    rewrite (sum_visits_ext h h' refs); [lra|].
    intros x Hx. apply Hrest; [by right|]. by intros ->.
  - apply elem_of_cons in Hc as [?|Hc]; [done|].
    rewrite (Hrest y) by (done || by left).
    rewrite IH; [lra|done..|]. intros x Hx. apply Hrest. by right.
Qed.

Lemma sum_visits_fresh (h : list node) refs :
  (∀ x n, x ∈ refs → h !! x = Some n → N n = 0) →
  sum_visits h refs = 0.
Proof.
  intros Hfresh. unfold sum_visits. apply py_sum_zero, Forall_forall.
  intros v (x & -> & Hx)%list_elem_of_fmap. unfold visit_count.
  destruct (h !! x) eqn:Hhx; [by eapply Hfresh | done].
Qed.

(** ** The search tree is preserved *)

Lemma search_tree_same_position base root (h h' : list node) :
  length h' = length h →
  (∀ x n, h !! x = Some n → ∃ n', h' !! x = Some n' ∧ same_position n n') →
  search_tree base root h → search_tree base root h'.
Proof.
  intros Hlen Hpos [Hroot Hkids Hbelow].
  assert (∀ x n', h' !! x = Some n' →
                  ∃ n, h !! x = Some n ∧ child_refs n' = child_refs n) as Hback.
  { intros x n' Hx. destruct (h !! x) as [n|] eqn:Hhx.
    - destruct (Hpos x n Hhx) as (n'' & Hn'' & Hsame & _).
      exists n. split; [done|]. unfold child_refs. congruence.
    - apply lookup_ge_None in Hhx. apply lookup_lt_Some in Hx. lia. }
  split.
  - lia.
  - intros n' (n & Hn & Heq)%Hback. rewrite Heq, Hlen. eauto.
  - intros i n' m' Hi (n & Hn & Heqn)%Hback (m & Hm & Heqm)%Hback.
    rewrite Heqn, Heqm, Hlen. eauto.
Qed.

Lemma search_tree_expand base root (h : list node) leaf_ref leaf kids prior fresh :
  search_tree base root h →
  (base ≤ leaf_ref)%nat →
  h !! leaf_ref = Some leaf →
  kids.*2 = seq (length h) (length fresh) →
  Forall fresh_node fresh →
  search_tree base root
    (<[leaf_ref := set_children kids (set_prior_probs prior leaf)]> h ++ fresh).
Proof.
  intros [Hroot Hkids Hbelow] Hbase Hleaf Hrefs Hfresh.
  pose proof (lookup_lt_Some _ _ _ Hleaf) as Hlt.
  assert (∀ m', (<[leaf_ref := set_children kids (set_prior_probs prior leaf)]> h
                 ++ fresh) !! root = Some m' → h !! root = Some m') as Hrootback.
  { intros m'. rewrite lookup_app_l by (rewrite length_insert; lia).
    rewrite list_lookup_insert_ne by lia. done. }
  split.
  - rewrite length_app, length_insert. lia.
  - intros m' Hm'%Hrootback. destruct (Hkids m' Hm') as [Hnd Hrange].
    split; [done|]. eapply Forall_impl; [exact Hrange|]. simpl.
    intros c ?. rewrite length_app, length_insert. lia.
  - intros i n' m' Hi Hn' Hm'%Hrootback.
    destruct (Hkids m' Hm') as [_ Hrange].
    rewrite length_app, length_insert.
    destruct (decide (i < length h)%nat) as [Hih|Hih].
    + rewrite lookup_app_l in Hn' by (by rewrite length_insert).
      destruct (decide (i = leaf_ref)) as [->|Hne].
      * rewrite list_lookup_insert_eq in Hn' by done. injection Hn' as <-.
        change (child_refs (set_children kids (set_prior_probs prior leaf)))
          with (kids.*2).
        rewrite Hrefs.
        apply Forall_forall. intros c [Hc1 Hc2]%elem_of_seq. split; [lia|].
        intros Hin. apply (proj1 (Forall_forall _ _) Hrange) in Hin. lia.
      * rewrite list_lookup_insert_ne in Hn' by done.
        eapply Forall_impl; [exact (Hbelow i n' m' Hi Hn' Hm')|]. simpl.
        intros c [? ?]. split; [lia|done].
    + rewrite lookup_app_r in Hn' by (rewrite length_insert; lia).
      apply list_elem_of_lookup_2 in Hn'.
      apply (proj1 (Forall_forall _ _) Hfresh) in Hn' as (_ & _ & _ & Hch & _).
      replace (child_refs n') with (@nil ref)
        by (unfold child_refs; by rewrite Hch).
      constructor.
Qed.

Lemma is_leaf_same_position (n n' : node) :
  same_position n n' → is_leaf n' = is_leaf n.
Proof. intros (Hch & _). unfold is_leaf. by rewrite Hch. Qed.

Lemma child_refs_same_position (n n' : node) :
  same_position n n' → child_refs n' = child_refs n.
Proof. intros (Hch & _). unfold child_refs. by rewrite Hch. Qed.

(** An iteration on a root that has children visits the root and exactly one
    of its children. *)
Lemma searched_step fuel root (game : Game.t Action State) estimator
    c_puct epsilon alpha base k (s : store) u s' :
  searched base root k (heap s) →
  mcts_iteration fuel root game estimator c_puct epsilon alpha s = Ok (u, s') →
  searched base root (S k) (heap s').
Proof.
  intros [Htree (n & Hn & Hleaf & HN & Hsum)] Hrun.
  apply mcts_iteration_Ok in Hrun
    as (nodes & actions & g1 & leaf_ref & leaf & values & s2
        & Hsel & Hlast & Hlf & _ & Hcase & Hbk).
  destruct (selection_from_root _ _ _ _ _ _ _ _ _ _ _ Htree Hn Hleaf Hsel)
    as (c & rest & -> & Hc & Hrest & Hnd).
  destruct (st_root_children _ _ _ Htree n Hn) as [Hcs_nd Hcs_range].
  pose proof (st_root _ _ _ Htree) as Hroot.
  pose proof (proj1 (Forall_forall _ _) Hcs_range) as Hcs. simpl in Hcs.
  pose proof (proj1 (Forall_forall _ _) Hrest) as Hrest'. simpl in Hrest'.
  assert (base ≤ leaf_ref < length (heap s))%nat as Hlfr.
  { rewrite last_cons_cons in Hlast.
    apply last_Some_elem_of, elem_of_cons in Hlast as [->|Hin].
    - by apply Hcs.
    - by apply Hrest'. }
  assert (search_tree base root (heap s2) ∧ heap s2 !! root = Some n ∧
          ∀ x, (x < length (heap s))%nat →
               visit_count (heap s2) x = visit_count (heap s) x)
    as (Htree2 & Hn2 & Hvis2).
  { destruct Hcase as [[_ ->]
                      |(_ & prior & cs & kids & fresh & _ & -> & _ & Hk2 & Hlen & Hfresh)];
      [done|].
    split; [|split].
    - apply search_tree_expand; try done; [lia|by rewrite Hlen].
    - rewrite lookup_app_l by (rewrite length_insert; lia).
      by rewrite list_lookup_insert_ne by lia.
    - intros x Hx. unfold visit_count.
      rewrite lookup_app_l by (by rewrite length_insert).
      destruct (decide (x = leaf_ref)) as [->|Hne].
      + rewrite list_lookup_insert_eq by done. by rewrite Hlf.
      + by rewrite list_lookup_insert_ne by done. }
  unfold backup in Hbk.
  pose proof (backup_from_frame _ _ _ _ _ _ Hbk) as (_ & Hlen & Hout & Hpos).
  pose proof (backup_from_visits _ _ _ _ _ _ Hnd Hbk) as Hvis.
  destruct (Hpos root n Hn2) as (n' & Hn' & Hsame).
  split; [by eapply search_tree_same_position|].
  exists n'. split; [done|]. split; [by rewrite (is_leaf_same_position n)|].
  split.
  - pose proof (Hvis root ltac:(by left)) as Hr. unfold visit_count in Hr.
    rewrite Hn', Hn2 in Hr. rewrite S_INR. lra.
  - rewrite (child_refs_same_position n) by done.
    rewrite (sum_visits_bump (heap s2) _ _ c); try done.
    + rewrite (sum_visits_ext (heap s)); [rewrite S_INR; lra|].
      intros x Hx. apply Hvis2. by apply Hcs.
    + apply Hvis. right. by left.
    + intros x Hx Hxc. unfold visit_count. rewrite Hout; [done|].
      intros [->|[->|Hin]%elem_of_cons]%elem_of_cons; [|done|].
      * apply Hcs in Hx. lia.
      * by apply Hrest' in Hin as [_ ?].
Qed.

Lemma selection_leaf_inv (h : list node) c_puct epsilon alpha g r n
    nodes actions g' :
  selection h c_puct epsilon alpha g r nodes actions g' →
  h !! r = Some n →
  is_leaf n = true →
  nodes = [r] ∧ actions = [] ∧ g' = g.
Proof. destruct 1; intros; simplify_eq; [done|congruence]. Qed.

Lemma is_leaf_true (n : node) : is_leaf n = true ↔ children n = [].
Proof.
  unfold is_leaf. rewrite bool_decide_eq_true. apply length_zero_iff_nil.
Qed.

(** An iteration on a leaf root: the path is the root alone. *)
Lemma leaf_root_iteration fuel root (game : Game.t Action State) estimator
    c_puct epsilon alpha (s : store) n0 u s' :
  heap s !! root = Some n0 →
  is_leaf n0 = true →
  is_terminal n0 = false →
  mcts_iteration fuel root game estimator c_puct epsilon alpha s = Ok (u, s') →
  ∃ prior child_states kids fresh values,
    Game.legal_actions game (game_state n0) = inr child_states ∧
    kids.*1 = dict_keys child_states ∧
    kids.*2 = seq (length (heap s)) (length child_states) ∧
    length fresh = length child_states ∧ Forall fresh_node fresh ∧
    backup [root] values
      {| heap := <[root := set_children kids (set_prior_probs prior n0)]> (heap s)
                 ++ fresh;
         rng := rng s' |} = Ok (u, s').
Proof.
  intros Hn0 Hleaf Hterm Hrun.
  apply mcts_iteration_Ok in Hrun
    as (nodes & actions & g1 & leaf_ref & leaf & values & s2
        & Hsel & Hlast & Hlf & _ & Hcase & Hbk).
  destruct (selection_leaf_inv _ _ _ _ _ _ _ _ _ _ Hsel Hn0 Hleaf)
    as (-> & -> & ->).
  injection Hlast as <-. assert (leaf = n0) as -> by congruence.
  destruct Hcase as [[? _]|(_ & prior & cs & kids & fresh & Hcs & Hh & Hk1 & Hk2
                            & Hlen & Hfresh)]; [congruence|].
  exists prior, cs, kids, fresh, values. do 5 (split; [done|]).
  pose proof (backup_from_frame _ _ _ _ _ _ Hbk) as (Hrng & _).
  rewrite Hrng, <- Hh. by destruct s2.
Qed.

Lemma barren_step fuel root (game : Game.t Action State) estimator
    c_puct epsilon alpha (s : store) u s' :
  barren game root (heap s) →
  mcts_iteration fuel root game estimator c_puct epsilon alpha s = Ok (u, s') →
  barren game root (heap s').
Proof.
  intros (n0 & Hn0 & Hleaf & Hterm & Hlegal) Hrun.
  destruct (leaf_root_iteration _ _ _ _ _ _ _ _ _ _ _ Hn0 Hleaf Hterm Hrun)
    as (prior & cs & kids & fresh & values & Hcs & Hk1 & _ & _ & _ & Hbk).
  assert (cs = []) as -> by congruence.
  apply fmap_nil_inv in Hk1 as ->.
  apply backup_from_frame in Hbk as (_ & _ & _ & Hpos). cbn [heap] in Hpos.
  pose proof (lookup_lt_Some _ _ _ Hn0) as Hlt.
  edestruct Hpos as (n' & Hn' & Hsame).
  { rewrite lookup_app_l by (by rewrite length_insert).
    by apply list_lookup_insert_eq. }
  exists n'. split; [done|].
  rewrite (is_leaf_same_position _ _ Hsame).
  destruct Hsame as (_ & _ & -> & -> & _). done.
Qed.

Lemma first_iteration_searched fuel root (game : Game.t Action State) estimator
    c_puct epsilon alpha (s : store) n0 child_states u s' :
  heap s !! root = Some n0 →
  is_leaf n0 = true →
  N n0 = 0 →
  is_terminal n0 = false →
  Game.legal_actions game (game_state n0) = inr child_states →
  child_states ≠ [] →
  mcts_iteration fuel root game estimator c_puct epsilon alpha s = Ok (u, s') →
  searched (length (heap s)) root 1 (heap s').
Proof.
  intros Hn0 Hleaf HN Hterm Hlegal Hne Hrun.
  destruct (leaf_root_iteration _ _ _ _ _ _ _ _ _ _ _ Hn0 Hleaf Hterm Hrun)
    as (prior & cs & kids & fresh & values & Hcs & Hk1 & Hk2 & Hlen & Hfresh & Hbk).
  assert (cs = child_states) as -> by congruence.
  pose proof (lookup_lt_Some _ _ _ Hn0) as Hlt.
  set (root' := set_children kids (set_prior_probs prior n0)) in *.
  set (h2 := <[root := root']> (heap s) ++ fresh) in *.
  assert (h2 !! root = Some root') as Hroot2.
  { unfold h2. rewrite lookup_app_l by (by rewrite length_insert).
    by apply list_lookup_insert_eq. }
  assert (length h2 = (length (heap s) + length child_states)%nat) as Hlen2.
  { unfold h2. by rewrite length_app, length_insert, Hlen. }
  assert (∀ x n, (length (heap s) ≤ x)%nat → h2 !! x = Some n → fresh_node n)
    as Hnew.
  { intros x n Hx. unfold h2.
    rewrite lookup_app_r by (by rewrite length_insert).
    intros Hin%list_elem_of_lookup_2.
    by apply (proj1 (Forall_forall _ _) Hfresh). }
  assert (search_tree (length (heap s)) root h2) as Htree2.
  { split.
    - lia.
    - intros m Hm. assert (m = root') as -> by congruence.
      change (child_refs root') with (kids.*2). rewrite Hk2.
      split; [apply NoDup_seq|]. apply Forall_forall.
      intros c [? ?]%elem_of_seq. lia.
    - intros i n m Hi Hn _. apply Hnew in Hn as (_ & _ & _ & Hch & _); [|done].
      replace (child_refs n) with (@nil ref)
        by (unfold child_refs; by rewrite Hch).
      constructor. }
  unfold backup in Hbk.
  pose proof (backup_from_frame _ _ _ _ _ _ Hbk) as (_ & Hlen' & Hout & Hpos).
  pose proof (backup_from_visits _ _ _ _ _ _ (NoDup_singleton root) Hbk root
                ltac:(by left)) as Hvis.
  cbn [heap] in *. destruct (Hpos root root' Hroot2) as (n' & Hn' & Hsame).
  split; [by eapply search_tree_same_position|].
  exists n'. split; [done|]. split; [|split].
  - rewrite (is_leaf_same_position _ _ Hsame).
    apply not_true_is_false. rewrite is_leaf_true.
    change (children root') with kids. intros ->.
    unfold dict_keys in Hk1. by destruct child_states.
  - unfold visit_count in Hvis. rewrite Hn', Hroot2 in Hvis.
    change (N root') with (N n0) in Hvis. rewrite INR_1. lra.
  - rewrite INR_1, (child_refs_same_position _ _ Hsame).
    change (child_refs root') with (kids.*2). rewrite Hk2.
    rewrite sum_visits_fresh; [lra|].
    intros x n [Hx1 Hx2]%elem_of_seq Hn.
    rewrite Hout in Hn by (intros ?%list_elem_of_singleton; lia).
    by apply Hnew in Hn as (_ & _ & ? & _).
Qed.

(** ** The loop of the driver *)

Lemma mcts_loop_searched base root k j (body : M unit) (s : store) u s' :
  (∀ i s1 u1 s2, searched base root i (heap s1) → body s1 = Ok (u1, s2) →
                 searched base root (S i) (heap s2)) →
  searched base root j (heap s) →
  mcts_loop k body s = Ok (u, s') →
  searched base root (j + k) (heap s').
Proof.
  intros Hstep. revert j s.
  induction k as [|k IH]; intros j s Hj; cbn [mcts_loop].
  - intros [_ ->]%M_ret_Ok. by rewrite Nat.add_0_r.
  - intros (u1 & s1 & Hbody & Hrest)%M_bind_Ok.
    replace (j + S k)%nat with (S j + k)%nat by lia. eauto.
Qed.

Lemma mcts_loop_barren (game : Game.t Action State) root k (body : M unit)
    (s : store) u s' :
  (∀ s1 u1 s2, barren game root (heap s1) → body s1 = Ok (u1, s2) →
               barren game root (heap s2)) →
  barren game root (heap s) →
  mcts_loop k body s = Ok (u, s') →
  barren game root (heap s').
Proof.
  intros Hstep. revert s.
  induction k as [|k IH]; intros s Hs; cbn [mcts_loop].
  - by intros [_ ->]%M_ret_Ok.
  - intros (u1 & s1 & Hbody & Hrest)%M_bind_Ok. eauto.
Qed.

Lemma mcts_Ok fuel root (game : Game.t Action State) estimator iters
    c_puct tau epsilon alpha (s : store) dist s' :
  mcts fuel root game estimator iters c_puct tau epsilon alpha s
  = Ok (dist, s') →
  ∃ n counts,
    mcts_loop (Z.to_nat iters)
      (mcts_iteration fuel root game estimator c_puct epsilon alpha) s
    = Ok (tt, s') ∧
    heap s' !! root = Some n ∧
    children_view (heap s') N n = Some counts ∧
    extremise_distribution counts tau = Ok dist.
Proof.
  unfold mcts. intros ([] & s1 & Hloop & Hrest)%M_bind_Ok.
  apply M_bind_Ok in Hrest as (n & ? & [Hn ->]%load_Ok & Hrest).
  apply M_bind_Ok in Hrest as (counts & ? & [Hcounts ->]%children_attr_Ok & Hrest).
  apply lift_Ok in Hrest as [Hdist ->]. by exists n, counts.
Qed.

(** C2.  A search that starts at a fresh, non-terminal root (visit count 0,
    no children), runs [iterations >= 1] iterations and returns, leaves the
    root with visit count [iterations]; the children of the root are then
    nodes of the heap whose visit counts add up to [iterations - 1]. *)
Theorem mcts_visit_counts (fuel : nat) (root : ref)
    (game : Game.t Action State) estimator (iterations : Z)
    (c_puct tau epsilon alpha : R) (s : store) n0 dist s' :
  heap s !! root = Some n0 →
  N n0 = 0 →
  children n0 = [] →
  is_terminal n0 = false →
  (1 ≤ iterations)%Z →
  mcts fuel root game estimator iterations c_puct tau epsilon alpha s
  = Ok (dist, s') →
  ∃ n, heap s' !! root = Some n ∧
       N n = IZR iterations ∧
       Forall (fun c => is_Some (heap s' !! c)) (child_refs n) ∧
       sum_visits (heap s') (child_refs n) = IZR (iterations - 1).
Proof.
  intros Hn0 HN Hch%is_leaf_true Hterm Hiter
    (n & counts & Hloop & Hn & Hcounts & Hdist)%mcts_Ok.
  destruct (Z.to_nat iterations) as [|k] eqn:Hk; [lia|].
  assert (Hloop' := Hloop). cbn [mcts_loop] in Hloop'.
  apply M_bind_Ok in Hloop' as (u1 & s1 & Hfirst & Hrest).
  destruct (leaf_root_iteration _ _ _ _ _ _ _ _ _ _ _ Hn0 Hch Hterm Hfirst)
    as (_ & child_states & _ & _ & _ & Hlegal & _).
  destruct (decide (child_states = [])) as [->|Hne].
  - exfalso.
    assert (barren game root (heap s')) as (m & Hm & Hleaf & _).
    { eapply mcts_loop_barren; [|by exists n0|exact Hloop].
      intros ? ? ?. apply barren_step. }
    assert (m = n) as -> by congruence.
    apply is_leaf_true in Hleaf. unfold children_view in Hcounts.
    rewrite Hleaf in Hcounts. injection Hcounts as <-.
    destruct (extremise_distribution_nil (K:=Action) tau) as [e He].
    congruence.
  - assert (searched (length (heap s)) root (1 + k) (heap s'))
      as [Htree (m & Hm & _ & HNm & Hsum)].
    { eapply mcts_loop_searched; [| |exact Hrest].
      - intros ? ? ? ?. apply searched_step.
      - by eapply first_iteration_searched. }
    assert (m = n) as -> by congruence.
    assert (INR (1 + k) = IZR iterations) as Hcount.
    { rewrite INR_IZR_INZ. f_equal. lia. }
    exists n. split; [done|]. split; [by rewrite HNm|]. split.
    + destruct (st_root_children _ _ _ Htree n Hn) as [_ Hrange].
      eapply Forall_impl; [exact Hrange|]. simpl.
      intros c ?. apply lookup_lt_is_Some. lia.
    + rewrite Hsum, Hcount, minus_IZR. done.
Qed.

(** ** What backup does to each node of a path *)

Lemma float_div_Ok_inv x y q : float_div x y = Ok q → y ≠ 0 ∧ q = x / y.
Proof.
  unfold float_div. destruct (Req_dec_T y 0); [done|]. by intros [= <-].
Qed.

Lemma backed_up_player pp values (n n' : node) :
  backed_up pp values n = Ok n' → player n' = player n.
Proof. by intros [(_ & _ & _ & _ & ?) _]%backed_up_same_position. Qed.

(** On a path without repetition, every node ends as one pass of the loop
    leaves it, the pass being run with the player of the node before. *)
Lemma backup_from_effect pp path values (s : store) u s' :
  NoDup path →
  backup_from pp path values s = Ok (u, s') →
  ∀ i x n, path !! i = Some x → heap s !! x = Some n →
    ∃ n', heap s' !! x = Some n' ∧
          backed_up (parent_player_at (heap s) pp path i) values n = Ok n'.
Proof.
  revert pp s. induction path as [|y path IH]; intros pp s Hnd Hrun i x n Hi Hx;
    [done|].
  apply NoDup_cons in Hnd as [Hy Hnd]. rewrite backup_from_cons in Hrun.
  destruct (heap s !! y) as [ny|] eqn:Hny; [|done].
  destruct (backed_up pp values ny) as [ny'| |] eqn:Hup; [|done..].
  pose proof (lookup_lt_Some _ _ _ Hny) as Hlt.
  destruct i as [|i]; cbn [lookup list_lookup] in Hi.
  - injection Hi as <-. assert (n = ny) as -> by congruence.
    apply backup_from_frame in Hrun as (_ & _ & Hout & _).
    exists ny'. rewrite Hout by done. cbn [heap parent_player_at].
    by rewrite list_lookup_insert_eq.
  - change ((y :: path) !! S i) with (path !! i) in Hi.
    assert (x ≠ y) as Hne.
    { intros ->. apply Hy. by eapply list_elem_of_lookup_2. }
    destruct (IH _ _ Hnd Hrun i x n Hi) as (n' & Hn' & Hn'up).
    { cbn [heap]. by rewrite list_lookup_insert_ne. }
    exists n'. split; [done|]. rewrite <- Hn'up. f_equal.
    destruct i as [|i]; cbn [parent_player_at heap].
    + cbn [lookup list_lookup mbind option_bind fmap option_fmap option_map].
      by rewrite Hny.
    + change ((y :: path) !! S i) with (path !! i).
      destruct (path !! i) as [z|] eqn:Hz; [|done].
      cbn [mbind option_bind]. rewrite list_lookup_insert_ne; [done|].
      intros ->. apply Hy. by eapply list_elem_of_lookup_2.
Qed.

(** The statistics after [backup] of a path without repetition: the first
    node keeps [W] and [Q]; a later node, when the player recorded at the
    node before it is a non-zero label, gains that player's value and has
    its mean recomputed. *)
Lemma backup_path_updates path values (s : store) u s' :
  NoDup path →
  backup path values s = Ok (u, s') →
  ∀ i x n, path !! i = Some x → heap s !! x = Some n →
    ∃ n', heap s' !! x = Some n' ∧ N n' = N n + 1 ∧ same_position n n' ∧
          match i with
          | O => W n' = W n ∧ Q n' = Q n
          | S j =>
              ∀ y m, path !! j = Some y → heap s !! y = Some m →
                     player m ≠ 0%Z →
                     ∃ v, dict_get values (player m) = Some v ∧
                          W n' = W n + v ∧ Q n' = W n' / N n'
          end.
Proof.
  intros Hnd Hrun i x n Hi Hx.
  destruct (backup_from_effect _ _ _ _ _ _ Hnd Hrun i x n Hi Hx)
    as (n' & Hn' & Hup).
  exists n'. split; [done|].
  destruct (backed_up_same_position _ _ _ _ Hup) as [Hsame HN].
  split; [done|]. split; [done|].
  destruct i as [|j]; cbn [parent_player_at] in Hup.
  - unfold backed_up in Hup. by injection Hup as <-.
  - intros y m Hy Hm Hp. rewrite Hy in Hup. cbn [mbind option_bind] in Hup.
    rewrite Hm in Hup. cbn [fmap option_fmap option_map] in Hup.
    unfold backed_up in Hup. apply Z.eqb_neq in Hp. rewrite Hp in Hup.
    cbn [negb] in Hup. unfold dict_item in Hup.
    destruct (dict_get values (player m)) as [v|]; [|done].
    rewrite result_left_id in Hup.
    apply result_bind_Ok in Hup as (q & [_ ->]%float_div_Ok_inv & [= <-]).
    by exists v.
Qed.

(** ** The mean-value invariant *)

Lemma backed_up_mean_value pp values (n n' : node) :
  backed_up pp values n = Ok n' →
  match pp with
  | Some p => p ≠ 0%Z
  | None => W n = 0 ∧ Q n = 0
  end →
  mean_value_ok n'.
Proof.
  unfold backed_up, mean_value_ok. destruct pp as [p|].
  - intros Hup Hp. apply Z.eqb_neq in Hp. rewrite Hp in Hup. cbn [negb] in Hup.
    apply result_bind_Ok in Hup as (v & _ & Hup).
    apply result_bind_Ok in Hup as (q & [_ ->]%float_div_Ok_inv & [= <-]).
    done.
  - intros [= <-] [HW HQ] _. cbn [Q W N set_N]. rewrite HW, HQ. lra.
Qed.

Lemma backup_from_mean_values pp path values (s : store) u s' :
  backup_from pp path values s = Ok (u, s') →
  heap_mean_values_ok (heap s) →
  match pp with
  | Some p => p ≠ 0%Z
  | None => ∀ x n, head path = Some x → heap s !! x = Some n → W n = 0 ∧ Q n = 0
  end →
  Forall (fun x => ∀ n, heap s !! x = Some n → player n ≠ 0%Z) path →
  heap_mean_values_ok (heap s').
Proof.
  revert pp s. induction path as [|y path IH]; intros pp s Hrun Hok Hpp Hplayers.
  - by apply M_ret_Ok in Hrun as [_ ->].
  - rewrite backup_from_cons in Hrun.
    destruct (heap s !! y) as [ny|] eqn:Hny; [|done].
    destruct (backed_up pp values ny) as [ny'| |] eqn:Hup; [|done..].
    pose proof (lookup_lt_Some _ _ _ Hny) as Hlt.
    inversion_clear Hplayers as [|? ? Hy Hrest].
    eapply IH; [exact Hrun|..]; cbn [heap].
    + intros r n [(<- & <- & _)|[Hne Hn]]%list_lookup_insert_Some; [|by eapply Hok].
      eapply backed_up_mean_value; [exact Hup|].
      destruct pp; [done|]. by apply (Hpp y).
    + by apply Hy.
    + eapply Forall_impl; [exact Hrest|]. simpl.
      intros x Hx n [(<- & <- & _)|[Hne Hn]]%list_lookup_insert_Some; [|by apply Hx].
      rewrite (backed_up_player _ _ _ _ Hup). by apply Hy.
Qed.

Lemma expand_mean_values self prior (child_states : dict Action State)
    child_players child_terminals (s : store) u s' :
  heap_mean_values_ok (heap s) →
  expand self prior child_states child_players child_terminals s = Ok (u, s') →
  heap_mean_values_ok (heap s').
Proof.
  intros Hok (n & kids & fresh & Hn & _ & -> & _ & _ & _ & _ & Hfresh)%expand_Ok.
  pose proof (lookup_lt_Some _ _ _ Hn) as Hlt.
  intros r m [Hm|[_ Hm]]%lookup_app_Some.
  - apply list_lookup_insert_Some in Hm as [(-> & <- & _)|[_ Hm]];
      [|by eapply Hok].
    exact (Hok _ _ Hn).
  - apply list_elem_of_lookup_2 in Hm.
    apply (proj1 (Forall_forall _ _) Hfresh) in Hm as (HQ & HW & HN & _).
    unfold mean_value_ok. rewrite HN. lra.
Qed.

(** C9 (as amended).  [mean_value = cumulative_value / visit_count] whenever
    [visit_count > 0] holds of a node as constructed, and a heap in which
    it holds of every node keeps it under [expand] and under [backup] of a
    path whose first node has cumulative and mean value 0 (a root that was
    never backed up below another node), the players recorded on the path
    being non-zero labels. *)
Theorem mean_value_invariant_preserved (s : store) :
  heap_mean_values_ok (heap s) →
  (∀ game_state player is_terminal,
     mean_value_ok (MCTSNode_init game_state player is_terminal : node)) ∧
  (∀ self prior (child_states : dict Action State) child_players
     child_terminals u s',
     expand self prior child_states child_players child_terminals s
     = Ok (u, s') →
     heap_mean_values_ok (heap s')) ∧
  (∀ first rest values u s',
     (∀ n, heap s !! first = Some n → W n = 0 ∧ Q n = 0) →
     Forall (fun x => ∀ n, heap s !! x = Some n → player n ≠ 0%Z)
            (first :: rest) →
     backup (first :: rest) values s = Ok (u, s') →
     heap_mean_values_ok (heap s')).
Proof.
  intros Hok. split; [|split].
  - intros gs pl tm. unfold mean_value_ok. cbn [N MCTSNode_init]. lra.
  - intros. by eapply expand_mean_values.
  - intros first rest values u s' Hfirst Hplayers Hrun.
    eapply backup_from_mean_values; [exact Hrun|done| |done].
    intros x n [= <-]. apply Hfirst.
Qed.

(** ** The driver on a root without children *)

Lemma M_bind_Raise {A B : Type} (m : M A) (f : A → M B) (s : store) e :
  m s = Raise e → (m ≫= f) s = Raise e.
Proof. unfold mbind, M_bind. by intros ->. Qed.

Lemma select_loop_leaf fuel c_puct epsilon alpha r nodes
    (actions : list Action) (s : store) n :
  heap s !! r = Some n →
  is_leaf n = true →
  select_loop fuel c_puct epsilon alpha r nodes actions s
  = Ok ((nodes, actions), s).
Proof.
  intros Hn Hleaf.
  destruct fuel; cbn [select_loop];
    rewrite (M_bind_run _ _ _ _ _ (load_run _ _ _ Hn)), Hleaf; reflexivity.
Qed.

Lemma childless_root_counts root tau (s : store) n :
  heap s !! root = Some n →
  children n = [] →
  ∃ e, (root ← load root;
        action_counts ← children_attr N root;
        lift (extremise_distribution action_counts tau)) s = Raise e.
Proof.
  intros Hn Hch.
  rewrite (M_bind_run _ _ _ _ _ (load_run _ _ _ Hn)).
  erewrite M_bind_run; cycle 1.
  { apply children_attr_run. unfold children_view. rewrite Hch. reflexivity. }
  destruct (extremise_distribution_nil (K:=Action) tau) as [e He].
  exists e. unfold lift. by rewrite He.
Qed.

Lemma terminal_root_iteration fuel root (game : Game.t Action State) estimator
    c_puct epsilon alpha (s : store) n :
  heap s !! root = Some n →
  children n = [] →
  is_terminal n = true →
  (∃ e, mcts_iteration fuel root game estimator c_puct epsilon alpha s
        = Raise e) ∨
  (∃ s' n', mcts_iteration fuel root game estimator c_puct epsilon alpha s
            = Ok (tt, s') ∧
            heap s' !! root = Some n' ∧ children n' = [] ∧
            is_terminal n' = true).
Proof.
  intros Hn Hch Hterm. pose proof (proj2 (is_leaf_true n) Hch) as Hleaf.
  pose proof (lookup_lt_Some _ _ _ Hn) as Hlt.
  unfold mcts_iteration, select.
  rewrite (M_bind_run _ _ _ _ _
             (select_loop_leaf fuel c_puct epsilon alpha _ _ _ _ _ Hn Hleaf)).
  rewrite (M_bind_run _ _ _ root s (lift_run _ _ _ eq_refl)).
  rewrite (M_bind_run _ _ _ _ _ (load_run _ _ _ Hn)), Hterm. cbn [negb].
  destruct (Game.utility game (game_state n)) as [e|values] eqn:Hutil.
  - left. exists e. by apply M_bind_Raise.
  - right. rewrite (M_bind_run _ _ _ values s (lift_run _ _ _ eq_refl)).
    unfold backup. rewrite backup_from_cons, Hn. cbn [backed_up backup_from].
    eexists _, _. split; [reflexivity|]. cbn [heap].
    rewrite list_lookup_insert_eq by done. done.
Qed.

Lemma terminal_root_loop fuel root (game : Game.t Action State) estimator
    c_puct epsilon alpha k (s : store) n :
  heap s !! root = Some n →
  children n = [] →
  is_terminal n = true →
  (∃ e, mcts_loop k
          (mcts_iteration fuel root game estimator c_puct epsilon alpha) s
        = Raise e) ∨
  (∃ s' n', mcts_loop k
              (mcts_iteration fuel root game estimator c_puct epsilon alpha) s
            = Ok (tt, s') ∧
            heap s' !! root = Some n' ∧ children n' = []).
Proof.
  revert s n. induction k as [|k IH]; intros s n Hn Hch Hterm; cbn [mcts_loop].
  - right. by exists s, n.
  - destruct (terminal_root_iteration fuel root game estimator c_puct epsilon
                alpha s n Hn Hch Hterm)
      as [[e He]|(s1 & n1 & Hrun & Hn1 & Hch1 & Hterm1)].
    + left. exists e. by apply M_bind_Raise.
    + rewrite (M_bind_run _ _ _ _ _ Hrun). by eapply IH.
Qed.

(** Conversely, a selection in the sense of the specification is what
    [select_loop] returns as soon as its fuel covers the descents. *)
Lemma selection_select_loop (h : list node) c_puct epsilon alpha
    g r nodes actions g' :
  selection h c_puct epsilon alpha g r nodes actions g' →
  ∀ fuel acc_nodes acc_actions,
    (length actions ≤ fuel)%nat →
    select_loop fuel c_puct epsilon alpha r acc_nodes acc_actions
                {| heap := h; rng := g |}
    = Ok ((acc_nodes ++ tail nodes, acc_actions ++ actions),
          {| heap := h; rng := g' |}).
Proof.
  induction 1 as [g r n Hn Hleaf
                 |g r n qs ns ucb a c nodes actions g' Hn Hleaf Hqs Hns Hucb
                    Ha Hc Hsel IH];
    intros fuel acc_nodes acc_actions Hfuel.
  - cbn [tail]. rewrite !app_nil_r. by eapply select_loop_leaf.
  - destruct fuel as [|fuel]; [simpl in Hfuel; lia|]. cbn [select_loop].
    rewrite (M_bind_run _ _ _ _ _ (load_run _ {| heap := h; rng := g |} _ Hn)).
    rewrite Hleaf.
    rewrite (M_bind_run _ _ _ _ _
               (children_attr_run Q n {| heap := h; rng := g |} _ Hqs)).
    rewrite (M_bind_run _ _ _ _ _
               (children_attr_run N n {| heap := h; rng := g |} _ Hns)).
    erewrite M_bind_run by reflexivity.
    fold (noisy_prior n epsilon alpha g). fold (after_draw n alpha g).
    erewrite M_bind_run by (by apply lift_run).
    erewrite M_bind_run by (by apply lift_run).
    erewrite M_bind_run by (by apply lift_run, dict_item_Some).
    rewrite IH by (simpl in Hfuel; lia).
    destruct (selection_last _ _ _ _ _ _ _ _ _ Hsel) as (rest & _ & _ & -> & _).
    cbn [tail]. by rewrite <- !app_assoc.
Qed.

(** C4 (as amended).  On a root without children, the driver raises when it
    is asked for no iteration at all, and raises, whatever the number of
    iterations, when the root is terminal: [extremise] is handed the empty
    dictionary of counts (or the utility of the game has raised before). *)
Theorem mcts_childless_root_raises (fuel : nat) (root : ref)
    (game : Game.t Action State) estimator (iterations : Z)
    (c_puct tau epsilon alpha : R) (s : store) n :
  heap s !! root = Some n →
  children n = [] →
  (iterations ≤ 0)%Z ∨ is_terminal n = true →
  ∃ e, mcts fuel root game estimator iterations c_puct tau epsilon alpha s
       = Raise e.
Proof.
  intros Hn Hch Hcase. unfold mcts.
  assert ((∃ e, mcts_loop (Z.to_nat iterations)
                  (mcts_iteration fuel root game estimator c_puct epsilon alpha) s
                = Raise e) ∨
          (∃ s' n', mcts_loop (Z.to_nat iterations)
                      (mcts_iteration fuel root game estimator c_puct epsilon
                                      alpha) s
                    = Ok (tt, s') ∧
                    heap s' !! root = Some n' ∧ children n' = []))
    as [[e He]|(s' & n' & Hrun & Hn' & Hch')].
  { destruct Hcase as [Hzero|Hterm].
    - right. exists s, n. by replace (Z.to_nat iterations) with 0%nat by lia.
    - by eapply terminal_root_loop. }
  - exists e. by apply M_bind_Raise.
  - rewrite (M_bind_run _ _ _ _ _ Hrun).
    by eapply childless_root_counts.
Qed.
End SearchFacts.


(** * Concrete runs *)

(** Running a computation of [M] on a concrete store, one operation at a
    time; the float tests are settled by [lra]. *)

Lemma run_bind {Action State : Type} {RS : RandomSource} {A B : Type}
    (m : M Action State A) (f : A → M Action State B) s a s1 r :
  m s = Ok (a, s1) → f a s1 = r → (m ≫= f) s = r.
Proof. intros Hm <-. by apply M_bind_run. Qed.

Ltac decide_floats :=
  repeat match goal with
  | |- context [Req_dec_T ?x ?y] =>
      destruct (Req_dec_T x y) as [?|?]; try (exfalso; lra)
  | |- context [Rlt_dec ?x ?y] =>
      destruct (Rlt_dec x y) as [?|?]; try (exfalso; lra)
  | |- context [Rle_dec ?x ?y] =>
      destruct (Rle_dec x y) as [?|?]; try (exfalso; lra)
  end.

Ltac run_result :=
  unfold normalise_distribution, compute_ucb, dict_argmax, dict_item,
    last_item, of_external, float_div;
  repeat (progress (cbn; rewrite ?decide_True by done;
                    rewrite ?decide_False by done; decide_floats));
  reflexivity.

Ltac run :=
  cbn beta iota zeta;
  lazymatch goal with
  | |- (_ ≫= _) _ = _ => eapply run_bind; [run | run]
  | |- mret _ _ = _ => reflexivity
  | |- lift _ _ = _ => eapply lift_run; run_result
  | |- load _ _ = _ => eapply load_run; reflexivity
  | |- update _ _ _ = _ => eapply update_run; reflexivity
  | |- new_node _ _ = _ => reflexivity
  | |- np_random_dirichlet _ _ = _ => reflexivity
  | |- mix_dirichlet_noise _ _ _ _ = _ => unfold mix_dirichlet_noise; run
  | |- children_attr _ _ _ = _ => unfold children_attr; run
  | |- select _ _ _ _ _ _ = _ => unfold select; run
  | |- select_loop _ _ _ _ _ _ _ _ = _ => progress cbn [select_loop]; run
  | |- expand _ _ _ _ _ _ = _ => unfold expand; run
  | |- backup _ _ _ = _ => unfold backup; run
  | |- backup_from _ _ _ _ = _ => progress cbn [backup_from app]; run
  | |- mcts_iteration _ _ _ _ _ _ _ _ = _ => unfold mcts_iteration; run
  | |- mcts_loop _ _ _ = _ => progress cbn [mcts_loop]; run
  | |- mapM ?f ?l _ = _ =>
      let v := eval vm_compute in l in
      change (mapM f l) with (mapM f v); progress cbn [mapM]; run
  | |- (if ?b then _ else _) _ = _ =>
      let v := eval vm_compute in b in
      change b with v; cbn iota; run
  | |- (match ?p with Some _ => _ | None => _ end) _ = _ =>
      let v := eval cbn in p in
      change p with v; cbn iota; run
  end.

(** Two stores with the same generator state and, cell by cell, the same
    nodes are the same store. *)
Lemma node_eq {Action State : Type} (n m : MCTSNode Action State) :
  Q n = Q m → W n = W m → N n = N m → is_terminal n = is_terminal m →
  children n = children m → prior_probs n = prior_probs m →
  game_state n = game_state m → player n = player m → n = m.
Proof. destruct n, m; simpl; congruence. Qed.

(** Two iterations from the fresh root of the one-move game build
    [searched_store] and return the distribution that gives the single move
    probability [1]. *)
Lemma one_move_search :
  mcts 1 0%nat one_move_game one_move_estimator 2 1 1 (1 / 4) (3 / 100)
       fresh_store
  = Ok ([(0%nat, 1)], searched_store).
Proof.
  unfold mcts. change (Z.to_nat 2) with 2%nat.
  eapply run_bind; [run|]. eapply run_bind; [run|].
  eapply run_bind; [run|].
  cbn [N W Q set_Q set_W set_N set_children set_prior_probs MCTSNode_init].
  unfold lift.
  rewrite extremise_distribution_single by lra.
  unfold searched_store. cbn. do 3 f_equal. repeat f_equal; apply node_eq; cbn; try reflexivity; try lra.
  do 2 f_equal. lra.
Qed.

(** Selection on [searched_store] descends from the root to its child and
    makes one draw on the way. *)
Lemma one_move_select :
  select 1 0%nat 1 (1 / 4) (3 / 100) searched_store
  = Ok (([0%nat; 1%nat], [0%nat]),
        {| heap := heap searched_store; rng := 2%nat |}).
Proof. run. Qed.

(** ** C1 *)

Lemma compute_ucb_formula_witness :
  ∃ ucb,
    compute_ucb [(0%nat, 1)] [(0%nat, 1)] [(0%nat, 0)] 1 = Ok ucb ∧
    dict_keys ucb = dict_keys [(0%nat, 1)] ∧
    ∀ a q p n,
      dict_get [(0%nat, 1)] a = Some q →
      dict_get [(0%nat, 1)] a = Some p →
      dict_get [(0%nat, 0)] a = Some n →
      dict_get ucb a =
        Some (q + 1 * p * sqrt (py_sum (dict_values [(0%nat, 0)])) / (1 + n)) ∧
      (Forall (fun m => m = 0) (dict_values [(0%nat, 0)]) →
       dict_get ucb a = Some q).
Proof.
  apply (compute_ucb_formula [(0%nat, 1)] [(0%nat, 1)] [(0%nat, 0)] 1).
  - done.
  - done.
  - constructor; [simpl; lra | constructor].
Defined.

(** ** C2 *)

Lemma mcts_visit_counts_witness :
  ∃ n, heap searched_store !! 0%nat = Some n ∧
       N n = IZR 2 ∧
       Forall (fun c => is_Some (heap searched_store !! c)) (child_refs n) ∧
       sum_visits (heap searched_store) (child_refs n) = IZR (2 - 1).
Proof.
  apply (mcts_visit_counts 1 0%nat one_move_game one_move_estimator 2
           1 1 (1 / 4) (3 / 100) fresh_store
           (MCTSNode_init 0%nat 1%Z false) [(0%nat, 1)] searched_store).
  - reflexivity.
  - reflexivity.
  - reflexivity.
  - reflexivity.
  - lia.
  - exact one_move_search.
Defined.

(** ** C3 *)

(** C3 (the code departs from it).  In a game whose players are labelled [0]
    and [1], back up the path root, child with the values of a position won
    by player [0], who moves at the root.  The child is the second node of
    the path and the value-map entry for the player recorded at the root is
    [1], yet the child's cumulative value stays [0] (and its mean value is
    not recomputed): the test [if parent_player:] takes the label [0] for
    the absence of a parent. *)
Theorem backup_skips_child_of_player_zero :
  dict_get zero_player_values 0%Z = Some 1 ∧
  ∃ s' root child,
    backup [0%nat; 1%nat] zero_player_values zero_player_store = Ok (tt, s') ∧
    heap zero_player_store !! 0%nat = Some root ∧ player root = 0%Z ∧
    heap s' !! 1%nat = Some child ∧
    N child = 1 ∧ W child = 0 ∧ Q child = 0.
Proof.
  split; [reflexivity|].
  eexists _, _, _. split; [run|].
  do 3 (split; [reflexivity|]). cbn. repeat split; lra.
Qed.

(** ** C4 *)

Lemma mcts_zero_iterations_returns :
  mcts 1 0%nat one_move_game one_move_estimator 0 1 1 (1 / 4) (3 / 100)
       searched_store
  = Ok ([(0%nat, 1)], searched_store).
Proof.
  unfold mcts. change (Z.to_nat 0) with 0%nat.
  eapply run_bind; [run|]. eapply run_bind; [run|].
  eapply run_bind; [run|]. cbn [N]. unfold lift.
  by rewrite extremise_distribution_single by lra.
Qed.

Lemma mcts_childless_root_raises_witness :
  ∃ e, mcts 1 0%nat one_move_game one_move_estimator 0 1 1 (1 / 4) (3 / 100)
            fresh_store = Raise e.
Proof.
  apply (mcts_childless_root_raises 1 0%nat one_move_game one_move_estimator 0
           1 1 (1 / 4) (3 / 100) fresh_store (MCTSNode_init 0%nat 1%Z false)).
  - reflexivity.
  - reflexivity.
  - left. lia.
Defined.

(** ** C5 *)

Lemma normalise_empty_returns :
  normalise_distribution ([] : dict nat R) = Ok [].
Proof. reflexivity. Qed.

Lemma normalise_extremise_domain_witness :
  normalise_distribution [(0%nat, 0)] = Raise ZeroDivisionError ∧
  ∃ e, extremise_distribution [(0%nat, 0)] 1 = Raise e.
Proof.
  destruct (normalise_extremise_domain [(0%nat, 0)] 1) as (_ & Hnorm & Hext).
  split.
  - apply Hnorm; [done|]. unfold dict_values, py_sum. simpl. lra.
  - apply Hext. right. constructor; [reflexivity | constructor].
Defined.

(** ** C6 *)

Lemma extremise_one_is_normalise_witness :
  extremise_distribution [(0%nat, 1); (1%nat, 3)] 1
  = normalise_distribution [(0%nat, 1); (1%nat, 3)] ∧
  normalise_distribution [(0%nat, 1); (1%nat, 3)]
  = Ok ((fun kv => (kv.1, kv.2 / py_sum (dict_values [(0%nat, 1); (1%nat, 3)])))
          <$> [(0%nat, 1); (1%nat, 3)]).
Proof.
  apply (extremise_one_is_normalise [(0%nat, 1); (1%nat, 3)]).
  - done.
  - constructor; [simpl; lra|]. constructor; [simpl; lra | constructor].
Defined.

(** ** C8 *)

Lemma select_mixes_noise_at_every_node_witness :
  selection (heap searched_store) 1 (1 / 4) (3 / 100) 1%nat 0%nat
            [0%nat; 1%nat] [0%nat] 2%nat ∧
  length [0%nat; 1%nat] = S (length [0%nat]) ∧
  2%nat = draws_along (heap searched_store) (3 / 100)
                      (removelast [0%nat; 1%nat]) 1%nat.
Proof.
  exact (select_mixes_noise_at_every_node 1 0%nat 1 (1 / 4) (3 / 100)
           searched_store [0%nat; 1%nat] [0%nat]
           {| heap := heap searched_store; rng := 2%nat |} one_move_select).
Defined.

(** ** C9 *)

Lemma searched_store_mean_values : heap_mean_values_ok (heap searched_store).
Proof.
  intros r n Hn _. destruct r as [|[|r]]; cbn in Hn; [| |done];
    injection Hn as <-; cbn; lra.
Qed.

(** The child of [searched_store] taken as the root of a new search: it is
    the first node of the path, so its visit count grows while its mean value
    stays. *)
Lemma backup_first_node_breaks_mean_value :
  heap_mean_values_ok (heap searched_store) ∧
  ∃ s', backup [1%nat] [(1%Z, 1); (2%Z, -1)] searched_store = Ok (tt, s') ∧
        ¬ heap_mean_values_ok (heap s').
Proof.
  split; [exact searched_store_mean_values|].
  eexists. split; [run|]. intros Hok.
  specialize (Hok 1%nat _ eq_refl). unfold mean_value_ok in Hok. cbn in Hok.
  lra.
Qed.

Lemma mean_value_invariant_preserved_witness :
  ∃ s', backup [0%nat; 1%nat] [(1%Z, 1); (2%Z, -1)] searched_store = Ok (tt, s') ∧
        heap_mean_values_ok (heap s').
Proof.
  eexists. split; [run|].
  destruct (mean_value_invariant_preserved searched_store
              searched_store_mean_values) as (_ & _ & Hbackup).
  eapply (Hbackup 0%nat [1%nat] [(1%Z, 1); (2%Z, -1)] tt).
  - intros n [= <-]. by cbn.
  - repeat constructor; intros n [= <-]; by cbn.
  - run.
Defined.

(** ** C10 *)

Lemma select_read_only_witness :
  heap {| heap := heap searched_store; rng := 2%nat |} = heap searched_store ∧
  ∀ r n mixed s1,
    heap searched_store !! r = Some n →
    mix_dirichlet_noise (prior_probs n) (1 / 4) (3 / 100) searched_store
    = Ok (mixed, s1) →
    heap s1 = heap searched_store.
Proof.
  exact (select_read_only 1 0%nat 1 (1 / 4) (3 / 100) searched_store
           ([0%nat; 1%nat], [0%nat])
           {| heap := heap searched_store; rng := 2%nat |} one_move_select).
Defined.

(** * Further properties of the code *)

(** ** Noughts and crosses *)

Section NoughtsAndCrossesFacts.
Import NoughtsAndCrosses.
Local Open Scope Z_scope.

Lemma existsb_abs_3 (l : list Z) :
  existsb (fun x => Z.abs x =? 3) l
  = existsb (fun x => x =? 3) l || existsb (fun x => x =? -3) l.
Proof.
  induction l as [|x l IH]; [done|]. simpl. rewrite IH.
  destruct (Z.eqb_spec (Z.abs x) 3), (Z.eqb_spec x 3), (Z.eqb_spec x (-3));
    try lia; simpl; done.
Qed.

Lemma line_sums_Ok (state : State) :
  length state = 9%nat → ∃ sums, _calculate_line_sums state = Ok sums.
Proof.
  intros Hlen. unfold _calculate_line_sums, reshape_3_3.
  rewrite decide_True by done. eauto.
Qed.

Lemma line_sums_wrong_length (state : State) :
  length state ≠ 9%nat → _calculate_line_sums state = Raise ValueError.
Proof.
  intros Hlen. unfold _calculate_line_sums, reshape_3_3.
  by rewrite decide_False by done.
Qed.

(** X1.  On a state of nine squares, [utility] returns an outcome exactly
    when [is_terminal] answers true, and raises [ValueError] exactly when it
    answers false; every outcome returned is zero-sum. *)
Theorem utility_defined_iff_terminal (state : State) :
  length state = 9%nat →
  (is_terminal state = Ok true ↔ ∃ o, utility state = Ok o) ∧
  (is_terminal state = Ok false ↔ utility state = Raise ValueError) ∧
  (∀ o, utility state = Ok o → player1_score o + player2_score o = 0).
Proof.
  intros Hlen. destruct (line_sums_Ok state Hlen) as [sums Hsums].
  unfold is_terminal, utility. rewrite Hsums, !result_left_id, existsb_abs_3.
  destruct (any_isnan state), (existsb (fun x => x =? 3) sums),
    (existsb (fun x => x =? -3) sums); simpl;
    (split; [|split]); try (split; intros; by eauto);
    try (split; [done|by intros [o ?]]); try (split; done);
    by intros o [= <-].
Qed.

(** X2.  A state without empty square is terminal for [is_terminal] whatever
    its length, whereas on a state that has not nine squares [utility]
    always raises [ValueError], and so do [is_terminal] and [next_states] as
    soon as a square is empty. *)
Theorem malformed_state_behaviour (state : State) :
  (any_isnan state = false → is_terminal state = Ok true) ∧
  (length state ≠ 9%nat →
   utility state = Raise ValueError ∧
   (any_isnan state = true →
    is_terminal state = Raise ValueError ∧
    next_states state = Raise ValueError)).
Proof.
  split.
  - intros Hnan. unfold is_terminal. by rewrite Hnan.
  - intros Hlen. pose proof (line_sums_wrong_length state Hlen) as Hsums.
    split; [unfold utility; by rewrite Hsums|].
    intros Hnan.
    assert (is_terminal state = Raise ValueError) as Hterm.
    { unfold is_terminal. by rewrite Hnan, Hsums. }
    split; [done|]. unfold next_states. by rewrite Hterm.
Qed.

Ltac nine_squares state Hlen :=
  do 9 (destruct state as [|? state]; [discriminate Hlen|]);
  destruct state; [|discriminate Hlen].

Lemma next_states_flat (a b c d e f g h i : option Z) :
  let state := [a; b; c; d; e; f; g; h; i] in
  is_terminal state = Ok false →
  next_states state
  = Ok ((fun j => ((j / 3, j mod 3)%nat, <[j := Some 1]> state))
          <$> filter (fun j => state !! j = Some None) (seq 0 9)).
Proof.
  intros state Hterm. unfold next_states. rewrite Hterm, result_left_id.
  clear Hterm. subst state.
  destruct a, b, c, d, e, f, g, h, i; reflexivity.
Qed.

Lemma square_of_index_inj (j k : nat) :
  (j / 3, j mod 3)%nat = (k / 3, k mod 3)%nat → j = k.
Proof.
  intros [Hdiv Hmod]%pair_equal_spec.
  pose proof (Nat.div_mod_eq j 3). pose proof (Nat.div_mod_eq k 3). lia.
Qed.

(** X3.  On a state of nine squares, [next_states] raises [ValueError] when
    the state is terminal; otherwise it returns one successor for each empty
    square [j], under the key (row [j / 3], column [j mod 3]), and that
    successor is the state with a [1] written in square [j]: a cross is
    placed whoever is to move.  No key occurs twice. *)
Theorem next_states_successors (state : State) :
  length state = 9%nat →
  (is_terminal state = Ok true → next_states state = Raise ValueError) ∧
  (is_terminal state = Ok false →
   ∃ successors,
     next_states state = Ok successors ∧
     NoDup (dict_keys successors) ∧
     ∀ key next_state,
       (key, next_state) ∈ successors ↔
       ∃ j, (j < 9)%nat ∧ state !! j = Some None ∧
            key = (j / 3, j mod 3)%nat ∧
            next_state = <[j := Some 1]> state).
Proof.
  intros Hlen. split.
  - intros Hterm. unfold next_states. by rewrite Hterm.
  - intros Hterm. nine_squares state Hlen.
    eexists. split; [by apply next_states_flat|]. split.
    + unfold dict_keys. rewrite <- list_fmap_compose.
      apply NoDup_fmap_2_strong; [|apply NoDup_filter, NoDup_seq].
      intros j k _ _. apply square_of_index_inj.
    + intros key next_state. rewrite list_elem_of_fmap. split.
      * intros (j & [= -> ->] & [Hj Hin%elem_of_seq]%list_elem_of_filter).
        exists j. split; [lia|done].
      * intros (j & Hj & Hnan & -> & ->). exists j. split; [done|].
        apply list_elem_of_filter. split; [done|]. apply elem_of_seq. lia.
Qed.

Lemma line_three (a b c : option Z) (z : Z) :
  a = None ∨ a = Some 1 ∨ a = Some (-1) →
  b = None ∨ b = Some 1 ∨ b = Some (-1) →
  c = None ∨ c = Some 1 ∨ c = Some (-1) →
  z = 1 ∨ z = -1 →
  default 0 a + (default 0 b + (default 0 c + 0)) = 3 * z ↔
  a = Some z ∧ b = Some z ∧ c = Some z.
Proof.
  intros [-> | [-> | ->]] [-> | [-> | ->]] [-> | [-> | ->]] [-> | ->]; simpl;
    (split; [intros; lia || done | intros (? & ? & ?); congruence || done]).
Qed.

Lemma three_in_line_cases (a b c d e f g h i : option Z) (z : Z) :
  three_in_line [a; b; c; d; e; f; g; h; i] z ↔
  (a = Some z ∧ b = Some z ∧ c = Some z) ∨
  (d = Some z ∧ e = Some z ∧ f = Some z) ∨
  (g = Some z ∧ h = Some z ∧ i = Some z) ∨
  (a = Some z ∧ d = Some z ∧ g = Some z) ∨
  (b = Some z ∧ e = Some z ∧ h = Some z) ∨
  (c = Some z ∧ f = Some z ∧ i = Some z) ∨
  (a = Some z ∧ e = Some z ∧ i = Some z) ∨
  (c = Some z ∧ e = Some z ∧ g = Some z).
Proof.
  unfold three_in_line, lines, holds. split.
  - intros (line & Hin & Hall).
    repeat (apply elem_of_cons in Hin as [->|Hin]);
      [..|by apply elem_of_nil in Hin];
      repeat match goal with
             | H : Forall _ (_ :: _) |- _ => inversion_clear H
             end;
      simplify_eq/=; tauto.
  - intros Hcases.
    repeat match goal with
           | H : _ ∨ _ |- _ => destruct H as [H|H]
           end;
      destruct Hcases as (-> & -> & ->);
      [exists [0; 1; 2]%nat | exists [3; 4; 5]%nat | exists [6; 7; 8]%nat
      |exists [0; 3; 6]%nat | exists [1; 4; 7]%nat | exists [2; 5; 8]%nat
      |exists [0; 4; 8]%nat | exists [2; 4; 6]%nat];
      (split; [by repeat constructor | by repeat constructor]).
Qed.

Lemma line_sums_three_in_line (state : State) (z : Z) :
  well_formed state →
  z = 1 ∨ z = -1 →
  ∃ sums, _calculate_line_sums state = Ok sums ∧
          (existsb (fun x => x =? 3 * z) sums = true ↔ three_in_line state z).
Proof.
  intros [Hlen Hcells] Hz. nine_squares state Hlen.
  repeat match goal with
         | H : Forall _ (_ :: _) |- _ => inversion_clear H
         end.
  eexists. split; [reflexivity|]. rewrite three_in_line_cases.
  cbn. rewrite orb_false_r, !orb_true_iff, !Z.eqb_eq.
  by rewrite !line_three by done.
Qed.

(** X4.  On a board of nine squares that hold [1], [-1] or [nan], [utility]
    declares player 1 the winner exactly when some row, column or diagonal
    holds three [1], player 2 exactly when some line holds three [-1] and
    none holds three [1] (a line of crosses takes precedence), and a draw
    exactly when no line is complete and no square is empty. *)
Theorem utility_three_in_line (state : State) :
  well_formed state →
  (utility state = Ok {| player1_score := 1; player2_score := -1 |} ↔
   three_in_line state 1) ∧
  (utility state = Ok {| player1_score := -1; player2_score := 1 |} ↔
   three_in_line state (-1) ∧ ¬ three_in_line state 1) ∧
  (utility state = Ok {| player1_score := 0; player2_score := 0 |} ↔
   any_isnan state = false ∧
   ¬ three_in_line state 1 ∧ ¬ three_in_line state (-1)).
Proof.
  intros Hwf.
  destruct (line_sums_three_in_line state 1 Hwf ltac:(by left))
    as (sums & Hsums & Hx).
  destruct (line_sums_three_in_line state (-1) Hwf ltac:(by right))
    as (sums' & Hsums' & Ho).
  assert (sums' = sums) as -> by congruence.
  change (3 * 1) with 3 in Hx. change (3 * -1) with (-3) in Ho.
  unfold utility. rewrite Hsums, result_left_id.
  destruct (existsb (fun x => x =? 3) sums),
    (existsb (fun x => x =? -3) sums), (any_isnan state); simpl;
    repeat split; try done; try (intros; exfalso; intuition congruence);
    intuition (done || congruence).
Qed.
End NoughtsAndCrossesFacts.

(** ** Distributions, scores and the choice of the action *)

Section DistributionExtras.
Context {K : Type} `{EqDecision K}.

Lemma dict_keys_fmap_value {V V' : Type} (f : K * V → V') (d : dict K V) :
  dict_keys ((fun kv => (kv.1, f kv)) <$> d) = dict_keys d.
Proof.
  unfold dict_keys. rewrite <- list_fmap_compose. by apply list_fmap_ext.
Qed.

Lemma dict_values_fmap_value {V V' : Type} (f : V → V') (d : dict K V) :
  dict_values ((fun kv => (kv.1, f kv.2)) <$> d) = f <$> dict_values d.
Proof. unfold dict_values. by rewrite <- !list_fmap_compose. Qed.

(** X5.  When the values do not sum to zero, [normalise_distribution]
    returns a dictionary with the keys of its argument, in the same order,
    whose values sum to one. *)
Theorem normalise_distribution_sums_to_one (d : dict K R) :
  py_sum (dict_values d) ≠ 0 →
  ∃ d', normalise_distribution d = Ok d' ∧
        dict_keys d' = dict_keys d ∧
        py_sum (dict_values d') = 1.
Proof.
  intros Hsum. eexists. split; [by apply normalise_distribution_Ok|].
  split; [apply (dict_keys_fmap_value (fun kv => kv.2 / _))|].
  rewrite (dict_values_fmap_value (fun v => v / py_sum (dict_values d))).
  rewrite py_sum_scale. by field.
Qed.

Lemma fold_left_Rmin_le l x : fold_left Rmin l x <= x.
Proof.
  revert x. induction l as [|y l IH]; intros x; simpl; [lra|].
  etransitivity; [apply IH|]. apply Rmin_l.
Qed.

Lemma fold_left_Rmin_lower l x y :
  y ∈ l → fold_left Rmin l x <= y.
Proof.
  revert x. induction l as [|z l IH]; intros x; [by intros ?%elem_of_nil|].
  intros [->|Hin]%elem_of_cons; simpl.
  - etransitivity; [apply fold_left_Rmin_le|]. apply Rmin_r.
  - by apply IH.
Qed.

(** X6.  The assertions of [extremise_distribution]: a temperature that is
    not positive raises [AssertionError] whatever the distribution, empty
    included, and so does, for a positive temperature, a distribution with a
    negative value. *)
Theorem extremise_distribution_assertions (d : dict K R) (tau : R) :
  (tau <= 0 → extremise_distribution d tau = Raise AssertionError) ∧
  (0 < tau → Exists (fun v => v < 0) (dict_values d) →
   extremise_distribution d tau = Raise AssertionError).
Proof.
  unfold extremise_distribution. split.
  - intros Htau. destruct (Rlt_dec 0 tau); [lra|done].
  - intros Htau (v & Hv & Hneg)%Exists_exists.
    destruct (Rlt_dec 0 tau); [|lra].
    destruct (dict_values d) as [|x l] eqn:Hvals; [by apply elem_of_nil in Hv|].
    cbn [py_min]. rewrite result_left_id.
    assert (fold_left Rmin l x < 0) as Hmin.
    { apply elem_of_cons in Hv as [->|Hin].
      - pose proof (fold_left_Rmin_le l x). lra.
      - pose proof (fold_left_Rmin_lower l x v Hin). lra. }
    destruct (Rle_dec 0 (fold_left Rmin l x)); [lra|done].
Qed.

Lemma mapM_result_first_Raise {A B : Type} (f : A → result B) e l :
  Forall (fun x => (∃ y, f x = Ok y) ∨ f x = Raise e) l →
  Exists (fun x => f x = Raise e) l →
  mapM f l = Raise e.
Proof.
  induction 1 as [|x l Hx Hl IH]; [by intros ?%Exists_nil|].
  intros Hex. cbn [mapM]. destruct Hx as [[y Hy]|Hx]; [|by rewrite Hx].
  rewrite Hy, result_left_id.
  apply Exists_cons in Hex as [Hex|Hex]; [congruence|].
  by rewrite IH.
Qed.

(** X7.  When the prior lacks an action that has an action value, the counts
    being non-negative, [compute_ucb] raises [KeyError] instead of returning
    scores. *)
Theorem compute_ucb_missing_prior
    (action_values prior_probs action_counts : dict K R) (c_puct : R) (a : K) :
  Forall (fun n => 0 <= n) (dict_values action_counts) →
  a ∈ dict_keys action_values →
  a ∉ dict_keys prior_probs →
  compute_ucb action_values prior_probs action_counts c_puct = Raise KeyError.
Proof.
  intros Hpos Ha Hmiss. unfold compute_ucb.
  apply mapM_result_first_Raise.
  - apply Forall_forall. intros k Hk.
    destruct (proj1 (dict_get_is_Some _ _) Hk) as [q Hq].
    rewrite (dict_item_Some _ _ _ Hq), result_left_id.
    assert ((∃ p, dict_item prior_probs k = Ok p) ∨
            dict_item prior_probs k = Raise KeyError) as [[p ->]| ->]
      by (unfold dict_item; destruct (dict_get prior_probs k); eauto);
      [|by right].
    rewrite result_left_id. unfold dict_item.
    destruct (dict_get action_counts k) as [n|] eqn:Hn; [|by right].
    rewrite result_left_id.
    assert (0 <= n) as Hn0.
    { eapply (proj1 (Forall_forall _ _) Hpos), dict_get_value, Hn. }
    rewrite float_div_Ok by lra. left. eauto.
  - apply Exists_exists. exists a. split; [done|].
    destruct (proj1 (dict_get_is_Some _ _) Ha) as [q Hq].
    rewrite (dict_item_Some _ _ _ Hq), result_left_id.
    unfold dict_item. destruct (dict_get prior_probs a) eqn:Hp; [|done].
    exfalso. apply Hmiss, dict_get_is_Some. eauto.
Qed.

Lemma argmax_from_spec (best : K) (best_v : R) (d : dict K R) :
  (argmax_from best best_v d = best ∧ Forall (fun kv => kv.2 <= best_v) d) ∨
  (∃ i v, d !! i = Some (argmax_from best best_v d, v) ∧ best_v < v ∧
          (∀ j kv, d !! j = Some kv → kv.2 <= v) ∧
          (∀ j kv, (j < i)%nat → d !! j = Some kv → kv.2 < v)).
Proof.
  revert best best_v. induction d as [|[k1 v1] d IH]; intros best best_v.
  - left. by split.
  - cbn [argmax_from]. destruct (Rlt_dec best_v v1) as [Hlt|Hge].
    + right. destruct (IH k1 v1) as [[-> Hall]|(i & v & Hi & Hv & Hmax & Hfirst)].
      * exists 0%nat, v1. split; [done|]. split; [done|]. split.
        -- intros [|j] kv Hj; simplify_eq/=; [lra|].
           eapply (proj1 (Forall_forall _ _) Hall), list_elem_of_lookup_2, Hj.
        -- intros j kv Hj. lia.
      * exists (S i), v. split; [done|]. split; [lra|]. split.
        -- intros [|j] kv Hj; simplify_eq/=; [lra|by eapply Hmax].
        -- intros [|j] kv Hji Hj; simplify_eq/=; [lra|].
           eapply Hfirst; [|done]. lia.
    + destruct (IH best best_v) as [[-> Hall]|(i & v & Hi & Hv & Hmax & Hfirst)].
      * left. split; [done|]. constructor; [simpl; lra|done].
      * right. exists (S i), v. split; [done|]. split; [done|]. split.
        -- intros [|j] kv Hj; simplify_eq/=; [lra|by eapply Hmax].
        -- intros [|j] kv Hji Hj; simplify_eq/=; [lra|].
           eapply Hfirst; [|done]. lia.
Qed.

(** X8.  The action [select] descends into, [max(ucb, key=ucb.get)]: on an
    empty dictionary it raises [ValueError]; otherwise it is the key of an
    entry whose score no entry exceeds, and the first such entry in
    iteration order: every entry before it has a strictly smaller score. *)
Theorem dict_argmax_first_maximum (d : dict K R) :
  (d = [] → dict_argmax d = Raise ValueError) ∧
  (∀ k, dict_argmax d = Ok k →
        ∃ i v, d !! i = Some (k, v) ∧
               (∀ j kv, d !! j = Some kv → kv.2 <= v) ∧
               (∀ j kv, (j < i)%nat → d !! j = Some kv → kv.2 < v)).
Proof.
  split; [by intros ->|].
  destruct d as [|[k0 v0] d]; [done|]. intros k [= <-].
  destruct (argmax_from_spec k0 v0 d)
    as [[-> Hall]|(i & v & Hi & Hv & Hmax & Hfirst)].
  - exists 0%nat, v0. split; [done|]. split.
    + intros [|j] kv Hj; simplify_eq/=; [lra|].
      eapply (proj1 (Forall_forall _ _) Hall), list_elem_of_lookup_2, Hj.
    + intros j kv Hj. lia.
  - exists (S i), v. split; [done|]. split.
    + intros [|j] kv Hj; simplify_eq/=; [lra|by eapply Hmax].
    + intros [|j] kv Hji Hj; simplify_eq/=; [lra|].
      eapply Hfirst; [|done]. lia.
Qed.

Lemma fold_left_Rmin_nonneg l x :
  0 <= x → Forall (fun v => 0 <= v) l → 0 <= fold_left Rmin l x.
Proof.
  revert x. induction l as [|y l IH]; intros x Hx Hl; simpl; [done|].
  inversion_clear Hl. apply IH; [|done]. by apply Rmin_glb.
Qed.

Lemma fold_left_Rmax_ge l x : x <= fold_left Rmax l x.
Proof.
  revert x. induction l as [|y l IH]; intros x; simpl; [lra|].
  etransitivity; [|apply IH]. apply Rmax_l.
Qed.

Lemma fold_left_Rmax_upper l x y :
  y ∈ x :: l → y <= fold_left Rmax l x.
Proof.
  revert x. induction l as [|z l IH]; intros x.
  - intros ->%list_elem_of_singleton. simpl. lra.
  - intros [->|[->|Hin]%elem_of_cons]%elem_of_cons; simpl.
    + etransitivity; [|apply fold_left_Rmax_ge]. apply Rmax_l.
    + etransitivity; [|apply fold_left_Rmax_ge]. apply Rmax_r.
    + apply IH. by right.
Qed.

Lemma fold_left_Rmax_elem l x : fold_left Rmax l x ∈ x :: l.
Proof.
  revert x. induction l as [|y l IH]; intros x; simpl; [by left|].
  pose proof (IH (Rmax x y)) as [Heq|Hin]%elem_of_cons; [|by do 2 right].
  rewrite Heq. unfold Rmax. destruct (Rle_dec x y); [right|]; by left.
Qed.

Lemma Rdiv_nonneg x y : 0 <= x → 0 < y → 0 <= x / y.
Proof.
  intros Hx Hy. unfold Rdiv. apply Rmult_le_pos; [done|].
  by apply Rlt_le, Rinv_0_lt_compat.
Qed.

Lemma Rdiv_le_one x y : x <= y → 0 < y → x / y <= 1.
Proof.
  intros Hxy Hy. apply (Rmult_le_reg_r y); [done|].
  replace (x / y * y) with x by (field; lra). lra.
Qed.

Lemma py_sum_nonneg l : Forall (fun v => 0 <= v) l → 0 <= py_sum l.
Proof.
  induction 1 as [|x l Hx _ IH]; [rewrite py_sum_nil; lra|].
  rewrite py_sum_cons. lra.
Qed.

Lemma py_sum_ge_elem l y :
  Forall (fun v => 0 <= v) l → y ∈ l → y <= py_sum l.
Proof.
  induction 1 as [|x l Hx Hl IH]; [by intros ?%elem_of_nil|].
  rewrite py_sum_cons. pose proof (py_sum_nonneg l Hl).
  intros [->|Hin]%elem_of_cons; [lra|]. specialize (IH Hin). lra.
Qed.

Lemma Rpower_pos x y : 0 < Rpower x y.
Proof. unfold Rpower. apply exp_pos. Qed.

Lemma float_pow_unit_interval x e :
  0 < e → 0 <= x →
  float_pow x e = Ok (if Rlt_dec 0 x then Rpower x e else 0).
Proof.
  intros He Hx. unfold float_pow. destruct (Rlt_dec 0 x); [done|].
  destruct (Req_dec_T x 0); [|lra]. by destruct (Rlt_dec 0 e).
Qed.

Lemma extremise_distribution_total (d : dict K R) (tau : R) :
  0 < tau →
  Forall (fun v => 0 <= v) (dict_values d) →
  Exists (fun v => 0 < v) (dict_values d) →
  ∃ d', extremise_distribution d tau = Ok d' ∧
        dict_keys d' = dict_keys d ∧
        Forall (fun v => 0 <= v <= 1) (dict_values d') ∧
        py_sum (dict_values d') = 1.
Proof.
  intros Htau Hnonneg (v1 & Hv1 & Hpos1)%Exists_exists.
  pose proof (proj1 (Forall_forall _ _) Hnonneg) as Hnn. simpl in Hnn.
  unfold extremise_distribution. destruct (Rlt_dec 0 tau); [|lra].
  destruct (dict_values d) as [|x l] eqn:Hvals; [by apply elem_of_nil in Hv1|].
  cbn [py_min py_max]. rewrite !result_left_id.
  set (mx := fold_left Rmax l x).
  assert (0 <= fold_left Rmin l x) as Hmin.
  { inversion_clear Hnonneg. by apply fold_left_Rmin_nonneg. }
  destruct (Rle_dec 0 (fold_left Rmin l x)); [|lra].
  assert (∀ y, y ∈ x :: l → y <= mx) as Hupper
    by (intros y; apply fold_left_Rmax_upper).
  assert (0 < mx) as Hmx by (specialize (Hupper v1 Hv1); lra).
  assert (0 < 1 / tau) as He by (by apply Rdiv_lt_0_compat; [lra|]).
  set (pw := fun y : R => if Rlt_dec 0 y then Rpower y (1 / tau) else 0).
  assert (∀ y, 0 <= pw y) as Hpw_nonneg.
  { intros y. unfold pw. destruct (Rlt_dec 0 y); [|lra].
    apply Rlt_le, Rpower_pos. }
  rewrite (mapM_result_Ok _ (fun kv => (kv.1, kv.2 / mx))); cycle 1.
  { apply Forall_forall. intros [k v] _. by rewrite float_div_Ok by lra. }
  rewrite result_left_id.
  rewrite (dict_values_fmap_value (fun v => v / mx)), Hvals.
  assert (∀ y, y ∈ x :: l → 0 <= y / mx) as Hresc.
  { intros y Hy. apply Rdiv_nonneg; [by apply Hnn|done]. }
  rewrite (mapM_result_Ok _ pw); cycle 1.
  { apply Forall_forall. intros y (v & -> & Hv)%list_elem_of_fmap.
    rewrite float_div_Ok, result_left_id by lra.
    apply float_pow_unit_interval; [done|by apply Hresc]. }
  rewrite result_left_id.
  set (powers := pw <$> ((fun v => v / mx) <$> (x :: l))).
  assert (Forall (fun p => 0 <= p) powers) as Hpowers.
  { apply Forall_forall. intros p (y & -> & _)%list_elem_of_fmap.
    apply Hpw_nonneg. }
  assert (0 < py_sum powers) as Htotal.
  { assert (mx ∈ x :: l) as Hin by apply fold_left_Rmax_elem.
    assert (pw (mx / mx) ∈ powers) as Hp.
    { unfold powers. apply (list_elem_of_fmap_2 pw).
      by apply (list_elem_of_fmap_2 (fun v => v / mx)). }
    pose proof (py_sum_ge_elem _ _ Hpowers Hp) as Hge.
    assert (0 < pw (mx / mx)); [|lra].
    unfold pw. destruct (Rlt_dec 0 (mx / mx)) as [_|Hn]; [apply Rpower_pos|].
    exfalso. apply Hn. by apply Rdiv_lt_0_compat. }
  rewrite (mapM_result_Ok _ (fun kv => (kv.1, pw kv.2 / py_sum powers)));
    cycle 1.
  { apply Forall_forall. intros [k y] Hy.
    apply list_elem_of_fmap in Hy as ([k' v] & [= -> ->] & Hv).
    assert (v ∈ x :: l) as Hvin.
    { rewrite <- Hvals. apply list_elem_of_fmap. by exists (k', v). }
    rewrite float_div_Ok, result_left_id by lra.
    rewrite (float_pow_unit_interval _ _ He (Hresc v Hvin)), result_left_id.
    fold (pw (v / mx)). by rewrite float_div_Ok by lra. }
  eexists. split; [reflexivity|]. split.
  { rewrite (dict_keys_fmap_value (fun kv => pw kv.2 / py_sum powers)).
    apply (dict_keys_fmap_value (fun kv => kv.2 / mx)). }
  rewrite (dict_values_fmap_value (fun y => pw y / py_sum powers)).
  rewrite (dict_values_fmap_value (fun v => v / mx)), Hvals.
  rewrite (list_fmap_compose pw (fun p => p / py_sum powers)).
  fold powers. split.
  - apply Forall_forall. intros q (p & -> & Hp)%list_elem_of_fmap.
    pose proof (proj1 (Forall_forall _ _) Hpowers p Hp) as Hp0. simpl in Hp0.
    pose proof (py_sum_ge_elem _ _ Hpowers Hp) as Hp1. split.
    + by apply Rdiv_nonneg.
    + by apply Rdiv_le_one.
  - rewrite py_sum_scale. field. lra.
Qed.

(** X9.  For a positive temperature and a distribution whose values are not
    negative and not all zero, [extremise_distribution] returns a
    dictionary with the keys of its argument, in the same order, whose
    values lie between zero and one and sum to one. *)
Theorem extremise_distribution_sums_to_one (d : dict K R) (tau : R) :
  0 < tau →
  Forall (fun v => 0 <= v) (dict_values d) →
  Exists (fun v => 0 < v) (dict_values d) →
  ∃ d', extremise_distribution d tau = Ok d' ∧
        dict_keys d' = dict_keys d ∧
        Forall (fun v => 0 <= v <= 1) (dict_values d') ∧
        py_sum (dict_values d') = 1.
Proof. apply extremise_distribution_total. Qed.

Lemma extremise_distribution_Ok_inv (d d' : dict K R) (tau : R) :
  extremise_distribution d tau = Ok d' →
  0 < tau ∧ Forall (fun v => 0 <= v) (dict_values d) ∧
  Exists (fun v => 0 < v) (dict_values d).
Proof.
  unfold extremise_distribution. destruct (Rlt_dec 0 tau) as [Htau|]; [|done].
  destruct d as [|[k x] d]; [done|].
  unfold dict_values. rewrite fmap_cons. cbn [py_min py_max snd].
  rewrite !result_left_id.
  destruct (Rle_dec 0 (fold_left Rmin d.*2 x)) as [Hmin|]; [|done].
  cbn [mapM]. intros Hrun. split; [done|].
  assert (Forall (fun v => 0 <= v) (x :: d.*2)) as Hnn.
  { apply Forall_forall. intros v [->|Hv]%elem_of_cons.
    - pose proof (fold_left_Rmin_le d.*2 x). lra.
    - pose proof (fold_left_Rmin_lower d.*2 x v Hv). lra. }
  split; [done|].
  destruct (Req_dec_T (fold_left Rmax d.*2 x) 0) as [Hzero|Hne].
  { rewrite Hzero, float_div_zero in Hrun. done. }
  apply Exists_exists. exists (fold_left Rmax d.*2 x).
  split; [apply fold_left_Rmax_elem|].
  pose proof (fold_left_Rmax_ge d.*2 x).
  apply Forall_cons in Hnn as [Hx _]. lra.
Qed.
End DistributionExtras.

(** ** Expansion, selection and backup on the heap *)

Section SearchExtras.
Context {Action State : Type} `{EqDecision Action} {RS : RandomSource}.
Local Abbreviation node := (MCTSNode Action State).
Local Abbreviation store := (store Action State).
Local Abbreviation M := (M Action State).

Lemma new_children_run (child_states : dict Action State)
    (child_players : dict Action Z) (child_terminals : dict Action bool)
    keys (s : store) :
  Forall (fun a => is_Some (dict_get child_states a) ∧
                   is_Some (dict_get child_players a) ∧
                   is_Some (dict_get child_terminals a)) keys →
  ∃ kids fresh,
    mapM (fun action =>
            st ← lift (dict_item child_states action);
            pl ← lift (dict_item child_players action);
            tm ← lift (dict_item child_terminals action);
            child ← new_node (MCTSNode_init st pl tm);
            mret (action, child)) keys s
    = Ok (kids, {| heap := heap s ++ fresh; rng := rng s |}) ∧
    length kids = length keys ∧ length fresh = length keys ∧
    ∀ i a, keys !! i = Some a →
      ∃ st pl tm,
        dict_get child_states a = Some st ∧
        dict_get child_players a = Some pl ∧
        dict_get child_terminals a = Some tm ∧
        kids !! i = Some (a, (length (heap s) + i)%nat) ∧
        fresh !! i = Some (MCTSNode_init st pl tm).
Proof.
  revert s. induction keys as [|k keys IH]; intros s Hall; cbn [mapM].
  - exists [], []. rewrite app_nil_r. by destruct s.
  - apply Forall_cons in Hall as [([st Hst] & [pl Hpl] & [tm Htm]) Hrest].
    destruct (IH {| heap := heap s ++ [MCTSNode_init st pl tm]; rng := rng s |}
                 Hrest) as (kids & fresh & Hrun & Hlk & Hlf & Hspec).
    cbn [heap rng] in *.
    exists ((k, length (heap s)) :: kids), (MCTSNode_init st pl tm :: fresh).
    split; [|split; [simpl; by rewrite Hlk|split; [simpl; by rewrite Hlf|]]].
    + erewrite M_bind_run; cycle 1.
      { erewrite M_bind_run by apply lift_run, dict_item_Some, Hst.
        erewrite M_bind_run by apply lift_run, dict_item_Some, Hpl.
        erewrite M_bind_run by apply lift_run, dict_item_Some, Htm.
        reflexivity. }
      erewrite M_bind_run by exact Hrun.
      by rewrite <- app_assoc.
    + intros [|i] a Hi; simplify_eq/=.
      * exists st, pl, tm. by rewrite Nat.add_0_r.
      * destruct (Hspec i a Hi) as (st' & pl' & tm' & ? & ? & ? & Hk & Hf).
        exists st', pl', tm'. rewrite length_app in Hk. simpl in Hk.
        replace (length (heap s) + S i)%nat
          with (length (heap s) + 1 + i)%nat by lia.
        done.
Qed.

Lemma expand_run self prior (child_states : dict Action State)
    (child_players : dict Action Z) (child_terminals : dict Action bool)
    (s : store) n :
  heap s !! self = Some n →
  is_leaf n = true →
  (∀ a, a ∈ dict_keys child_states →
        a ∈ dict_keys child_players ∧ a ∈ dict_keys child_terminals) →
  ∃ kids fresh,
    expand self prior child_states child_players child_terminals s
    = Ok (tt, {| heap := <[self := set_children kids (set_prior_probs prior n)]>
                           (heap s) ++ fresh;
                 rng := rng s |}) ∧
    length kids = length child_states ∧ length fresh = length child_states ∧
    ∀ i a, dict_keys child_states !! i = Some a →
      ∃ st pl tm,
        dict_get child_states a = Some st ∧
        dict_get child_players a = Some pl ∧
        dict_get child_terminals a = Some tm ∧
        kids !! i = Some (a, (length (heap s) + i)%nat) ∧
        fresh !! i = Some (MCTSNode_init st pl tm).
Proof.
  intros Hn Hleaf Hkeys.
  pose proof (lookup_lt_Some _ _ _ Hn) as Hlt.
  destruct (new_children_run child_states child_players child_terminals
              (dict_keys child_states)
              {| heap := <[self := set_prior_probs prior n]> (heap s);
                 rng := rng s |}) as (kids & fresh & Hrun & Hlk & Hlf & Hspec).
  { apply Forall_forall. intros a Ha. destruct (Hkeys a Ha) as [Hp Ht].
    by rewrite <- !dict_get_is_Some. }
  cbn [heap rng] in *. rewrite length_insert in Hspec.
  unfold dict_keys in Hlk, Hlf. rewrite length_fmap in Hlk, Hlf.
  exists kids, fresh. split; [|done].
  unfold expand. erewrite M_bind_run by (by apply load_run). rewrite Hleaf.
  erewrite M_bind_run by (by apply update_run).
  erewrite M_bind_run by exact Hrun.
  erewrite update_run; cycle 1.
  { cbn [heap]. rewrite lookup_app_l by (by rewrite length_insert).
    by apply list_lookup_insert_eq. }
  cbn [heap rng].
  by rewrite insert_app_l, list_insert_insert_eq by (by rewrite length_insert).
Qed.

(** X10.  [expand] on a leaf, given child players and child terminals for
    every action of the child states: it returns, makes no draw, and leaves
    every other node as it was; the node gets the prior it was handed and
    one child per action, in the order of the child states; the children
    are new nodes at the end of the heap, each built by [MCTSNode.__init__]
    from the state, the player and the terminal flag looked up for its
    action; the statistics, the state, the player and the terminal flag of
    the node itself stay. *)
Theorem expand_leaf_effect self prior (child_states : dict Action State)
    (child_players : dict Action Z) (child_terminals : dict Action bool)
    (s : store) n :
  heap s !! self = Some n →
  is_leaf n = true →
  (∀ a, a ∈ dict_keys child_states →
        a ∈ dict_keys child_players ∧ a ∈ dict_keys child_terminals) →
  ∃ s' n',
    expand self prior child_states child_players child_terminals s
    = Ok (tt, s') ∧
    rng s' = rng s ∧
    length (heap s') = (length (heap s) + length child_states)%nat ∧
    (∀ x, x ≠ self → (x < length (heap s))%nat →
          heap s' !! x = heap s !! x) ∧
    heap s' !! self = Some n' ∧
    prior_probs n' = prior ∧
    length (children n') = length child_states ∧
    (Q n' = Q n ∧ W n' = W n ∧ N n' = N n ∧ is_terminal n' = is_terminal n ∧
     game_state n' = game_state n ∧ player n' = player n) ∧
    ∀ i a, dict_keys child_states !! i = Some a →
      ∃ st pl tm,
        dict_get child_states a = Some st ∧
        dict_get child_players a = Some pl ∧
        dict_get child_terminals a = Some tm ∧
        children n' !! i = Some (a, (length (heap s) + i)%nat) ∧
        heap s' !! (length (heap s) + i)%nat = Some (MCTSNode_init st pl tm).
Proof.
  intros Hn Hleaf Hkeys.
  pose proof (lookup_lt_Some _ _ _ Hn) as Hlt.
  destruct (expand_run self prior child_states child_players child_terminals
              s n Hn Hleaf Hkeys) as (kids & fresh & Hrun & Hlk & Hlf & Hspec).
  eexists _, (set_children kids (set_prior_probs prior n)).
  split; [exact Hrun|]. cbn [heap rng].
  split; [done|]. split; [by rewrite length_app, length_insert, Hlf|].
  split.
  { intros x Hx Hxlt. rewrite lookup_app_l by (by rewrite length_insert).
    by apply list_lookup_insert_ne. }
  split.
  { rewrite lookup_app_l by (by rewrite length_insert).
    by apply list_lookup_insert_eq. }
  split; [done|]. split; [done|]. split; [done|].
  intros i a Hi.
  destruct (Hspec i a Hi) as (st & pl & tm & Hst & Hpl & Htm & Hk & Hf).
  exists st, pl, tm. do 4 (split; [done|]).
  rewrite lookup_app_r by (rewrite length_insert; lia).
  rewrite length_insert.
  by replace (length (heap s) + i - length (heap s))%nat with i by lia.
Qed.

Lemma new_children_KeyError (child_states : dict Action State)
    (child_players : dict Action Z) (child_terminals : dict Action bool)
    keys a (s : store) :
  Forall (fun k => is_Some (dict_get child_states k)) keys →
  a ∈ keys →
  dict_get child_players a = None ∨ dict_get child_terminals a = None →
  mapM (fun action =>
          st ← lift (dict_item child_states action);
          pl ← lift (dict_item child_players action);
          tm ← lift (dict_item child_terminals action);
          child ← new_node (MCTSNode_init st pl tm);
          mret (action, child)) keys s = Raise KeyError.
Proof.
  intros Hall Ha Hmiss. revert s.
  induction Hall as [|k keys [st Hst] _ IH]; intros s;
    [by apply elem_of_nil in Ha|].
  cbn [mapM].
  assert (∀ {A} (m : M A) (f : A → M (list (Action * ref))) s0,
            m s0 = Raise KeyError → (m ≫= f) s0 = Raise KeyError) as Hraise.
  { intros A m f s0 Hm. unfold mbind, M_bind. by rewrite Hm. }
  destruct (dict_get child_players k) as [pl|] eqn:Hpl; cycle 1.
  { apply Hraise.
    erewrite M_bind_run by apply lift_run, dict_item_Some, Hst.
    unfold dict_item. by rewrite Hpl. }
  destruct (dict_get child_terminals k) as [tm|] eqn:Htm; cycle 1.
  { apply Hraise.
    erewrite M_bind_run by apply lift_run, dict_item_Some, Hst.
    erewrite M_bind_run by apply lift_run, dict_item_Some, Hpl.
    unfold dict_item. by rewrite Htm. }
  apply elem_of_cons in Ha as [->|Ha]; [destruct Hmiss; congruence|].
  erewrite M_bind_run; cycle 1.
  { erewrite M_bind_run by apply lift_run, dict_item_Some, Hst.
    erewrite M_bind_run by apply lift_run, dict_item_Some, Hpl.
    erewrite M_bind_run by apply lift_run, dict_item_Some, Htm.
    reflexivity. }
  apply Hraise. by apply IH.
Qed.

(** X11.  The failures of [expand].  On a node that has children it raises
    [AssertionError].  On a leaf it raises [KeyError] when the child players
    or the child terminals lack an action of the child states.  And a node
    is expanded at most once: after an [expand] that gave the node at least
    one child, every further [expand] of it raises [AssertionError]. *)
Theorem expand_failures self prior (child_states : dict Action State)
    (child_players : dict Action Z) (child_terminals : dict Action bool)
    (s : store) n :
  heap s !! self = Some n →
  (is_leaf n = false →
   expand self prior child_states child_players child_terminals s
   = Raise AssertionError) ∧
  (is_leaf n = true →
   ∀ a, a ∈ dict_keys child_states →
        a ∉ dict_keys child_players ∨ a ∉ dict_keys child_terminals →
        expand self prior child_states child_players child_terminals s
        = Raise KeyError) ∧
  (∀ u s', expand self prior child_states child_players child_terminals s
           = Ok (u, s') →
           child_states ≠ [] →
           ∀ prior' (child_states' : dict Action State) child_players'
             child_terminals',
             expand self prior' child_states' child_players' child_terminals' s'
             = Raise AssertionError).
Proof.
  intros Hn. pose proof (lookup_lt_Some _ _ _ Hn) as Hlt.
  split; [|split].
  - intros Hleaf. unfold expand.
    erewrite M_bind_run by (by apply load_run). by rewrite Hleaf.
  - intros Hleaf a Ha Hmiss. unfold expand.
    erewrite M_bind_run by (by apply load_run). rewrite Hleaf.
    erewrite M_bind_run by (by apply update_run).
    unfold mbind at 1, M_bind at 1.
    rewrite (new_children_KeyError child_states child_players child_terminals
               (dict_keys child_states) a); [done| |done|].
    + apply Forall_forall. intros k Hk. by apply dict_get_is_Some.
    + rewrite !dict_get_is_Some, <- !eq_None_not_Some in Hmiss. done.
  - intros u s' Hrun Hne prior' child_states' child_players' child_terminals'.
    apply expand_Ok in Hrun
      as (n0 & kids & fresh & Hn0 & _ & Hheap & _ & Hk1 & _ & _ & _).
    unfold expand. erewrite M_bind_run; cycle 1.
    { apply load_run. rewrite Hheap.
      rewrite lookup_app_l by (by rewrite length_insert).
      by apply list_lookup_insert_eq. }
    assert (is_leaf (set_children kids (set_prior_probs prior n0)) = false)
      as ->; [|done].
    unfold is_leaf. cbn [children set_children]. apply bool_decide_eq_false.
    intros Hlen. apply Hne. apply (f_equal length) in Hk1.
    unfold dict_keys in Hk1. rewrite !length_fmap in Hk1.
    apply nil_length_inv. lia.
Qed.
Lemma selection_linked (h : list node) c_puct epsilon alpha g r nodes
    (actions : list Action) g' :
  selection h c_puct epsilon alpha g r nodes actions g' →
  nodes !! 0%nat = Some r ∧
  ∀ i a, actions !! i = Some a →
    ∃ x n y, nodes !! i = Some x ∧ h !! x = Some n ∧ is_leaf n = false ∧
             dict_get (children n) a = Some y ∧ nodes !! S i = Some y.
Proof.
  induction 1 as [g r n Hn Hleaf
                 |g r n qs ns ucb a c nodes actions g' Hn Hleaf _ _ _ _ Hc _ IH].
  - split; [done|]. by intros i a ?.
  - destruct IH as [Hhead IH]. split; [done|].
    intros [|i] b Hb; simplify_eq/=.
    + exists r, n, c. done.
    + destruct (IH i b Hb) as (x & m & y & ? & ? & ? & ? & ?).
      exists x, m, y. done.
Qed.

(** X12.  The two lists [select] returns: the nodes start with the starting
    node and are one more than the actions; the node at each position but
    the last has children, and the node after it is its child for the
    action at that position; the last node is a leaf. *)
Theorem select_path_linked (fuel : nat) (starting_node : ref)
    (c_puct epsilon alpha : R) (s : store) nodes actions s' :
  select fuel starting_node c_puct epsilon alpha s = Ok ((nodes, actions), s') →
  nodes !! 0%nat = Some starting_node ∧
  length nodes = S (length actions) ∧
  (∀ i a, actions !! i = Some a →
     ∃ x n y, nodes !! i = Some x ∧ heap s !! x = Some n ∧
              is_leaf n = false ∧ dict_get (children n) a = Some y ∧
              nodes !! S i = Some y) ∧
  ∃ leaf n, last nodes = Some leaf ∧ heap s !! leaf = Some n ∧
            is_leaf n = true.
Proof.
  intros (path & taken & -> & -> & Hsel)%select_loop_selection.
  simpl in *.
  destruct (selection_linked _ _ _ _ _ _ _ _ _ Hsel) as [Hhead Hlink].
  destruct (selection_shape _ _ _ _ _ _ _ _ _ Hsel) as [Hlen _].
  destruct (selection_last _ _ _ _ _ _ _ _ _ Hsel)
    as (rest & leaf & n & _ & Hlast & Hn & Hleaf).
  split; [done|]. split; [done|]. split; [done|]. eauto.
Qed.

(** The number of times a reference occurs in a path. *)
Lemma backup_from_counts pp path values (s : store) u s' :
  backup_from pp path values s = Ok (u, s') →
  ∀ x n, heap s !! x = Some n →
    ∃ n', heap s' !! x = Some n' ∧
          N n' = N n + INR (length (filter (fun y => y = x) path)).
Proof.
  revert pp s. induction path as [|y path IH]; intros pp s.
  - intros [_ ->]%M_ret_Ok x n Hx. exists n. split; [done|]. simpl. lra.
  - rewrite backup_from_cons.
    destruct (heap s !! y) as [ny|] eqn:Hy; [|done].
    destruct (backed_up pp values ny) as [ny'| |] eqn:Hup; [|done..].
    intros Hrun x n Hx.
    apply backed_up_same_position in Hup as [_ HN].
    pose proof (lookup_lt_Some _ _ _ Hy) as Hlt.
    destruct (decide (y = x)) as [->|Hne].
    + rewrite filter_cons_True by done.
      destruct (IH _ _ Hrun x ny') as (n' & Hn' & HN').
      { cbn [heap]. by apply list_lookup_insert_eq. }
      exists n'. split; [done|]. simplify_eq.
      cbn [length]. rewrite S_INR. lra.
    + rewrite filter_cons_False by done.
      apply (IH _ _ Hrun x n). cbn [heap]. by rewrite list_lookup_insert_ne.
Qed.

Lemma backup_from_valid pp path values (s : store) u s' :
  backup_from pp path values s = Ok (u, s') →
  Forall (fun x => is_Some (heap s !! x)) path.
Proof.
  revert pp s. induction path as [|y path IH]; intros pp s; [done|].
  rewrite backup_from_cons.
  destruct (heap s !! y) as [ny|] eqn:Hy; [|done].
  destruct (backed_up pp values ny) as [ny'| |] eqn:Hup; [|done..].
  intros Hall%IH. constructor; [by rewrite Hy|].
  eapply Forall_impl; [exact Hall|]. cbn [heap]. intros x.
  rewrite !lookup_lt_is_Some, length_insert. done.
Qed.

(** X13.  What [backup] leaves alone.  It makes no draw and creates no node;
    a node that is not on the path is as it was; a node keeps its children,
    its prior, its state, its player and its terminal flag; and the visit
    count of every node grows by the number of times the node occurs on the
    path. *)
Theorem backup_frame_and_counts path values (s : store) u s' :
  backup path values s = Ok (u, s') →
  rng s' = rng s ∧ length (heap s') = length (heap s) ∧
  (∀ x, x ∉ path → heap s' !! x = heap s !! x) ∧
  (∀ x n, heap s !! x = Some n →
     ∃ n', heap s' !! x = Some n' ∧ same_position n n' ∧
           N n' = N n + INR (length (filter (fun y => y = x) path))).
Proof.
  intros Hrun.
  destruct (backup_from_frame _ _ _ _ _ _ Hrun) as (Hrng & Hlen & Hout & Hpos).
  do 3 (split; [done|]). intros x n Hx.
  destruct (Hpos x n Hx) as (n' & Hn' & Hsame).
  destruct (backup_from_counts _ _ _ _ _ _ Hrun x n Hx) as (n'' & Hn'' & HN).
  exists n'. split; [done|]. split; [done|]. congruence.
Qed.

(** X14.  On a path without repetition whose recorded players are truthy
    (not [0]), a [backup] that returns has done this to the node at each
    position: its visit count is one more; at the first position the
    cumulative and the mean value are as before; at any other position the
    cumulative value has grown by the value-map entry of the player
    recorded at the node before, and the mean value is the new cumulative
    value divided by the new visit count. *)
Theorem backup_truthy_players path values (s : store) u s' :
  NoDup path →
  Forall (fun x => ∀ n, heap s !! x = Some n → player n ≠ 0%Z) path →
  backup path values s = Ok (u, s') →
  ∀ i x n, path !! i = Some x → heap s !! x = Some n →
    ∃ n', heap s' !! x = Some n' ∧ N n' = N n + 1 ∧
          match i with
          | O => W n' = W n ∧ Q n' = Q n
          | S j =>
              ∃ y m v, path !! j = Some y ∧ heap s !! y = Some m ∧
                       dict_get values (player m) = Some v ∧
                       W n' = W n + v ∧ Q n' = W n' / N n'
          end.
Proof.
  intros Hnd Hplayers Hrun i x n Hi Hx.
  destruct (backup_path_updates _ _ _ _ _ Hnd Hrun i x n Hi Hx)
    as (n' & Hn' & HN & _ & Hrest).
  exists n'. split; [done|]. split; [done|].
  destruct i as [|j]; [done|].
  assert (is_Some (path !! j)) as [y Hy].
  { apply lookup_lt_is_Some. apply lookup_lt_Some in Hi. lia. }
  assert (is_Some (heap s !! y)) as [m Hm].
  { apply (proj1 (Forall_forall _ _) (backup_from_valid _ _ _ _ _ _ Hrun)).
    eapply list_elem_of_lookup_2, Hy. }
  pose proof (proj1 (Forall_forall _ _) Hplayers y
                (list_elem_of_lookup_2 _ _ _ Hy) m Hm) as Hpl.
  destruct (Hrest y m Hy Hm Hpl) as (v & Hv & HW & HQ).
  exists y, m, v. done.
Qed.
Lemma backed_up_cases pp values (n : node) :
  0 <= N n →
  (∃ p, pp = Some p ∧ p ≠ 0%Z ∧ dict_get values p = None ∧
        backed_up pp values n = Raise KeyError) ∨
  (∃ n', backed_up pp values n = Ok n' ∧
         ¬ ∃ p, pp = Some p ∧ p ≠ 0%Z ∧ dict_get values p = None).
Proof.
  intros HN. unfold backed_up. destruct pp as [p|]; cycle 1.
  { right. eexists. split; [done|]. by intros (p & ? & _). }
  destruct (Z.eqb_spec p 0) as [->|Hp]; cbn [negb].
  { right. eexists. split; [done|]. intros (p & [= <-] & ? & _). done. }
  unfold dict_item. destruct (dict_get values p) as [v|] eqn:Hv.
  - right. rewrite result_left_id. cbn [W N set_W set_N].
    rewrite float_div_Ok by lra. rewrite result_left_id.
    eexists. split; [done|]. intros (p' & [= <-] & _ & ?). congruence.
  - left. exists p. done.
Qed.

Lemma backup_from_KeyError pp path values (s : store) :
  Forall (fun x => ∃ n, heap s !! x = Some n ∧ 0 <= N n) path →
  (path ≠ [] ∧ ∃ p, pp = Some p ∧ p ≠ 0%Z ∧ dict_get values p = None) ∨
  (∃ i x n, path !! i = Some x ∧ heap s !! x = Some n ∧
            (S i < length path)%nat ∧
            player n ≠ 0%Z ∧ dict_get values (player n) = None) →
  backup_from pp path values s = Raise KeyError.
Proof.
  revert pp s. induction path as [|y path IH]; intros pp s Hall Hbad.
  { destruct Hbad as [[? _]|(i & x & n & ? & _)]; done. }
  apply Forall_cons in Hall as [(ny & Hy & HN) Hrest].
  rewrite backup_from_cons, Hy.
  pose proof (lookup_lt_Some _ _ _ Hy) as Hlt.
  destruct (backed_up_cases pp values ny HN)
    as [(p & _ & _ & _ & ->)|(ny' & Hup & Hgood)]; [done|].
  rewrite Hup.
  pose proof (backed_up_player _ _ _ _ Hup) as Hpl.
  apply backed_up_same_position in Hup as [_ HN'].
  apply IH; cbn [heap].
  - eapply Forall_impl; [exact Hrest|]. cbn beta.
    intros x (n & Hx & HNx). destruct (decide (x = y)) as [->|Hne].
    + exists ny'. rewrite list_lookup_insert_eq by done.
      split; [done|]. simplify_eq. lra.
    + exists n. by rewrite list_lookup_insert_ne.
  - destruct Hbad as [[_ Hbad]|(i & x & n & Hi & Hx & Hlen & Hp & Hv)]; [done|].
    destruct i as [|i]; simplify_eq/=.
    + left. split; [by destruct path; simpl in *; [lia|]|].
      exists (player ny). done.
    + right. destruct (decide (x = y)) as [->|Hne].
      * exists i, y, ny'. rewrite list_lookup_insert_eq by done.
        simplify_eq. rewrite Hpl. split; [done|]. split; [done|].
        split; [lia|done].
      * exists i, x, n. rewrite list_lookup_insert_ne by done.
        split; [done|]. split; [done|]. split; [lia|done].
Qed.

(** X15.  [backup] raises [KeyError] when the value map lacks the player
    recorded at a node of the path that has a successor on the path, that
    player being truthy (not [0]); the path holds nodes of the heap with
    non-negative visit counts. *)
Theorem backup_missing_player path values (s : store) i x n :
  Forall (fun y => ∃ m, heap s !! y = Some m ∧ 0 <= N m) path →
  path !! i = Some x →
  (S i < length path)%nat →
  heap s !! x = Some n →
  player n ≠ 0%Z →
  player n ∉ dict_keys values →
  backup path values s = Raise KeyError.
Proof.
  intros Hall Hi Hlen Hx Hp Hv. apply backup_from_KeyError; [done|].
  right. exists i, x, n. do 4 (split; [done|]).
  apply eq_None_not_Some. by rewrite <- dict_get_is_Some.
Qed.

Lemma py_sum_mixed {K : Type} (d : dict K R) (noise : list R) epsilon :
  length noise = length d →
  py_sum (dict_values
            (zip_with (fun kv z => (kv.1, (1 - epsilon) * kv.2 + epsilon * z))
                      d noise))
  = (1 - epsilon) * py_sum (dict_values d) + epsilon * py_sum noise.
Proof.
  unfold dict_values. revert noise.
  induction d as [|[k v] d IH]; intros [|z noise] Hlen; try done.
  - simpl. rewrite py_sum_nil. lra.
  - injection Hlen as Hlen. cbn [zip_with].
    rewrite !fmap_cons, !py_sum_cons, IH by done. cbn [fst snd]. lra.
Qed.

(** X16.  [mix_dirichlet_noise] for any epsilon: it returns, moves the
    generator by one sample of the dimension of the distribution and writes
    to no node; the result has the keys of the distribution, in the same
    order; its values sum to [(1 - epsilon)] times the sum of the
    distribution plus [epsilon] times the sum of the sample, so mixing two
    distributions that sum to one gives one that sums to one; and for
    [epsilon] between zero and one, values and sample not negative, no
    mixed value is negative. *)
Theorem mix_dirichlet_noise_distribution {K : Type} (d : dict K R)
    (epsilon alpha : R) (s : store) :
  let sample := (dirichlet (replicate (length d) alpha) (rng s)).1 in
  ∃ mixed,
    mix_dirichlet_noise d epsilon alpha s
    = Ok (mixed, {| heap := heap s;
                    rng := (dirichlet (replicate (length d) alpha) (rng s)).2 |}) ∧
    dict_keys mixed = dict_keys d ∧
    py_sum (dict_values mixed)
    = (1 - epsilon) * py_sum (dict_values d) + epsilon * py_sum sample ∧
    (0 <= epsilon <= 1 →
     Forall (fun v => 0 <= v) (dict_values d) →
     Forall (fun z => 0 <= z) sample →
     Forall (fun v => 0 <= v) (dict_values mixed)).
Proof.
  intros sample. eexists. split; [reflexivity|].
  pose proof (dirichlet_length (replicate (length d) alpha) (rng s)) as Hlen.
  rewrite length_replicate in Hlen. fold sample in Hlen |- *.
  split; [|split].
  - unfold dict_keys. clearbody sample. revert sample Hlen.
    induction d as [|[k v] d IH]; intros [|z noise] Hlen; try done.
    simpl. f_equal. apply IH. by injection Hlen.
  - by apply py_sum_mixed.
  - intros Heps. unfold dict_values. clearbody sample. revert sample Hlen.
    induction d as [|[k v] d IH]; intros [|z noise] Hlen; try done.
    simpl. intros [Hv Hd]%Forall_cons [Hz Hnoise]%Forall_cons.
    constructor; [simpl in *; nra|]. apply IH; [by injection Hlen|done..].
Qed.
End SearchExtras.

(** ** The trivial evaluator *)

Section TrivialEvaluatorFacts.
Context {Action State : Type} `{EqDecision Action}.

Lemma py_sum_const {A : Type} (c : R) (l : list A) :
  py_sum ((fun _ => c) <$> l) = INR (length l) * c.
Proof.
  induction l as [|x l IH]; [unfold py_sum; simpl; lra|].
  rewrite fmap_cons, py_sum_cons, IH. cbn [length]. rewrite S_INR. lra.
Qed.

(** X17.  The evaluator [create_trivial_evaluator] builds from a next-states
    function: an error of that function is passed on; otherwise the value is
    [0] and the prior has the keys of the next states, in the same order,
    each with one over their number; for at least one next state the prior
    sums to one and [normalise_distribution], which [mcts] applies to it,
    hands it back unchanged; for no next state it is empty. *)
Theorem trivial_evaluator_uniform
    (next_states_function : State → exn + dict Action State) (state : State) :
  match next_states_function state with
  | inl e => create_trivial_evaluator next_states_function state = inl e
  | inr next_states =>
      ∃ prior,
        create_trivial_evaluator next_states_function state = inr (prior, 0) ∧
        dict_keys prior = dict_keys next_states ∧
        Forall (fun v => v = 1 / INR (length next_states)) (dict_values prior) ∧
        (next_states = [] → prior = []) ∧
        (next_states ≠ [] →
         py_sum (dict_values prior) = 1 ∧
         normalise_distribution prior = Ok prior)
  end.
Proof.
  unfold create_trivial_evaluator.
  destruct (next_states_function state) as [e|next_states]; [done|].
  change (list (Action * State)) in next_states.
  eexists. split; [reflexivity|].
  set (c := 1 / INR (length next_states)).
  assert (dict_values ((fun '(action, _) => (action, c)) <$> next_states)
          = (fun _ => c) <$> next_states) as Hvals.
  { unfold dict_values. rewrite <- list_fmap_compose.
    apply list_fmap_ext. by intros _ [a st] _. }
  split; [|split; [|split]].
  - unfold dict_keys. rewrite <- list_fmap_compose.
    apply list_fmap_ext. by intros _ [a st] _.
  - rewrite Hvals. apply Forall_forall.
    by intros v (x & -> & _)%list_elem_of_fmap.
  - by intros ->.
  - intros Hne.
    assert (INR (length next_states) ≠ 0) as Hlen.
    { apply not_0_INR. by destruct next_states. }
    assert (py_sum (dict_values
                      ((fun '(action, _) => (action, c)) <$> next_states)) = 1)
      as Hsum.
    { rewrite Hvals, py_sum_const. unfold c. by field. }
    split; [done|].
    rewrite normalise_distribution_Ok by (rewrite Hsum; lra).
    rewrite Hsum. f_equal. rewrite <- list_fmap_compose.
    apply list_fmap_ext. intros _ [a st] _. simpl. f_equal. lra.
Qed.
End TrivialEvaluatorFacts.

(** ** Selection and search on well-formed trees *)

Section SearchTotal.
Context {Action State : Type} `{EqDecision Action} {RS : RandomSource}.
Local Abbreviation node := (MCTSNode Action State).
Local Abbreviation store := (store Action State).
Local Abbreviation M := (M Action State).

Lemma dict_keys_length {K V : Type} (d : dict K V) :
  length (dict_keys d) = length d.
Proof. apply length_fmap. Qed.

Lemma dict_values_length {K V : Type} (d : dict K V) :
  length (dict_values d) = length d.
Proof. apply length_fmap. Qed.

Lemma children_view_inv (h : list node) attr (n : node) d :
  children_view h attr n = Some d →
  dict_keys d = dict_keys (children n) ∧
  Forall2 (fun v c => ∃ m, h !! c = Some m ∧ v = attr m)
          (dict_values d) (child_refs n).
Proof.
  unfold children_view, child_refs, dict_keys, dict_values. revert d.
  induction (children n) as [|[a c] l IH]; intros d; cbn [mapM].
  - intros [= <-]. by split; [|constructor].
  - destruct (h !! c) as [m|] eqn:Hm; [|done]. simpl.
    destruct (mapM _ l) as [d0|] eqn:Hd0; [|done]. intros [= <-].
    destruct (IH d0 eq_refl) as [Hk Hv]. rewrite !fmap_cons. simpl.
    split; [by rewrite Hk|]. constructor; [|done]. by exists m.
Qed.

Lemma children_view_is_Some (h : list node) attr (n : node) :
  Forall (fun c => is_Some (h !! c)) (child_refs n) →
  is_Some (children_view h attr n).
Proof.
  unfold children_view, child_refs.
  induction (children n) as [|[a c] l IH]; cbn [mapM]; [by eexists|].
  rewrite fmap_cons. intros [[m Hm] Hl]%Forall_cons. simpl in Hm.
  rewrite Hm. simpl. by destruct (IH Hl) as [d ->].
Qed.

Lemma compute_ucb_Ok {K : Type} `{EqDecision K}
    (action_values prior_probs action_counts : dict K R) (c_puct : R) :
  (∀ k, k ∈ dict_keys action_values →
        k ∈ dict_keys prior_probs ∧ k ∈ dict_keys action_counts) →
  Forall (fun v => 0 <= v) (dict_values action_counts) →
  ∃ ucb, compute_ucb action_values prior_probs action_counts c_puct = Ok ucb ∧
         dict_keys ucb = dict_keys action_values.
Proof.
  intros Hkeys Hpos.
  set (g := fun k : K =>
         (k, default 0 (dict_get action_values k)
             + default 0 (dict_get prior_probs k)
               / (1 + default 0 (dict_get action_counts k))
               * c_puct * sqrt (py_sum (dict_values action_counts)))).
  exists (g <$> dict_keys action_values). split.
  - unfold compute_ucb. apply mapM_result_Ok, Forall_forall. intros k Hk.
    destruct (Hkeys k Hk) as [[p Hp]%dict_get_is_Some [n Hn]%dict_get_is_Some].
    apply dict_get_is_Some in Hk as [q Hq].
    rewrite (dict_item_Some _ _ _ Hq), result_left_id.
    rewrite (dict_item_Some _ _ _ Hp), result_left_id.
    rewrite (dict_item_Some _ _ _ Hn), result_left_id.
    assert (0 <= n) as Hn0.
    { eapply (proj1 (Forall_forall _ _) Hpos), dict_get_value, Hn. }
    rewrite float_div_Ok by lra. unfold g. by rewrite Hq, Hp, Hn.
  - unfold dict_keys at 1. rewrite <- list_fmap_compose.
    rewrite <- (list_fmap_id (dict_keys action_values)) at 2.
    by apply list_fmap_ext.
Qed.

Lemma dict_argmax_elem {K : Type} (d : dict K R) :
  d ≠ [] → ∃ k, dict_argmax d = Ok k ∧ k ∈ dict_keys d.
Proof.
  destruct d as [|[k0 v0] d]; [done|]. intros _.
  exists (argmax_from k0 v0 d). split; [done|].
  unfold dict_keys. rewrite fmap_cons.
  destruct (argmax_from_spec k0 v0 d) as [[-> _]|(i & v & Hi & _)].
  - by left.
  - right. apply list_elem_of_fmap. eexists. split; [|by eapply list_elem_of_lookup_2].
    done.
Qed.

Lemma dict_keys_mixed {K : Type} (d : dict K R) (noise : list R) epsilon :
  length noise = length d →
  dict_keys (zip_with (fun kv z => (kv.1, (1 - epsilon) * kv.2 + epsilon * z))
                      d noise) = dict_keys d.
Proof.
  unfold dict_keys. revert noise.
  induction d as [|[k v] d IH]; intros [|z noise] Hlen; try done.
  injection Hlen as Hlen. cbn [zip_with]. rewrite !fmap_cons.
  by rewrite IH.
Qed.

Lemma noisy_prior_keys (n : node) epsilon alpha g :
  dict_keys (noisy_prior n epsilon alpha g) = dict_keys (prior_probs n).
Proof.
  apply dict_keys_mixed. by rewrite dirichlet_length, length_replicate.
Qed.

Lemma selectable_children (h : list node) r n :
  selectable h → h !! r = Some n →
  Forall (fun c => (r < c < length h)%nat) (child_refs n) ∧
  ∀ a, a ∈ dict_keys (children n) → a ∈ dict_keys (prior_probs n).
Proof.
  intros Hsel Hn. destruct (Hsel r n Hn) as [_ Hall]. split.
  - unfold child_refs. apply Forall_fmap.
    eapply Forall_impl; [exact Hall|]. by intros ac [? _].
  - intros a (ac & -> & Hac)%list_elem_of_fmap.
    by apply (proj1 (Forall_forall _ _) Hall ac Hac).
Qed.

Lemma select_total (h : list node) c_puct epsilon alpha :
  selectable h →
  ∀ k r g, (length h ≤ r + k)%nat → (r < length h)%nat →
    ∃ nodes actions g',
      selection h c_puct epsilon alpha g r nodes actions g' ∧
      (length actions < k)%nat.
Proof.
  intros Hsel. induction k as [|k IH]; intros r g Hk Hr; [lia|].
  destruct (lookup_lt_is_Some_2 h r Hr) as [n Hn].
  destruct (is_leaf n) eqn:Hleaf.
  { exists [r], [], g. split; [by eapply selection_leaf|]. simpl. lia. }
  destruct (selectable_children h r n Hsel Hn) as [Hrefs Hprior].
  assert (Forall (fun c => is_Some (h !! c)) (child_refs n)) as Hvalid.
  { eapply Forall_impl; [exact Hrefs|]. intros c [_ ?].
    by apply lookup_lt_is_Some. }
  destruct (children_view_is_Some h Q n Hvalid) as [qs Hqs].
  destruct (children_view_is_Some h N n Hvalid) as [ns Hns].
  destruct (children_view_inv _ _ _ _ Hqs) as [Hqk _].
  destruct (children_view_inv _ _ _ _ Hns) as [Hnk Hnv].
  destruct (compute_ucb_Ok qs (noisy_prior n epsilon alpha g) ns c_puct)
    as (ucb & Hucb & Hucbk).
  { intros a Ha. rewrite noisy_prior_keys, Hnk. rewrite Hqk in Ha.
    split; [by apply Hprior|done]. }
  { eapply Forall2_Forall_l; [exact Hnv|].
    apply Forall_forall. intros c _ v (m & Hm & ->). by apply (Hsel c m). }
  assert (ucb ≠ []) as Hne.
  { intros ->. apply bool_decide_eq_false in Hleaf. apply Hleaf.
    rewrite <- (dict_keys_length (children n)), <- Hqk, <- Hucbk.
    reflexivity. }
  destruct (dict_argmax_elem ucb Hne) as (a & Ha & Hin).
  rewrite Hucbk, Hqk in Hin.
  destruct (proj1 (dict_get_is_Some _ _) Hin) as [c Hc].
  pose proof (proj1 (Forall_forall _ _) Hrefs c (dict_get_child_ref _ _ _ Hc))
    as Hrc. simpl in Hrc.
  destruct (IH c (after_draw n alpha g)) as (nodes & actions & g' & Hsub & Hlen);
    [lia..|].
  exists (r :: nodes), (a :: actions), g'. split; [|simpl; lia].
  by eapply selection_descend.
Qed.

(** X18.  On a heap where no visit count is negative and every child of a
    node lies later in the heap and has a prior at the node, [select]
    returns from every node of the heap: no lookup fails, no division is by
    zero, and the descent ends; it needs no more descents than the heap has
    nodes, and it leaves the heap as it is. *)
Theorem select_returns (fuel : nat) (starting_node : ref)
    (c_puct epsilon alpha : R) (s : store) :
  selectable (heap s) →
  (starting_node < length (heap s))%nat →
  (length (heap s) ≤ fuel)%nat →
  ∃ nodes actions g',
    select fuel starting_node c_puct epsilon alpha s
    = Ok ((nodes, actions), {| heap := heap s; rng := g' |}) ∧
    (length actions < length (heap s))%nat.
Proof.
  intros Hsel Hstart Hfuel.
  destruct (select_total (heap s) c_puct epsilon alpha Hsel
              (length (heap s)) starting_node (rng s))
    as (nodes & actions & g' & Hpath & Hlen); [lia|done|].
  exists nodes, actions, g'. split; [|done].
  destruct (selection_last _ _ _ _ _ _ _ _ _ Hpath) as (rest & _ & _ & -> & _).
  pose proof (selection_select_loop _ _ _ _ _ _ _ _ _ Hpath fuel
                [starting_node] [] ltac:(lia)) as Hrun.
  destruct s as [h g]. exact Hrun.
Qed.
Lemma selection_nodes_valid (h : list node) c_puct epsilon alpha g r nodes
    (actions : list Action) g' :
  selection h c_puct epsilon alpha g r nodes actions g' →
  Forall (fun x => is_Some (h !! x)) nodes.
Proof. induction 1; constructor; eauto. Qed.

Lemma backup_from_run pp path values (s : store) :
  Forall (fun x => ∃ n, heap s !! x = Some n ∧ 0 <= N n ∧
                        (player n = 0%Z ∨ player n ∈ dict_keys values)) path →
  (∀ p, pp = Some p → p = 0%Z ∨ p ∈ dict_keys values) →
  ∃ s', backup_from pp path values s = Ok (tt, s').
Proof.
  revert pp s. induction path as [|y path IH]; intros pp s Hall Hpp.
  { by eexists. }
  apply Forall_cons in Hall as [(ny & Hy & HN & Hpl) Hrest].
  rewrite backup_from_cons, Hy.
  pose proof (lookup_lt_Some _ _ _ Hy) as Hlt.
  destruct (backed_up_cases pp values ny HN)
    as [(p & -> & Hp & Hv & _)|(ny' & Hup & _)].
  { exfalso. destruct (Hpp p eq_refl) as [?|Hin]; [done|].
    apply dict_get_is_Some in Hin as [? ?]. congruence. }
  rewrite Hup. pose proof (backed_up_player _ _ _ _ Hup) as Hpl'.
  apply backed_up_same_position in Hup as [_ HN'].
  apply IH; cbn [heap].
  - eapply Forall_impl; [exact Hrest|]. cbn beta.
    intros x (n & Hx & HNx & Hplx). destruct (decide (x = y)) as [->|Hne].
    + exists ny'. rewrite list_lookup_insert_eq by done.
      split; [done|]. simplify_eq. split; [lra|]. by rewrite Hpl'.
    + exists n. by rewrite list_lookup_insert_ne.
  - intros p [= <-]. done.
Qed.

Lemma dict_get_fmap_value {K V V' : Type} `{EqDecision K} (f : V → V')
    (d : dict K V) k :
  dict_get ((fun '(a, x) => (a, f x)) <$> d) k = f <$> dict_get d k.
Proof.
  induction d as [|[a x] d IH]; [done|]. rewrite fmap_cons. simpl.
  by destruct (decide (a = k)).
Qed.

Lemma dict_keys_fmap_pair {K V V' : Type} (f : V → V') (d : dict K V) :
  dict_keys ((fun '(a, x) => (a, f x)) <$> d) = dict_keys d.
Proof.
  unfold dict_keys. rewrite <- list_fmap_compose.
  apply list_fmap_ext. by intros _ [a x] _.
Qed.

Lemma mcts_iteration_terminal fuel root (game : Game.t Action State) estimator
    c_puct epsilon alpha (h : list node) g nodes actions g1 leaf_ref leaf
    values :
  selection h c_puct epsilon alpha g root nodes actions g1 →
  (length actions ≤ fuel)%nat →
  last nodes = Some leaf_ref →
  h !! leaf_ref = Some leaf →
  is_terminal leaf = true →
  Game.utility game (game_state leaf) = inr values →
  mcts_iteration fuel root game estimator c_puct epsilon alpha
                 {| heap := h; rng := g |}
  = backup nodes values {| heap := h; rng := g1 |}.
Proof.
  intros Hsel Hfuel Hlast Hleaf Hterm Hut.
  destruct (selection_last _ _ _ _ _ _ _ _ _ Hsel) as (rest & _ & _ & -> & _).
  unfold mcts_iteration, select.
  erewrite M_bind_run
    by apply (selection_select_loop _ _ _ _ _ _ _ _ _ Hsel fuel [root] [] Hfuel).
  cbn [app tail].
  erewrite M_bind_run by (apply lift_run; unfold last_item; by rewrite Hlast).
  erewrite M_bind_run by (by apply load_run).
  rewrite Hterm. cbn [negb]. rewrite Hut.
  by erewrite M_bind_run by reflexivity.
Qed.

Lemma mcts_iteration_expanding root (game : Game.t Action State) estimator
    c_puct epsilon alpha (h : list node) g nodes actions g1 leaf_ref leaf
    prior0 value child_states prior :
  selection h c_puct epsilon alpha g root nodes actions g1 →
  last nodes = Some leaf_ref →
  h !! leaf_ref = Some leaf →
  is_leaf leaf = true →
  is_terminal leaf = false →
  estimator (game_state leaf) = inr (prior0, value) →
  Game.legal_actions game (game_state leaf) = inr child_states →
  normalise_distribution prior0 = Ok prior →
  ∃ kids fresh,
    (∀ fuel, (length actions ≤ fuel)%nat →
       mcts_iteration fuel root game estimator c_puct epsilon alpha
                      {| heap := h; rng := g |}
       = backup nodes
           [(Game.current_player game (game_state leaf), value);
            ((if (Game.current_player game (game_state leaf) =? 2)%Z
              then 1%Z else 2%Z), - value)]
           {| heap := <[leaf_ref := set_children kids
                                      (set_prior_probs prior leaf)]> h ++ fresh;
              rng := g1 |}) ∧
    length kids = length child_states ∧
    length fresh = length child_states ∧
    ∀ i a, dict_keys child_states !! i = Some a →
      ∃ st, dict_get child_states a = Some st ∧
            kids !! i = Some (a, (length h + i)%nat) ∧
            fresh !! i = Some (MCTSNode_init st (Game.current_player game st)
                                             (Game.is_terminal game st)).
Proof.
  intros Hsel Hlast Hleaf Hisleaf Hterm Hest Hlegal Hnorm.
  destruct (selection_last _ _ _ _ _ _ _ _ _ Hsel) as (rest & _ & _ & -> & _).
  destruct (expand_run leaf_ref prior child_states
              ((fun '(action, child_state) =>
                  (action, Game.current_player game child_state))
                 <$> child_states)
              ((fun '(action, child_state) =>
                  (action, Game.is_terminal game child_state))
                 <$> child_states)
              {| heap := h; rng := g1 |} leaf Hleaf Hisleaf)
    as (kids & fresh & Hexp & Hlk & Hlf & Hspec).
  { intros a Ha. by rewrite !dict_keys_fmap_pair. }
  cbn [heap rng] in *.
  exists kids, fresh. split; [|split; [done|split; [done|]]].
  - intros fuel Hfuel. unfold mcts_iteration, select.
    erewrite M_bind_run
      by apply (selection_select_loop _ _ _ _ _ _ _ _ _ Hsel fuel [root] []
                  Hfuel).
    cbn [app tail].
    erewrite M_bind_run by (apply lift_run; unfold last_item; by rewrite Hlast).
    erewrite M_bind_run by (by apply load_run).
    rewrite Hterm. cbn [negb]. rewrite Hest, Hlegal.
    erewrite M_bind_run; [reflexivity|].
    erewrite M_bind_run by reflexivity. cbn beta iota.
    erewrite M_bind_run by reflexivity.
    erewrite M_bind_run by (apply lift_run, Hnorm).
    erewrite M_bind_run by exact Hexp.
    reflexivity.
  - intros i a Hi.
    destruct (Hspec i a Hi) as (st & pl & tm & Hst & Hpl & Htm & Hk & Hf).
    rewrite dict_get_fmap_value, Hst in Hpl.
    rewrite dict_get_fmap_value, Hst in Htm. simplify_eq/=.
    by exists st.
Qed.
Lemma selectable_expand (h : list node) leaf_ref leaf kids prior
    (fresh : list node) :
  selectable h →
  h !! leaf_ref = Some leaf →
  length kids = length fresh →
  (∀ i ac, kids !! i = Some ac →
           ac.2 = (length h + i)%nat ∧ ac.1 ∈ dict_keys prior) →
  Forall (fun m => N m = 0 ∧ children m = []) fresh →
  selectable (<[leaf_ref := set_children kids (set_prior_probs prior leaf)]> h
              ++ fresh).
Proof.
  intros Hsel Hleaf Hlen Hkids Hfresh r n Hr.
  pose proof (lookup_lt_Some _ _ _ Hleaf) as Hlt.
  rewrite length_app, length_insert.
  destruct (decide (r < length h)%nat) as [Hrh|Hrh].
  - rewrite lookup_app_l in Hr by (by rewrite length_insert).
    destruct (decide (r = leaf_ref)) as [->|Hne].
    + rewrite list_lookup_insert_eq in Hr by done. injection Hr as <-.
      cbn [N children prior_probs set_children set_prior_probs].
      split; [apply (Hsel leaf_ref leaf Hleaf)|].
      apply Forall_lookup. intros i ac Hi.
      destruct (Hkids i ac Hi) as [-> Hin].
      apply lookup_lt_Some in Hi. split; [lia|done].
    + rewrite list_lookup_insert_ne in Hr by done.
      destruct (Hsel r n Hr) as [HN Hall]. split; [done|].
      eapply Forall_impl; [exact Hall|]. intros ac [? ?]. split; [lia|done].
  - rewrite lookup_app_r in Hr by (rewrite length_insert; lia).
    apply list_elem_of_lookup_2 in Hr.
    destruct (proj1 (Forall_forall _ _) Hfresh n Hr) as [-> ->].
    split; [lra|constructor].
Qed.

Lemma selectable_backup pp path values (s : store) u s' :
  selectable (heap s) →
  backup_from pp path values s = Ok (u, s') →
  selectable (heap s').
Proof.
  intros Hsel Hrun r n' Hr.
  destruct (backup_from_frame _ _ _ _ _ _ Hrun) as (_ & Hlen & _ & Hpos).
  assert (is_Some (heap s !! r)) as [n Hn].
  { apply lookup_lt_is_Some. rewrite <- Hlen. by eapply lookup_lt_Some. }
  destruct (Hpos r n Hn) as (n1 & Hn1 & Hch & Hpr & _).
  destruct (backup_from_counts _ _ _ _ _ _ Hrun r n Hn) as (n2 & Hn2 & HN).
  simplify_eq. destruct (Hsel r n Hn) as [HN0 Hall]. split.
  - rewrite HN.
    pose proof (pos_INR (length (filter (fun y => y = r) path))). lra.
  - by rewrite Hch, Hpr, Hlen.
Qed.

Lemma follows_game_expand (game : Game.t Action State) (h : list node)
    leaf_ref leaf kids prior (fresh : list node) :
  follows_game game h →
  h !! leaf_ref = Some leaf →
  Forall (fun m => player m = Game.current_player game (game_state m) ∧
                   is_terminal m = Game.is_terminal game (game_state m)) fresh →
  follows_game game
    (<[leaf_ref := set_children kids (set_prior_probs prior leaf)]> h ++ fresh).
Proof.
  intros Hfol Hleaf Hfresh r n Hr.
  pose proof (lookup_lt_Some _ _ _ Hleaf) as Hlt.
  destruct (decide (r < length h)%nat) as [Hrh|Hrh].
  - rewrite lookup_app_l in Hr by (by rewrite length_insert).
    destruct (decide (r = leaf_ref)) as [->|Hne].
    + rewrite list_lookup_insert_eq in Hr by done. injection Hr as <-.
      apply (Hfol leaf_ref leaf Hleaf).
    + rewrite list_lookup_insert_ne in Hr by done. by apply (Hfol r).
  - rewrite lookup_app_r in Hr by (rewrite length_insert; lia).
    apply list_elem_of_lookup_2 in Hr.
    by apply (proj1 (Forall_forall _ _) Hfresh n Hr).
Qed.

Lemma follows_game_backup (game : Game.t Action State) pp path values
    (s : store) u s' :
  follows_game game (heap s) →
  backup_from pp path values s = Ok (u, s') →
  follows_game game (heap s').
Proof.
  intros Hfol Hrun r n' Hr.
  destruct (backup_from_frame _ _ _ _ _ _ Hrun) as (_ & Hlen & _ & Hpos).
  assert (is_Some (heap s !! r)) as [n Hn].
  { apply lookup_lt_is_Some. rewrite <- Hlen. by eapply lookup_lt_Some. }
  destruct (Hpos r n Hn) as (n1 & Hn1 & _ & _ & Hterm & Hstate & Hpl).
  simplify_eq. rewrite Hterm, Hstate, Hpl. by apply (Hfol r).
Qed.

Lemma normalise_distribution_keys {K : Type} `{EqDecision K} (d d' : dict K R) :
  normalise_distribution d = Ok d' → dict_keys d' = dict_keys d.
Proof.
  destruct d as [|kv d]; [by intros [= <-]|].
  destruct (Req_dec_T (py_sum (dict_values (kv :: d))) 0) as [Hz|Hnz].
  - by rewrite normalise_distribution_zero_sum.
  - rewrite normalise_distribution_Ok by done. intros Heq.
    assert (d' = (fun kv0 => (kv0.1, kv0.2 / py_sum (dict_values (kv :: d))))
                   <$> (kv :: d)) as -> by congruence.
    apply (dict_keys_fmap_value (fun kv0 => kv0.2 / _)).
Qed.

Lemma normalise_distribution_returns {K : Type} `{EqDecision K} (d : dict K R) :
  (d ≠ [] → py_sum (dict_values d) ≠ 0) →
  ∃ d', normalise_distribution d = Ok d'.
Proof.
  intros Hsum. destruct d as [|kv d]; [by eexists|].
  rewrite normalise_distribution_Ok by (by apply Hsum). by eexists.
Qed.

Lemma backup_ready (game : Game.t Action State) estimator (h : list node)
    (values : dict Z R) nodes :
  playable game estimator →
  selectable h →
  follows_game game h →
  Forall (fun x => is_Some (h !! x)) nodes →
  1%Z ∈ dict_keys values →
  2%Z ∈ dict_keys values →
  Forall (fun x => ∃ n, h !! x = Some n ∧ 0 <= N n ∧
                        (player n = 0%Z ∨ player n ∈ dict_keys values)) nodes.
Proof.
  intros Hplay Hsel Hfol Hvalid H1 H2.
  eapply Forall_impl; [exact Hvalid|]. intros x [n Hn]. exists n.
  split; [done|]. split; [apply (Hsel x n Hn)|]. right.
  destruct (Hfol x n Hn) as [-> _].
  by destruct (playable_players _ _ Hplay (game_state n)) as [-> | ->].
Qed.

Lemma mcts_iteration_step root (game : Game.t Action State) estimator
    c_puct epsilon alpha (s : store) :
  playable game estimator →
  selectable (heap s) →
  follows_game game (heap s) →
  (root < length (heap s))%nat →
  ∃ s',
    (∀ fuel, (length (heap s) ≤ fuel)%nat →
       mcts_iteration fuel root game estimator c_puct epsilon alpha s
       = Ok (tt, s')) ∧
    selectable (heap s') ∧ follows_game game (heap s') ∧
    (length (heap s) ≤ length (heap s'))%nat.
Proof.
  intros Hplay Hsel Hfol Hroot. destruct s as [h g]. cbn [heap] in *.
  destruct (select_total h c_puct epsilon alpha Hsel (length h) root g)
    as (nodes & actions & g1 & Hpath & Hlen); [lia|done|].
  destruct (selection_last _ _ _ _ _ _ _ _ _ Hpath)
    as (rest & leaf_ref & leaf & Hnodes & Hlast & Hleaf & Hisleaf).
  pose proof (selection_nodes_valid _ _ _ _ _ _ _ _ _ Hpath) as Hvalid.
  destruct (Hfol leaf_ref leaf Hleaf) as [_ Hterm].
  destruct (is_terminal leaf) eqn:Hflag.
  - destruct (playable_utility _ _ Hplay (game_state leaf))
      as (values & Hut & H1 & H2); [done|].
    destruct (backup_from_run None nodes values {| heap := h; rng := g1 |})
      as [s' Hrun].
    { by eapply backup_ready. }
    { done. }
    exists s'. split.
    { intros fuel Hfuel.
      erewrite mcts_iteration_terminal by (try done; lia). exact Hrun. }
    split; [by eapply selectable_backup; [|exact Hrun]|].
    split; [by eapply follows_game_backup; [|exact Hrun]|].
    apply backup_from_frame in Hrun as (_ & -> & _). done.
  - destruct (playable_estimate _ _ Hplay (game_state leaf))
      as (child_states & prior0 & value & Hlegal & Hest & Hcover & Hsum);
      [done|].
    destruct (normalise_distribution_returns prior0 Hsum) as [prior Hnorm].
    destruct (mcts_iteration_expanding root game estimator c_puct epsilon alpha
                h g nodes actions g1 leaf_ref leaf prior0 value child_states
                prior Hpath Hlast Hleaf Hisleaf Hflag Hest Hlegal Hnorm)
      as (kids & fresh & Hstep & Hlk & Hlf & Hspec).
    set (h' := <[leaf_ref := set_children kids (set_prior_probs prior leaf)]> h
               ++ fresh) in *.
    assert (∀ i, (i < length child_states)%nat →
              ∃ a st, dict_keys child_states !! i = Some a ∧
                      dict_get child_states a = Some st ∧
                      kids !! i = Some (a, (length h + i)%nat) ∧
                      fresh !! i = Some (MCTSNode_init st
                                           (Game.current_player game st)
                                           (Game.is_terminal game st)))
      as Hcell.
    { intros i Hi.
      destruct (lookup_lt_is_Some_2 (dict_keys child_states) i) as [a Ha].
      { by rewrite dict_keys_length. }
      destruct (Hspec i a Ha) as (st & ? & ? & ?). by exists a, st. }
    assert (selectable h') as Hsel'.
    { apply selectable_expand; [done|done|congruence| |].
      - intros i ac Hi.
        destruct (Hcell i) as (a & st & Ha & _ & Hk & _).
        { rewrite <- Hlk. by eapply lookup_lt_Some. }
        assert (Some ac = Some (a, (length h + i)%nat)) as [= ->]
          by (rewrite <- Hi; exact Hk).
        split; [done|]. rewrite (normalise_distribution_keys _ _ Hnorm).
        apply Hcover. by eapply list_elem_of_lookup_2.
      - apply Forall_lookup. intros i m Hi.
        destruct (Hcell i) as (a & st & _ & _ & _ & Hf).
        { rewrite <- Hlf. by eapply lookup_lt_Some. }
        assert (Some m = Some (MCTSNode_init st (Game.current_player game st)
                               (Game.is_terminal game st))) as [= ->]
        by (rewrite <- Hi; exact Hf).
      done. }
    assert (follows_game game h') as Hfol'.
    { apply follows_game_expand; [done|done|].
      apply Forall_lookup. intros i m Hi.
      destruct (Hcell i) as (a & st & _ & _ & _ & Hf).
      { rewrite <- Hlf. by eapply lookup_lt_Some. }
      assert (Some m = Some (MCTSNode_init st (Game.current_player game st)
                               (Game.is_terminal game st))) as [= ->]
        by (rewrite <- Hi; exact Hf).
      done. }
    destruct (backup_from_run None nodes
                [(Game.current_player game (game_state leaf), value);
                 ((if (Game.current_player game (game_state leaf) =? 2)%Z
                   then 1%Z else 2%Z), - value)]
                {| heap := h'; rng := g1 |}) as [s' Hrun].
    { eapply backup_ready; try done.
      - eapply Forall_impl; [exact Hvalid|]. intros x Hx.
        apply lookup_lt_is_Some. apply lookup_lt_is_Some in Hx.
        cbn [heap]. unfold h'. rewrite length_app, length_insert. lia.
      - destruct (playable_players _ _ Hplay (game_state leaf)) as [-> | ->];
          cbn; [by left|by right; left].
      - destruct (playable_players _ _ Hplay (game_state leaf)) as [-> | ->];
          cbn; [by right; left|by left]. }
    { done. }
    exists s'. split.
    { intros fuel Hfuel. rewrite Hstep by lia. exact Hrun. }
    split; [by eapply selectable_backup; [|exact Hrun]|].
    split; [by eapply follows_game_backup; [|exact Hrun]|].
    apply backup_from_frame in Hrun as (_ & -> & _). cbn [heap].
    unfold h'. rewrite length_app, length_insert. lia.
Qed.
Lemma search_extends_refl (h : list node) : search_extends h h.
Proof.
  split; [done|]. intros x n Hx. exists n. repeat split; try done; lra.
Qed.

Lemma search_extends_trans (h1 h2 h3 : list node) :
  search_extends h1 h2 → search_extends h2 h3 → search_extends h1 h3.
Proof.
  intros [Hlen1 H1] [Hlen2 H2]. split; [lia|]. intros x n Hx.
  destruct (H1 x n Hx) as (n' & Hx' & Hs & Hp & Ht & HN & Hch).
  destruct (H2 x n' Hx') as (n'' & Hx'' & Hs' & Hp' & Ht' & HN' & Hch').
  exists n''. split; [done|]. split; [congruence|]. split; [congruence|].
  split; [congruence|]. split; [lra|]. intros Hne.
  destruct (Hch Hne) as [Hc Hpr]. destruct Hch' as [Hc' Hpr']; [congruence|].
  split; congruence.
Qed.

Lemma search_extends_expand (h : list node) leaf_ref leaf kids prior
    (fresh : list node) :
  h !! leaf_ref = Some leaf →
  is_leaf leaf = true →
  search_extends h
    (<[leaf_ref := set_children kids (set_prior_probs prior leaf)]> h ++ fresh).
Proof.
  intros Hleaf Hisleaf%is_leaf_true.
  pose proof (lookup_lt_Some _ _ _ Hleaf) as Hlt. split.
  { rewrite length_app, length_insert. lia. }
  intros x n Hx. pose proof (lookup_lt_Some _ _ _ Hx) as Hxlt.
  rewrite lookup_app_l by (by rewrite length_insert).
  destruct (decide (x = leaf_ref)) as [->|Hne].
  - rewrite list_lookup_insert_eq by done. eexists. split; [done|].
    assert (n = leaf) as -> by congruence. cbn. repeat split; try done; lra.
  - rewrite list_lookup_insert_ne by done. exists n.
    repeat split; try done; lra.
Qed.

Lemma search_extends_backup pp path values (s : store) u s' :
  backup_from pp path values s = Ok (u, s') →
  search_extends (heap s) (heap s').
Proof.
  intros Hrun.
  destruct (backup_from_frame _ _ _ _ _ _ Hrun) as (_ & Hlen & _ & Hpos).
  split; [lia|]. intros x n Hx.
  destruct (Hpos x n Hx) as (n' & Hx' & Hch & Hpr & Hterm & Hstate & Hpl).
  destruct (backup_from_counts _ _ _ _ _ _ Hrun x n Hx) as (n2 & Hn2 & HN).
  exists n'. assert (n2 = n') as -> by congruence.
  pose proof (pos_INR (length (filter (fun y => y = x) path))).
  repeat split; try done; lra.
Qed.

Lemma mcts_iteration_extends fuel root (game : Game.t Action State) estimator
    c_puct epsilon alpha (s : store) u s' :
  mcts_iteration fuel root game estimator c_puct epsilon alpha s = Ok (u, s') →
  search_extends (heap s) (heap s').
Proof.
  intros (nodes & actions & g1 & leaf_ref & leaf & values & s2 & _ & _ &
          Hleaf & Hisleaf & Hcase & Hrun)%mcts_iteration_Ok.
  apply search_extends_backup in Hrun.
  eapply search_extends_trans; [|exact Hrun].
  destruct Hcase as [[_ ->]|(_ & prior & cs & kids & fresh & _ & -> & _)].
  - apply search_extends_refl.
  - by apply search_extends_expand.
Qed.

Lemma mcts_loop_extends fuel root (game : Game.t Action State) estimator
    c_puct epsilon alpha k (s : store) u s' :
  mcts_loop k (mcts_iteration fuel root game estimator c_puct epsilon alpha) s
  = Ok (u, s') →
  search_extends (heap s) (heap s').
Proof.
  revert s. induction k as [|k IH]; intros s; cbn [mcts_loop].
  - intros [_ ->]%M_ret_Ok. apply search_extends_refl.
  - intros (u1 & s1 & Hfirst & Hrest)%M_bind_Ok.
    eapply search_extends_trans; [by eapply mcts_iteration_extends|by apply IH].
Qed.

(** X19.  What a search that returns has done to the tree: the nodes that
    existed are where they were and new nodes come after them; no node has
    changed its state, its player or its terminal flag; no visit count has
    fallen; and every node that had children has the same children and the
    same prior ([select] writes no noise back, and [expand] runs on leaves
    only). *)
Theorem mcts_extends_tree (fuel : nat) (root : ref)
    (game : Game.t Action State) estimator (iterations : Z)
    (c_puct tau epsilon alpha : R) (s : store) dist s' :
  mcts fuel root game estimator iterations c_puct tau epsilon alpha s
  = Ok (dist, s') →
  (length (heap s) ≤ length (heap s'))%nat ∧
  ∀ x n, heap s !! x = Some n →
    ∃ n', heap s' !! x = Some n' ∧
          game_state n' = game_state n ∧ player n' = player n ∧
          is_terminal n' = is_terminal n ∧ N n <= N n' ∧
          (children n ≠ [] →
           children n' = children n ∧ prior_probs n' = prior_probs n).
Proof.
  intros (n & counts & Hloop & _)%mcts_Ok.
  exact (mcts_loop_extends _ _ _ _ _ _ _ _ _ _ _ Hloop).
Qed.

Lemma children_view_visits (h : list node) (n : node) counts :
  children_view h N n = Some counts →
  dict_values counts = visit_count h <$> child_refs n.
Proof.
  intros [_ Hall]%children_view_inv. revert Hall.
  generalize (dict_values counts) (child_refs n).
  induction 1 as [|v c vs cs (m & Hm & ->) _ IH]; [done|].
  rewrite fmap_cons, IH. f_equal. unfold visit_count. by rewrite Hm.
Qed.

Lemma py_sum_pos_Exists l :
  Forall (fun v => 0 <= v) l → 0 < py_sum l → Exists (fun v => 0 < v) l.
Proof.
  induction 1 as [|x l Hx _ IH]; [rewrite py_sum_nil; lra|].
  rewrite py_sum_cons. intros Hsum.
  destruct (Rlt_dec 0 x); [by left|]. right. apply IH. lra.
Qed.

Lemma mcts_loop_run root (game : Game.t Action State) estimator
    c_puct epsilon alpha k (s : store) :
  playable game estimator →
  selectable (heap s) →
  follows_game game (heap s) →
  (root < length (heap s))%nat →
  ∃ fuel0 s',
    (∀ fuel, (fuel0 ≤ fuel)%nat →
       mcts_loop k
         (mcts_iteration fuel root game estimator c_puct epsilon alpha) s
       = Ok (tt, s')) ∧
    selectable (heap s') ∧ follows_game game (heap s').
Proof.
  intros Hplay. revert s. induction k as [|k IH]; intros s Hsel Hfol Hroot.
  { by exists 0%nat, s. }
  destruct (mcts_iteration_step root game estimator c_puct epsilon alpha s
              Hplay Hsel Hfol Hroot) as (s1 & Hstep & Hsel1 & Hfol1 & Hlen1).
  destruct (IH s1 Hsel1 Hfol1 ltac:(lia)) as (fuel0 & s' & Hloop & Hsel' & Hfol').
  exists (max (length (heap s)) fuel0), s'. split; [|done].
  intros fuel Hfuel. cbn [mcts_loop].
  erewrite M_bind_run by (apply Hstep; lia). apply Hloop. lia.
Qed.

(** X20.  [mcts] returns a probability distribution over the legal actions
    of the root.  The game and the evaluator are such as [mcts] can play
    (players [1] and [2]; legal actions and an estimate that covers them
    and can be normalised at every state that is not terminal; a utility
    for both players at every terminal state); the nodes of the heap have
    non-negative visit counts, children later in the heap with a prior for
    each, and the player and terminal flag of their state; the root is
    fresh, its state is not terminal and has a legal action; there are at
    least two iterations and the temperature is positive.  Then the search
    ends and raises nothing: with enough fuel for the loop of [select], it
    returns, whatever the fuel, the same dictionary; its keys are the legal
    actions at the root, in their order, and its values lie between zero
    and one and sum to one. *)
Theorem mcts_returns_distribution (root : ref) (game : Game.t Action State)
    estimator (iterations : Z) (c_puct tau epsilon alpha : R) (s : store)
    n0 child_states :
  playable game estimator →
  selectable (heap s) →
  follows_game game (heap s) →
  heap s !! root = Some n0 →
  N n0 = 0 →
  children n0 = [] →
  Game.is_terminal game (game_state n0) = false →
  Game.legal_actions game (game_state n0) = inr child_states →
  child_states ≠ [] →
  (2 ≤ iterations)%Z →
  0 < tau →
  ∃ fuel0 dist s',
    (∀ fuel, (fuel0 ≤ fuel)%nat →
       mcts fuel root game estimator iterations c_puct tau epsilon alpha s
       = Ok (dist, s')) ∧
    dict_keys dist = dict_keys child_states ∧
    Forall (fun v => 0 <= v <= 1) (dict_values dist) ∧
    py_sum (dict_values dist) = 1.
Proof.
  intros Hplay Hsel Hfol Hn0 HN0 Hch0 Hnonterm Hlegal Hne Hiter Htau.
  pose proof (lookup_lt_Some _ _ _ Hn0) as Hroot.
  destruct (mcts_loop_run root game estimator c_puct epsilon alpha
              (Z.to_nat iterations) s Hplay Hsel Hfol Hroot)
    as (fuel0 & s' & Hloop & Hsel' & Hfol').
  pose proof (Hloop fuel0 ltac:(lia)) as Hrun.
  destruct (Z.to_nat iterations) as [|[|k]] eqn:Hk; [lia..|].
  assert (Hrun' := Hrun). cbn [mcts_loop] in Hrun'.
  apply M_bind_Ok in Hrun' as (u1 & s1 & Hfirst & Hrest).
  assert (is_terminal n0 = false) as Hterm0.
  { destruct (Hfol root n0 Hn0) as [_ ->]. done. }
  assert (is_leaf n0 = true) as Hleaf0 by (by apply is_leaf_true).
  (* the root after the first iteration *)
  destruct (leaf_root_iteration _ _ _ _ _ _ _ _ _ _ _ Hn0 Hleaf0 Hterm0 Hfirst)
    as (prior & cs & kids & fresh & values & Hlegal' & Hk1 & _ & _ & _ & Hback).
  assert (cs = child_states) as -> by congruence.
  assert (∃ n1, heap s1 !! root = Some n1 ∧
                dict_keys (children n1) = dict_keys child_states)
    as (n1 & Hn1 & Hkeys1).
  { destruct (backup_from_frame _ _ _ _ _ _ Hback) as (_ & _ & _ & Hpos).
    destruct (Hpos root (set_children kids (set_prior_probs prior n0)))
      as (n1 & Hn1 & Hch1 & _).
    { cbn [heap]. rewrite lookup_app_l by (by rewrite length_insert).
      by apply list_lookup_insert_eq. }
    exists n1. split; [done|]. by rewrite Hch1. }
  assert (children n1 ≠ []) as Hne1.
  { intros Hnil. rewrite Hnil in Hkeys1. apply Hne.
    apply nil_length_inv.
    by rewrite <- (dict_keys_length child_states), <- Hkeys1. }
  (* the root at the end *)
  assert (searched (length (heap s)) root (1 + S k) (heap s'))
    as [Htree (m & Hm & _ & HNm & Hsum)].
  { eapply mcts_loop_searched; [| |exact Hrest].
    - intros ? ? ? ?. apply searched_step.
    - by eapply first_iteration_searched. }
  destruct (mcts_loop_extends fuel0 root game estimator c_puct epsilon alpha
              (S k) s1 tt s' Hrest) as [_ Hext].
  destruct (Hext root n1 Hn1) as (m' & Hm' & _ & _ & _ & _ & Hsame).
  assert (m' = m) as -> by congruence.
  destruct (Hsame Hne1) as [Hchm _].
  destruct (selectable_children _ _ _ Hsel' Hm) as [Hrefs _].
  destruct (children_view_is_Some (heap s') N m) as [counts Hcounts].
  { eapply Forall_impl; [exact Hrefs|]. intros c [_ ?].
    by apply lookup_lt_is_Some. }
  destruct (children_view_inv _ _ _ _ Hcounts) as [Hck Hcv].
  assert (Forall (fun v => 0 <= v) (dict_values counts)) as Hnonneg.
  { eapply Forall2_Forall_l; [exact Hcv|].
    apply Forall_forall. intros c _ v (mc & Hmc & ->). by apply (Hsel' c mc). }
  assert (0 < py_sum (dict_values counts)) as Hpos.
  { rewrite (children_view_visits _ _ _ Hcounts).
    fold (sum_visits (heap s') (child_refs m)). rewrite Hsum.
    rewrite !S_INR. pose proof (pos_INR k). simpl. lra. }
  destruct (extremise_distribution_total counts tau Htau Hnonneg
              (py_sum_pos_Exists _ Hnonneg Hpos))
    as (dist & Hdist & Hdk & Hdv & Hds).
  exists fuel0, dist, s'. split.
  - intros fuel Hfuel. unfold mcts. rewrite Hk.
    erewrite M_bind_run by (apply Hloop; lia).
    erewrite M_bind_run by (by apply load_run).
    erewrite M_bind_run by (by apply children_attr_run).
    by apply lift_run.
  - split; [|done]. by rewrite Hdk, Hck, Hchm.
Qed.
(** X21.  Whenever [mcts] returns, the temperature is positive and the
    dictionary returned is a probability distribution over the actions of
    the children the root then has: the same keys in the same order, values
    between zero and one that sum to one.  This needs nothing of the game
    or of the evaluator. *)
Theorem mcts_result_distribution (fuel : nat) (root : ref)
    (game : Game.t Action State) estimator (iterations : Z)
    (c_puct tau epsilon alpha : R) (s : store) dist s' :
  mcts fuel root game estimator iterations c_puct tau epsilon alpha s
  = Ok (dist, s') →
  0 < tau ∧
  ∃ n, heap s' !! root = Some n ∧
       dict_keys dist = dict_keys (children n) ∧
       Forall (fun v => 0 <= v <= 1) (dict_values dist) ∧
       py_sum (dict_values dist) = 1.
Proof.
  intros (n & counts & _ & Hn & Hcounts & Hdist)%mcts_Ok.
  destruct (extremise_distribution_Ok_inv _ _ _ Hdist) as (Htau & Hnn & Hex).
  destruct (extremise_distribution_total counts tau Htau Hnn Hex)
    as (dist' & Hdist' & Hk & Hv & Hsum).
  assert (dist' = dist) as -> by congruence.
  destruct (children_view_inv _ _ _ _ Hcounts) as [Hck _].
  split; [done|]. exists n. split; [done|]. split; [|done].
  by rewrite Hk, Hck.
Qed.

Lemma normalise_distribution_cases {K : Type} `{EqDecision K} (d : dict K R) :
  (∃ d', normalise_distribution d = Ok d') ∨
  normalise_distribution d = Raise ZeroDivisionError.
Proof.
  destruct d as [|kv d]; [left; by eexists|].
  destruct (Req_dec_T (py_sum (dict_values (kv :: d))) 0) as [Hz|Hnz].
  - right. by apply normalise_distribution_zero_sum.
  - left. rewrite normalise_distribution_Ok by done. by eexists.
Qed.

(** X22.  One iteration is never enough.  From a root without children
    whose terminal flag is not set, [mcts] with a single iteration raises:
    the error of the evaluator, of the game's legal actions or of the
    normalisation of the prior if one of them fails; and otherwise, after
    the root has been expanded, the error of [extremise_distribution] on
    the visit counts of its children, which are all zero
    ([ZeroDivisionError], or [ValueError] when there is no child). *)
Theorem mcts_single_iteration_raises (fuel : nat) (root : ref)
    (game : Game.t Action State) estimator
    (c_puct tau epsilon alpha : R) (s : store) n :
  heap s !! root = Some n →
  children n = [] →
  is_terminal n = false →
  ∃ e, mcts fuel root game estimator 1 c_puct tau epsilon alpha s = Raise e.
Proof.
  intros Hn Hleaf%is_leaf_true Hterm. destruct s as [h g]. cbn [heap] in Hn.
  pose proof (lookup_lt_Some _ _ _ Hn) as Hlt.
  unfold mcts. change (Z.to_nat 1) with 1%nat.
  assert (∀ e, mcts_iteration fuel root game estimator c_puct epsilon alpha
                 {| heap := h; rng := g |} = Raise e →
            ∃ e', (mcts_loop 1
                     (mcts_iteration fuel root game estimator c_puct epsilon
                                     alpha);;
                   root0 ← load root;
                   action_counts ← children_attr N root0;
                   lift (extremise_distribution action_counts tau))
                    {| heap := h; rng := g |} = Raise e') as Hraise.
  { intros e He. exists e. apply M_bind_Raise. cbn [mcts_loop].
    by apply M_bind_Raise. }
  destruct (estimator (game_state n)) as [e|[prior0 value]] eqn:Hest.
  { apply (Hraise e). unfold mcts_iteration, select.
    erewrite M_bind_run
      by exact (select_loop_leaf fuel c_puct epsilon alpha root [root] []
                  {| heap := h; rng := g |} n Hn Hleaf).
    cbn beta iota.
    erewrite M_bind_run by (by apply lift_run).
    erewrite M_bind_run by (by apply load_run).
    rewrite Hterm. cbn [negb]. rewrite Hest. reflexivity. }
  destruct (Game.legal_actions game (game_state n)) as [e|child_states]
    eqn:Hlegal.
  { apply (Hraise e). unfold mcts_iteration, select.
    erewrite M_bind_run
      by exact (select_loop_leaf fuel c_puct epsilon alpha root [root] []
                  {| heap := h; rng := g |} n Hn Hleaf).
    cbn beta iota.
    erewrite M_bind_run by (by apply lift_run).
    erewrite M_bind_run by (by apply load_run).
    rewrite Hterm. cbn [negb]. rewrite Hest, Hlegal. reflexivity. }
  destruct (normalise_distribution_cases prior0) as [[prior Hnorm]|Hnorm].
  2:{ apply (Hraise ZeroDivisionError). unfold mcts_iteration, select.
      erewrite M_bind_run
        by exact (select_loop_leaf fuel c_puct epsilon alpha root [root] []
                    {| heap := h; rng := g |} n Hn Hleaf).
      cbn beta iota.
      erewrite M_bind_run by (by apply lift_run).
      erewrite M_bind_run by (by apply load_run).
      rewrite Hterm. cbn [negb]. rewrite Hest, Hlegal.
      apply M_bind_Raise.
      erewrite M_bind_run by reflexivity. cbn beta iota zeta.
      erewrite M_bind_run by reflexivity.
      apply M_bind_Raise. unfold lift. by rewrite Hnorm. }
  clear Hraise.
  destruct (mcts_iteration_expanding root game estimator c_puct epsilon alpha
              h g [root] [] g root n prior0 value child_states prior)
    as (kids & fresh & Hstep & Hlk & Hlf & Hspec);
    try done; [by eapply selection_leaf|].
  set (n1 := set_children kids (set_prior_probs prior n)) in *.
  set (h2 := <[root := set_N (N n1 + 1) n1]> (<[root := n1]> h ++ fresh)).
  erewrite M_bind_run; cycle 1.
  { cbn [mcts_loop]. erewrite M_bind_run; [reflexivity|].
    rewrite Hstep by (simpl; lia). unfold backup.
    rewrite backup_from_cons. cbn [heap rng].
    rewrite lookup_app_l by (by rewrite length_insert).
    rewrite list_lookup_insert_eq by done. reflexivity. }
  erewrite M_bind_run; cycle 1.
  { apply load_run. cbn [heap]. apply list_lookup_insert_eq.
    rewrite length_app, length_insert. lia. }
  fold h2.
  assert (Forall (fun c => ∃ m, h2 !! c = Some m ∧ N m = 0)
                 (child_refs (set_N (N n1 + 1) n1))) as Hkids.
  { unfold child_refs. cbn [children set_N set_children n1].
    apply Forall_fmap, Forall_lookup. intros i [a c] Hi. cbn [snd].
    destruct (lookup_lt_is_Some_2 (dict_keys child_states) i) as [a' Ha'].
    { rewrite dict_keys_length, <- Hlk. by eapply lookup_lt_Some. }
    destruct (Hspec i a' Ha') as (st & _ & Hk & Hf).
    assert (Some (a, c) = Some (a', (length h + i)%nat)) as [= -> ->]
      by (rewrite <- Hi; exact Hk).
    exists (MCTSNode_init st (Game.current_player game st)
                          (Game.is_terminal game st)).
    split; [|done]. unfold h2. cbn [snd].
    rewrite list_lookup_insert_ne by lia.
    rewrite lookup_app_r by (rewrite length_insert; lia).
    rewrite length_insert.
    replace (length h + i - length h)%nat with i by lia.
    rewrite Hf. reflexivity. }
  destruct (children_view_is_Some h2 N (set_N (N n1 + 1) n1))
    as [counts Hcounts].
  { eapply Forall_impl; [exact Hkids|]. intros c (m & -> & _). by eexists. }
  erewrite M_bind_run by (by apply children_attr_run).
  destruct (extremise_distribution_zero counts tau) as [e He].
  { destruct (children_view_inv _ _ _ _ Hcounts) as [_ Hall].
    eapply Forall2_Forall_l; [exact Hall|].
    eapply Forall_impl; [exact Hkids|].
    intros c (m & Hm & HN) v (m' & Hm' & ->). congruence. }
  exists e. unfold lift. by rewrite He.
Qed.

(** X23.  The trivial evaluator suits every game: when the players of a game
    are [1] and [2], every state that is not terminal has legal actions and
    every terminal state has a utility for both players, the game can be
    played by [mcts] with the evaluator that [create_trivial_evaluator]
    builds from the game's legal actions: its prior has a weight for every
    legal action and sums to one unless it is empty. *)
Theorem trivial_evaluator_playable (game : Game.t Action State) :
  (∀ st, Game.current_player game st = 1%Z ∨
         Game.current_player game st = 2%Z) →
  (∀ st, Game.is_terminal game st = false →
         ∃ child_states, Game.legal_actions game st = inr child_states) →
  (∀ st, Game.is_terminal game st = true →
         ∃ values, Game.utility game st = inr values ∧
                   1%Z ∈ dict_keys values ∧ 2%Z ∈ dict_keys values) →
  playable game (create_trivial_evaluator (Game.legal_actions game)).
Proof.
  intros Hplayers Hmoves Hutility. split; [done| |done].
  intros st Hst. destruct (Hmoves st Hst) as [cs Hcs].
  change (list (Action * State)) in cs.
  set (c := 1 / INR (length cs)).
  exists cs, ((fun '(action, _) => (action, c)) <$> cs), 0.
  split; [done|]. split; [unfold create_trivial_evaluator; by rewrite Hcs|].
  split.
  - intros a Ha. by rewrite (dict_keys_fmap_pair (fun _ => c)).
  - intros Hne.
    assert (dict_values ((fun '(action, _) => (action, c)) <$> cs)
            = (fun _ => c) <$> cs) as ->.
    { unfold dict_values. rewrite <- list_fmap_compose.
      apply list_fmap_ext. by intros _ [a st'] _. }
    rewrite py_sum_const. unfold c.
    assert (INR (length cs) ≠ 0).
    { apply not_0_INR. destruct cs; [done|]. simpl. lia. }
    intros Hzero. apply (Rmult_integral_contrapositive_currified
                           (INR (length cs)) (1 / INR (length cs))); try done.
    unfold Rdiv. rewrite Rmult_1_l. by apply Rinv_neq_0_compat.
Qed.
End SearchTotal.

(** ** Printing the tree *)

Section PrintTree.
Context {Action State : Type} `{EqDecision Action} {RS : RandomSource}.
Local Abbreviation node := (MCTSNode Action State).
Local Abbreviation store := (store Action State).
Local Abbreviation M := (M Action State).

Lemma print_tree_loop_order fuel root queue i printed (s : store) out s' :
  print_tree_loop fuel queue i printed s = Ok (out, s') →
  printed = take i queue →
  (i ≤ length queue)%nat →
  queue = root :: concat (children_of (heap s) <$> take i queue) →
  s' = s ∧ out = root :: concat (children_of (heap s) <$> out).
Proof.
  revert queue i printed.
  induction fuel as [|fuel IH]; intros queue i printed; cbn [print_tree_loop];
    destruct (queue !! i) as [r|] eqn:Hr.
  - done.
  - intros [-> ->]%M_ret_Ok -> Hi Hq. split; [done|].
    apply lookup_ge_None in Hr. rewrite take_ge in Hq |- * by lia. done.
  - intros (n & s1 & [Hn ->]%load_Ok & Hrun)%M_bind_Ok -> Hi Hq.
    pose proof (lookup_lt_Some _ _ _ Hr) as Hlt.
    assert (take (S i) (queue ++ (children n).*2) = take i queue ++ [r])
      as Htake.
    { rewrite take_app_le by lia. by erewrite take_S_r. }
    eapply IH; [exact Hrun| | |].
    + by rewrite Htake.
    + rewrite length_app. lia.
    + rewrite Htake, fmap_app, concat_app. cbn [fmap list_fmap concat].
      rewrite app_nil_r. unfold children_of at 2. rewrite Hn.
      rewrite app_comm_cons, <- Hq. done.
  - intros [-> ->]%M_ret_Ok -> Hi Hq. split; [done|].
    apply lookup_ge_None in Hr. rewrite take_ge in Hq |- * by lia. done.
Qed.

Lemma tree_size_stable (h : list node) :
  children_later h →
  ∀ d r, (length h ≤ r + d)%nat → tree_size (S d) h r = tree_size d h r.
Proof.
  intros Hsel. induction d as [|d IH]; intros r Hd.
  - cbn [tree_size]. unfold children_of.
    by rewrite (lookup_ge_None_2 h r) by lia.
  - change (tree_size (S (S d)) h r)
      with (S (sum_list (tree_size (S d) h <$> children_of h r))).
    change (tree_size (S d) h r)
      with (S (sum_list (tree_size d h <$> children_of h r))).
    do 2 f_equal. apply Forall_fmap_ext, Forall_forall. intros c Hc.
    apply IH. unfold children_of in Hc.
    destruct (h !! r) as [n|] eqn:Hn; [|by apply elem_of_nil in Hc].
    apply (proj1 (Forall_forall _ _) (Hsel r n Hn)) in Hc. lia.
Qed.

Lemma tree_size_unfold (h : list node) r :
  children_later h →
  (r < length h)%nat →
  tree_size (length h) h r
  = S (sum_list (tree_size (length h) h <$> children_of h r)).
Proof.
  intros Hsel Hr. destruct (length h) as [|d] eqn:Hlen; [lia|].
  change (tree_size (S d) h r)
    with (S (sum_list (tree_size d h <$> children_of h r))) at 1.
  do 2 f_equal. apply Forall_fmap_ext, Forall_forall. intros c Hc.
  symmetry. apply tree_size_stable; [done|].
  unfold children_of in Hc.
  destruct (h !! r) as [n|] eqn:Hn; [|by apply elem_of_nil in Hc].
  apply (proj1 (Forall_forall _ _) (Hsel r n Hn)) in Hc. lia.
Qed.

Lemma sum_list_cons (x : nat) (l : list nat) :
  sum_list (x :: l) = (x + sum_list l)%nat.
Proof. reflexivity. Qed.

Lemma print_tree_loop_returns (s : store) :
  children_later (heap s) →
  ∀ bound fuel queue i printed,
    sum_list (tree_size (length (heap s)) (heap s) <$> drop i queue) = bound →
    (bound ≤ fuel)%nat →
    Forall (fun r => (r < length (heap s))%nat) (drop i queue) →
    ∃ out, print_tree_loop fuel queue i printed s = Ok (out, s) ∧
           length out = (length printed + bound)%nat.
Proof.
  intros Hsel. induction bound as [bound IH] using lt_wf_ind.
  intros fuel queue i printed Hbound Hfuel Hvalid.
  destruct (queue !! i) as [r|] eqn:Hr.
  - pose proof (lookup_lt_Some _ _ _ Hr) as Hlt.
    rewrite (drop_S _ _ _ Hr) in Hbound, Hvalid.
    apply Forall_cons in Hvalid as [Hrv Hvalid].
    rewrite fmap_cons, sum_list_cons in Hbound.
    rewrite (tree_size_unfold _ _ Hsel Hrv) in Hbound.
    destruct fuel as [|fuel]; [lia|]. cbn [print_tree_loop]. rewrite Hr.
    destruct (lookup_lt_is_Some_2 _ _ Hrv) as [n Hn].
    erewrite M_bind_run by (by apply load_run).
    unfold children_of in Hbound. rewrite Hn in Hbound.
    pose proof (Hsel r n Hn) as Hrefs.
    assert (drop (S i) (queue ++ (children n).*2)
            = drop (S i) queue ++ child_refs n) as Hdrop.
    { rewrite drop_app_le by lia. done. }
    destruct (IH (sum_list (tree_size (length (heap s)) (heap s)
                              <$> drop (S i) (queue ++ (children n).*2)))
                 ltac:(rewrite Hdrop, fmap_app, sum_list_with_app; lia)
                 fuel (queue ++ (children n).*2) (S i) (printed ++ [r])
                 eq_refl)
      as (out & Hout & Hlen).
    + rewrite Hdrop, fmap_app, sum_list_with_app. lia.
    + rewrite Hdrop. apply Forall_app. split; [done|].
      eapply Forall_impl; [exact Hrefs|]. by intros c [_ ?].
    + exists out. split; [done|]. rewrite Hlen, length_app.
      rewrite Hdrop, fmap_app, sum_list_with_app. simpl. lia.
  - destruct fuel; cbn [print_tree_loop]; rewrite Hr;
      (exists printed; split; [done|]);
      apply lookup_ge_None in Hr; rewrite drop_ge in Hbound by lia;
      simpl in Hbound; lia.
Qed.

(** X24.  [print_tree] prints level by level.  On a heap whose nodes have
    their children later in the heap, and from a node of the heap, the loop
    ends: with fuel for as many nodes as the tree below the root has,
    [print_tree] returns and changes nothing; it prints that many nodes;
    and the nodes printed are the root followed by the children of the
    first node printed, then those of the second, and so on: the order of
    the queue (breadth first), not a pre-order walk. *)
Theorem print_tree_level_order (fuel : nat) (root : ref) (s : store) :
  children_later (heap s) →
  (root < length (heap s))%nat →
  (tree_size (length (heap s)) (heap s) root ≤ fuel)%nat →
  ∃ printed,
    print_tree fuel root s = Ok (printed, s) ∧
    length printed = tree_size (length (heap s)) (heap s) root ∧
    printed = root :: concat (children_of (heap s) <$> printed).
Proof.
  intros Hsel Hroot Hfuel.
  destruct (print_tree_loop_returns s Hsel
              (tree_size (length (heap s)) (heap s) root) fuel [root] 0%nat [])
    as (out & Hout & Hlen).
  - simpl. lia.
  - done.
  - by constructor.
  - exists out. split; [done|]. split; [done|].
    eapply proj2, (print_tree_loop_order fuel root [root] 0%nat []);
      [exact Hout|done|simpl; lia|done].
Qed.
End PrintTree.
(** * Instances of the further properties *)

Section GameInstances.
Import NoughtsAndCrosses.

Lemma utility_defined_iff_terminal_witness :
  is_terminal INITIAL_STATE = Ok false ↔
  utility INITIAL_STATE = Raise ValueError.
Proof.
  destruct (utility_defined_iff_terminal INITIAL_STATE) as (_ & H & _);
    [reflexivity|exact H].
Defined.

Lemma malformed_state_behaviour_witness :
  is_terminal [Some 1%Z] = Ok true ∧ utility [Some 1%Z] = Raise ValueError.
Proof.
  destruct (malformed_state_behaviour [Some 1%Z]) as [Hterm Hlen].
  split; [by apply Hterm|]. apply Hlen. simpl. lia.
Defined.

Lemma next_states_successors_witness :
  ∃ successors,
    next_states INITIAL_STATE = Ok successors ∧
    NoDup (dict_keys successors) ∧
    ∀ key next_state,
      (key, next_state) ∈ successors ↔
      ∃ j, (j < 9)%nat ∧ INITIAL_STATE !! j = Some None ∧
           key = (j / 3, j mod 3)%nat ∧
           next_state = <[j := Some 1%Z]> INITIAL_STATE.
Proof.
  destruct (next_states_successors INITIAL_STATE) as [_ H];
    [reflexivity|]. by apply H.
Defined.

Lemma utility_three_in_line_witness :
  utility crosses_won = Ok {| player1_score := 1; player2_score := -1 |} ↔
  three_in_line crosses_won 1.
Proof.
  destruct (utility_three_in_line crosses_won) as (H & _); [|exact H].
  split; [reflexivity|].
  apply Forall_forall. intros c Hc.
  repeat (apply elem_of_cons in Hc as [->|Hc]; [by eauto|]).
  by apply elem_of_nil in Hc.
Defined.

End GameInstances.

Lemma normalise_distribution_sums_to_one_witness :
  ∃ d', normalise_distribution [(0%nat, 1); (1%nat, 3)] = Ok d' ∧
        dict_keys d' = dict_keys [(0%nat, 1); (1%nat, 3)] ∧
        py_sum (dict_values d') = 1.
Proof.
  apply (normalise_distribution_sums_to_one [(0%nat, 1); (1%nat, 3)]).
  unfold py_sum, dict_values. simpl. lra.
Defined.

Lemma extremise_distribution_assertions_witness :
  extremise_distribution [(0%nat, 1)] 0 = Raise AssertionError ∧
  extremise_distribution [(0%nat, -1)] 1 = Raise AssertionError.
Proof.
  split.
  - apply (proj1 (extremise_distribution_assertions [(0%nat, 1)] 0)). lra.
  - apply (proj2 (extremise_distribution_assertions [(0%nat, -1)] 1)); [lra|].
    apply Exists_cons_hd. simpl. lra.
Defined.

Lemma compute_ucb_missing_prior_witness :
  compute_ucb [(0%nat, 1)] [] [(0%nat, 0)] 1 = Raise KeyError.
Proof.
  apply (compute_ucb_missing_prior [(0%nat, 1)] [] [(0%nat, 0)] 1 0%nat).
  - constructor; [simpl; lra | constructor].
  - by left.
  - by intros ?%elem_of_nil.
Defined.

Lemma dict_argmax_first_maximum_witness :
  dict_argmax ([] : dict nat R) = Raise ValueError.
Proof. by apply (dict_argmax_first_maximum ([] : dict nat R)). Defined.

Lemma extremise_distribution_sums_to_one_witness :
  ∃ d', extremise_distribution [(0%nat, 1); (1%nat, 3)] (1 / 2) = Ok d' ∧
        dict_keys d' = dict_keys [(0%nat, 1); (1%nat, 3)] ∧
        Forall (fun v => 0 <= v <= 1) (dict_values d') ∧
        py_sum (dict_values d') = 1.
Proof.
  apply (extremise_distribution_sums_to_one [(0%nat, 1); (1%nat, 3)] (1 / 2)).
  - lra.
  - constructor; [simpl; lra|]. constructor; [simpl; lra | constructor].
  - apply Exists_cons_hd. simpl. lra.
Defined.

Lemma expand_leaf_effect_witness :
  ∃ s' n',
    expand 0%nat [(0%nat, 1)] [(0%nat, 1%nat)] [(0%nat, 2%Z)] [(0%nat, true)]
           fresh_store = Ok (tt, s') ∧
    heap s' !! 0%nat = Some n' ∧
    children n' !! 0%nat = Some (0%nat, 1%nat) ∧
    heap s' !! 1%nat = Some (MCTSNode_init 1%nat 2%Z true).
Proof.
  destruct (expand_leaf_effect 0%nat [(0%nat, 1)] [(0%nat, 1%nat)]
              [(0%nat, 2%Z)] [(0%nat, true)] fresh_store
              (MCTSNode_init 0%nat 1%Z false))
    as (s' & n' & Hrun & _ & _ & _ & Hn' & _ & _ & _ & Hkids).
  - reflexivity.
  - reflexivity.
  - intros a Ha. split; exact Ha.
  - destruct (Hkids 0%nat 0%nat eq_refl)
      as (st & pl & tm & [= <-] & [= <-] & [= <-] & Hchild & Hcell).
    exists s', n'. done.
Defined.

Lemma expand_failures_witness :
  expand 0%nat [(0%nat, 1)] [(0%nat, 1%nat)] [(0%nat, 2%Z)] [(0%nat, true)]
         searched_store = Raise AssertionError.
Proof.
  destruct (expand_failures 0%nat [(0%nat, 1)] [(0%nat, 1%nat)]
              [(0%nat, 2%Z)] [(0%nat, true)] searched_store
              {| Q := 0; W := 0; N := 2; is_terminal := false;
                 children := [(0%nat, 1%nat)]; prior_probs := [(0%nat, 1)];
                 game_state := 0%nat; player := 1%Z |}) as (H & _).
  - reflexivity.
  - by apply H.
Defined.

Lemma select_path_linked_witness :
  [0%nat; 1%nat] !! 0%nat = Some 0%nat ∧
  length [0%nat; 1%nat] = S (length [0%nat]) ∧
  (∀ i a, [0%nat] !! i = Some a →
     ∃ x n y, [0%nat; 1%nat] !! i = Some x ∧
              heap searched_store !! x = Some n ∧
              is_leaf n = false ∧ dict_get (children n) a = Some y ∧
              [0%nat; 1%nat] !! S i = Some y) ∧
  ∃ leaf n, last [0%nat; 1%nat] = Some leaf ∧
            heap searched_store !! leaf = Some n ∧ is_leaf n = true.
Proof.
  exact (select_path_linked 1 0%nat 1 (1 / 4) (3 / 100) searched_store
           [0%nat; 1%nat] [0%nat]
           {| heap := heap searched_store; rng := 2%nat |} one_move_select).
Defined.

Lemma backup_frame_and_counts_witness :
  ∃ s', backup [0%nat; 1%nat] [(1%Z, 1); (2%Z, -1)] searched_store
        = Ok (tt, s') ∧
        rng s' = rng searched_store ∧
        length (heap s') = length (heap searched_store).
Proof.
  eexists. split; [run|].
  destruct (backup_frame_and_counts [0%nat; 1%nat] [(1%Z, 1); (2%Z, -1)]
              searched_store tt _ ltac:(run)) as (Hrng & Hlen & _).
  split; [exact Hrng|exact Hlen].
Defined.

Lemma backup_truthy_players_witness :
  ∃ s' n', backup [0%nat; 1%nat] [(1%Z, 1); (2%Z, -1)] searched_store
           = Ok (tt, s') ∧
           heap s' !! 1%nat = Some n' ∧ N n' = 1 + 1.
Proof.
  eexists.
  destruct (backup_truthy_players [0%nat; 1%nat] [(1%Z, 1); (2%Z, -1)]
              searched_store tt _
              ltac:(apply NoDup_cons; split;
                      [by intros ?%list_elem_of_singleton
                      |apply NoDup_singleton])
              ltac:(repeat constructor; intros n [= <-]; by cbn)
              ltac:(run) 1%nat 1%nat _ eq_refl eq_refl)
    as (n' & Hn' & HN & _).
  exists n'. split; [run|]. split; [exact Hn'|exact HN].
Defined.

Lemma backup_missing_player_witness :
  backup [0%nat; 1%nat] [] searched_store = Raise KeyError.
Proof.
  apply (backup_missing_player [0%nat; 1%nat] [] searched_store 0%nat 0%nat
           {| Q := 0; W := 0; N := 2; is_terminal := false;
              children := [(0%nat, 1%nat)]; prior_probs := [(0%nat, 1)];
              game_state := 0%nat; player := 1%Z |}).
  - constructor; [eexists; split; [reflexivity|simpl; lra]|].
    constructor; [eexists; split; [reflexivity|simpl; lra]|]. constructor.
  - reflexivity.
  - simpl. lia.
  - reflexivity.
  - done.
  - by intros ?%elem_of_nil.
Defined.

Lemma fresh_store_selectable : selectable (heap fresh_store).
Proof.
  intros r n Hn. destruct r as [|r]; [|done]. injection Hn as <-.
  split; [simpl; lra|constructor].
Qed.

Lemma searched_store_selectable : selectable (heap searched_store).
Proof.
  intros r n Hn. destruct r as [|[|r]]; [| |done]; injection Hn as <-.
  - split; [simpl; lra|]. constructor; [|constructor].
    split; [simpl; lia|by left].
  - split; [simpl; lra|constructor].
Qed.

Lemma fresh_store_follows_game : follows_game one_move_game (heap fresh_store).
Proof. intros r n Hn. destruct r as [|r]; [|done]. by injection Hn as <-. Qed.

Lemma one_move_players (st : nat) :
  Game.current_player one_move_game st = 1%Z ∨
  Game.current_player one_move_game st = 2%Z.
Proof. simpl. destruct (Nat.even st); [by left|by right]. Qed.

Lemma one_move_utility (st : nat) :
  Game.is_terminal one_move_game st = true →
  ∃ values, Game.utility one_move_game st = inr values ∧
            1%Z ∈ dict_keys values ∧ 2%Z ∈ dict_keys values.
Proof.
  destruct st as [|st]; [done|]. intros _. eexists. split; [reflexivity|].
  split; [by left|by right; left].
Qed.

Lemma one_move_playable : playable one_move_game one_move_estimator.
Proof.
  split.
  - exact one_move_players.
  - intros [|st] Hst; [|done]. exists [(0%nat, 1%nat)], [(0%nat, 1)], 0.
    split; [done|]. split; [done|]. split; [done|].
    intros _. unfold py_sum. simpl. lra.
  - exact one_move_utility.
Qed.

Lemma select_returns_witness :
  ∃ nodes actions g',
    select 2 0%nat 1 (1 / 4) (3 / 100) searched_store
    = Ok ((nodes, actions), {| heap := heap searched_store; rng := g' |}) ∧
    (length actions < length (heap searched_store))%nat.
Proof.
  apply (select_returns 2 0%nat 1 (1 / 4) (3 / 100) searched_store).
  - exact searched_store_selectable.
  - simpl. lia.
  - simpl. lia.
Defined.

Lemma mcts_extends_tree_witness :
  (length (heap fresh_store) ≤ length (heap searched_store))%nat ∧
  ∀ x n, heap fresh_store !! x = Some n →
    ∃ n', heap searched_store !! x = Some n' ∧
          game_state n' = game_state n ∧ player n' = player n ∧
          is_terminal n' = is_terminal n ∧ N n <= N n' ∧
          (children n ≠ [] →
           children n' = children n ∧ prior_probs n' = prior_probs n).
Proof.
  exact (mcts_extends_tree 1 0%nat one_move_game one_move_estimator 2
           1 1 (1 / 4) (3 / 100) fresh_store [(0%nat, 1)] searched_store
           one_move_search).
Defined.

Lemma mcts_returns_distribution_witness :
  ∃ fuel0 dist s',
    (∀ fuel, (fuel0 ≤ fuel)%nat →
       mcts fuel 0%nat one_move_game one_move_estimator 2 1 1 (1 / 4) (3 / 100)
            fresh_store = Ok (dist, s')) ∧
    dict_keys dist = dict_keys [(0%nat, 1%nat)] ∧
    Forall (fun v => 0 <= v <= 1) (dict_values dist) ∧
    py_sum (dict_values dist) = 1.
Proof.
  apply (mcts_returns_distribution 0%nat one_move_game one_move_estimator 2
           1 1 (1 / 4) (3 / 100) fresh_store (MCTSNode_init 0%nat 1%Z false)
           [(0%nat, 1%nat)]).
  - exact one_move_playable.
  - exact fresh_store_selectable.
  - exact fresh_store_follows_game.
  - reflexivity.
  - reflexivity.
  - reflexivity.
  - reflexivity.
  - reflexivity.
  - done.
  - lia.
  - lra.
Defined.

Lemma mcts_result_distribution_witness :
  0 < 1 ∧
  ∃ n, heap searched_store !! 0%nat = Some n ∧
       dict_keys [(0%nat, 1)] = dict_keys (children n) ∧
       Forall (fun v => 0 <= v <= 1) (dict_values [(0%nat, 1)]) ∧
       py_sum (dict_values [(0%nat, 1)]) = 1.
Proof.
  exact (mcts_result_distribution 1 0%nat one_move_game one_move_estimator 2
           1 1 (1 / 4) (3 / 100) fresh_store [(0%nat, 1)] searched_store
           one_move_search).
Defined.

Lemma mcts_single_iteration_raises_witness :
  ∃ e, mcts 1 0%nat one_move_game one_move_estimator 1 1 1 (1 / 4) (3 / 100)
            fresh_store = Raise e.
Proof.
  apply (mcts_single_iteration_raises 1 0%nat one_move_game one_move_estimator
           1 1 (1 / 4) (3 / 100) fresh_store (MCTSNode_init 0%nat 1%Z false)).
  - reflexivity.
  - reflexivity.
  - reflexivity.
Defined.

Lemma trivial_evaluator_playable_witness :
  playable one_move_game
           (create_trivial_evaluator (Game.legal_actions one_move_game)).
Proof.
  apply (trivial_evaluator_playable one_move_game).
  - exact one_move_players.
  - intros [|st] Hst; [by eexists|done].
  - exact one_move_utility.
Defined.

Lemma searched_store_children_later : children_later (heap searched_store).
Proof.
  intros r n Hn. destruct r as [|[|r]]; [| |done]; injection Hn as <-.
  - constructor; [simpl; lia|constructor].
  - constructor.
Qed.

Lemma print_tree_level_order_witness :
  ∃ printed,
    print_tree 2 0%nat searched_store = Ok (printed, searched_store) ∧
    length printed
    = tree_size (length (heap searched_store)) (heap searched_store) 0%nat ∧
    printed = 0%nat :: concat (children_of (heap searched_store) <$> printed).
Proof.
  apply (print_tree_level_order 2 0%nat searched_store).
  - exact searched_store_children_later.
  - simpl. lia.
  - simpl. lia.
Defined.
